(** * Deployment-support scripts: a shallow embedding and its properties

    The development follows the Python sources of the repository:
    - [bcf3.0/with_ivs/lib/cleaner.py]   (module [Cleaner])
    - [openstack/big_patch.py]           (modules [TimedCommand],
      [Format], [PuppetTemplate], [ConfigDeployer])
    - [cloudstack/big_patch.py]          (modules [InterfaceConfig],
      [CloudStack])
    and goes on with a property of both renderers (module [Rendering])
    and with further properties of the same sources:
    - [openstack/big_patch.py]: [TimedCommandReuse], [PuppetTemplateMore],
      [PuppetTemplateFiles], [ConfigDeployerReport], [ConfigEnvironment],
      [ApplyErrors];
    - [cloudstack/big_patch.py]: [CloudStackReturn], [CloudStackQueues],
      [CloudStackOrder], [CloudStackManagement].

    Python exceptions are results of a small error monad, objects are
    records, dictionaries are [gmap]s, and the threaded deployers are
    interleaving step relations over an explicit shared state. *)

From Stdlib Require Import ZArith Lia Ascii DecimalString.
From Equations Require Import Equations.
From stdpp Require Import base list strings gmap.

Local Open Scope string_scope.

(** ** Python results *)

Module Py.

Inductive exn : Type :=
| TypeError (msg : string)
| KeyError (key : string)
| IndexError (msg : string)
| ValueError (msg : string)
| AttributeError (msg : string)
| OSError (msg : string)
| Exception (msg : string).

Inductive result (A : Type) : Type :=
| Ok (a : A)
| Raise (e : exn).

Arguments Ok {A} a.
Arguments Raise {A} e.

Definition bind {A B : Type} (r : result A) (k : A -> result B) : result B :=
  match r with
  | Ok a => k a
  | Raise e => Raise e
  end.

(** [needle in haystack] on two [str] values *)
Definition str_contains (needle haystack : string) : bool :=
  match String.index 0 needle haystack with
  | Some _ => true
  | None => false
  end.

End Py.

#[global] Instance result_bind : MBind Py.result := fun A B k r => Py.bind r k.
#[global] Instance result_ret : MRet Py.result := fun A a => Py.Ok a.
#[global] Instance result_fmap : FMap Py.result :=
  fun A B f r => Py.bind r (fun a => Py.Ok (f a)).

(** ** cleaner.py: [Cleaner.__init__] *)

Module Cleaner.
Import Py.

(** An attribute of the object is [None] or a [str] read from [os.environ]. *)
Inductive attr : Type :=
| PyNone
| PyStr (s : string).

(** [x in container]: on [None] Python raises
    [TypeError: argument of type 'NoneType' is not iterable]. *)
Definition py_in (x : string) (container : attr) : result bool :=
  match container with
  | PyNone => Raise (TypeError "argument of type 'NoneType' is not iterable")
  | PyStr s => Ok (str_contains x s)
  end.

(** [os.environ[key]] *)
Definition environ_getitem (environ : gmap string string) (key : string)
  : result attr :=
  match environ !! key with
  | Some v => Ok (PyStr v)
  | None => Raise (KeyError key)
  end.

(** The pattern of lines 21-39:
    [self.K = None; if 'K' in os.environ: self.K = os.environ['K']] *)
Definition none_or_environ (environ : gmap string string) (key : string)
  : result attr :=
  if bool_decide (is_Some (environ !! key))
  then environ_getitem environ key
  else Ok PyNone.

Section Init.

(** The two client libraries are external; their constructors may return a
    client or raise. *)
Context {NeutronClient KeystoneClient : Type}.
Variable neutron_Client :
  attr -> attr -> attr -> attr -> attr -> result NeutronClient.
Variable keystone_Client :
  attr -> attr -> attr -> attr -> attr -> result KeystoneClient.

Record Cleaner : Type := {
  OS_AUTH_URL : attr;
  OS_TENANT_ID : attr;
  OS_TENANT_NAME : attr;
  OS_USERNAME : attr;
  OS_PASSWORD : attr;
  OS_REGION_NAME : attr;
  neutron_client : NeutronClient;
  keystone_client : KeystoneClient
}.

Definition __init__ (environ : gmap string string) : result Cleaner :=
  auth_url ← none_or_environ environ "OS_AUTH_URL";
  tenant_id ← none_or_environ environ "OS_TENANT_ID";
  tenant_name ← none_or_environ environ "OS_TENANT_NAME";
  username ← none_or_environ environ "OS_USERNAME";
  password ← none_or_environ environ "OS_PASSWORD";
  (* self.OS_REGION_NAME = None
     if 'OS_REGION_NAME' in self.OS_REGION_NAME: ... *)
  let region0 := PyNone in
  test ← py_in "OS_REGION_NAME" region0;
  region ← (if (test : bool)
            then environ_getitem environ "OS_REGION_NAME"
            else Ok region0);
  nc ← neutron_Client auth_url username password tenant_id tenant_name;
  kc ← keystone_Client auth_url username password tenant_id tenant_name;
  Ok {| OS_AUTH_URL := auth_url; OS_TENANT_ID := tenant_id;
        OS_TENANT_NAME := tenant_name; OS_USERNAME := username;
        OS_PASSWORD := password; OS_REGION_NAME := region;
        neutron_client := nc; keystone_client := kc |}.

Lemma none_or_environ_ok (environ : gmap string string) (key : string) :
  exists a, none_or_environ environ key = Ok a.
Proof.
  unfold none_or_environ, environ_getitem.
  case_bool_decide as Hk.
  - destruct Hk as [v Hv]. rewrite Hv. eauto.
  - eauto.
Qed.

(** C10. Constructing a [Cleaner] raises [TypeError] whatever [os.environ]
    holds: the five credential attributes are read without error, then the
    membership test on [self.OS_REGION_NAME], which is [None], raises; so
    no environment yields an instance. *)
Theorem Cleaner_init_always_TypeError (environ : gmap string string) :
  __init__ environ
    = Raise (TypeError "argument of type 'NoneType' is not iterable")
  /\ (forall c : Cleaner, __init__ environ <> Ok c).
Proof.
  assert (Hraise : __init__ environ
            = Raise (TypeError "argument of type 'NoneType' is not iterable")).
  { unfold __init__.
    destruct (none_or_environ_ok environ "OS_AUTH_URL") as [a1 ->].
    destruct (none_or_environ_ok environ "OS_TENANT_ID") as [a2 ->].
    destruct (none_or_environ_ok environ "OS_TENANT_NAME") as [a3 ->].
    destruct (none_or_environ_ok environ "OS_USERNAME") as [a4 ->].
    destruct (none_or_environ_ok environ "OS_PASSWORD") as [a5 ->].
    reflexivity. }
  split; [exact Hraise|].
  intros c Hc. rewrite Hraise in Hc. discriminate.
Qed.

End Init.

End Cleaner.

(** ** openstack/big_patch.py: [TimedCommand] *)

Module TimedCommand.

(** [cmd] is an argument vector, or one shell string when [shell=True]. *)
Inductive command : Type :=
| CmdString (s : string)
| CmdArgv (argv : list string).

(** What a child started by [subprocess.Popen] does, seen from [run]:
    - [SpawnError]: [Popen] raises, [target] records the error and returns
      before [thread.join(timeout)] gives up;
    - [Exits]: the child exits and [communicate()] returns before
      [thread.join(timeout)] gives up;
    - [Overruns]: the thread is still alive after the timeout, the child
      ends when it receives the signal of [terminate()], and
      [communicate()] returns what was captured;
    - [Survives]: the thread is still alive after the timeout and the
      signal of [terminate()] does not end the child (it ignores SIGTERM,
      or a descendant keeps its pipes open), so [communicate()] does not
      return;
    - [Unspawned]: the thread is still alive after the timeout because
      [Popen] itself has not returned, so [self.process] is still what it
      was before the attempt. *)
Inductive child : Type :=
| SpawnError (e : string)
| Exits (out err : string)
| Overruns (out err : string)
| Survives
| Unspawned.

(** [thread.is_alive()] after [thread.join(timeout)]. *)
Definition is_alive (c : child) : bool :=
  match c with
  | SpawnError _ | Exits _ _ => false
  | Overruns _ _ | Survives | Unspawned => true
  end.

(** The child was still running at the timeout and ended on [terminate()]. *)
Definition overran (c : child) : bool :=
  match c with Overruns _ _ => true | _ => false end.

(** The child was still running at the timeout: it is the process that
    [self.process.terminate()] signals. *)
Definition signalled (c : child) : bool :=
  match c with Overruns _ _ | Survives => true | _ => false end.

(** How a call of [run] ends: it returns [self.resp, self.errors]; an
    exception leaves it; or it never returns, blocked in the second
    [thread.join()], which has no timeout. *)
Inductive outcome : Type :=
| Returns (resp errors : option string)
| Raises (e : Py.exn)
| Hangs.

(** One attempt as the operating system saw it: the arguments of [Popen],
    the timeout given to [thread.join], what the child did, and whether
    [self.process.terminate()] was called. *)
Record attempt : Type := {
  a_cmd : command;
  a_shell : bool;
  a_timeout : Z;
  a_child : child;
  a_terminated : bool
}.

(** The object: [__init__] sets every field but [cmd] to its empty value. *)
Record TimedCommand : Type := {
  cmd : command;
  process : option nat;
  retries : nat;
  resp : option string;
  errors : option string
}.

Definition __init__ (c : command) : TimedCommand :=
  {| cmd := c; process := None; retries := 0; resp := None; errors := None |}.

Section Run.

(** [str()] of an argument vector is Python's [repr] of the list. *)
Variable repr_argv : list string -> string.

(** The environment: what the [n]-th child started does, given the
    arguments of [Popen] and the timeout the caller waits for. *)
Variable os : nat -> command -> bool -> Z -> child.

(** The one-character string holding a double quote. *)
Definition dquote : string := String (Ascii.ascii_of_nat 34) EmptyString.

Definition py_str (c : command) : string :=
  match c with
  | CmdString s => s
  | CmdArgv argv => repr_argv argv
  end.

Definition spawn_error_msg (c : command) (e : string) : string :=
  "Error opening process " ++ dquote ++ py_str c ++ dquote ++ ": " ++ e.

Definition timeout_msg (c : command) : string :=
  "Timed out waiting for command '" ++ py_str c ++ "' to finish.".

Definition set_retries (self : TimedCommand) (n : nat) : TimedCommand :=
  {| cmd := cmd self; process := process self; retries := n;
     resp := resp self; errors := errors self |}.

Definition set_errors (self : TimedCommand) (e : string) : TimedCommand :=
  {| cmd := cmd self; process := process self; retries := retries self;
     resp := resp self; errors := Some e |}.

(** [target()] after a successful [Popen]:
    [self.resp, self.errors = self.process.communicate()] *)
Definition communicated (self : TimedCommand) (pid : nat) (out err : string)
  : TimedCommand :=
  {| cmd := cmd self; process := Some pid; retries := retries self;
     resp := Some out; errors := Some err |}.

(** [target()] blocked in [communicate()]: only [self.process] is set. *)
Definition spawned (self : TimedCommand) (pid : nat) : TimedCommand :=
  {| cmd := cmd self; process := Some pid; retries := retries self;
     resp := resp self; errors := errors self |}.

Definition logged (self : TimedCommand) (shell : bool) (timeout : Z)
    (c : child) (terminated : bool) : attempt :=
  {| a_cmd := cmd self; a_shell := shell; a_timeout := timeout;
     a_child := c; a_terminated := terminated |}.

(** [self.process.terminate()] when [Popen] has not returned. On a fresh
    object [self.process] is [None]. On a reused one it is the child of an
    earlier attempt, which [communicate()] has already waited for:
    Python 2's [terminate()] is [os.kill(self.pid, SIGTERM)] whatever the
    return code, and fails on the reaped pid (taken not to be in use
    again). *)
Definition terminate_unspawned (self : TimedCommand) : Py.exn :=
  match process self with
  | None => Py.AttributeError "'NoneType' object has no attribute 'terminate'"
  | Some _ => Py.OSError "[Errno 3] No such process"
  end.

(** [run(self, timeout, retries, shell)]. The log of attempts is threaded
    through; the number of children started so far is its length. The
    recursive call is [self.run(timeout, retries)]: [shell] takes its
    default, [False]. *)
Equations? run (self : TimedCommand) (timeout : Z) (max_retries : nat)
    (shell : bool) (log : list attempt)
  : outcome * TimedCommand * list attempt
  by wf (max_retries - retries self) lt :=
run self timeout max_retries shell log
  with os (length log) (cmd self) shell timeout => {
  | SpawnError e =>
      (* the thread has ended: [if thread.is_alive()] is not entered *)
      let self1 := set_errors self (spawn_error_msg (cmd self) e) in
      (Returns (resp self1) (errors self1), self1,
       (log ++ [logged self shell timeout (SpawnError e) false])%list)
  | Exits out err =>
      let self1 := communicated self (length log) out err in
      (Returns (resp self1) (errors self1), self1,
       (log ++ [logged self shell timeout (Exits out err) false])%list)
  | Overruns out err =>
      (* [self.process.terminate()], then [thread.join()] returns *)
      let self1 := communicated self (length log) out err in
      let log1 :=
        (log ++ [logged self shell timeout (Overruns out err) true])%list in
      match lt_dec (retries self1) max_retries with
      | left Hlt =>
          run (set_retries self1 (S (retries self1))) timeout max_retries
              false log1
      | right _ =>
          let self2 := set_errors self1 (timeout_msg (cmd self1)) in
          (Returns (resp self2) (errors self2), self2, log1)
      end
  | Survives =>
      (* [self.process.terminate()], then [thread.join()] never returns *)
      (Hangs, spawned self (length log),
       (log ++ [logged self shell timeout Survives true])%list)
  | Unspawned =>
      (* [self.process.terminate()] on what [self.process] was before *)
      (Raises (terminate_unspawned self), self,
       (log ++ [logged self shell timeout Unspawned false])%list)
  }.
Proof. simpl in *. lia. Qed.

(** *** What every call of [run] does *)

Record run_spec (self : TimedCommand) (timeout : Z) (max_retries : nat)
    (shell : bool) (log : list attempt)
    (r : outcome * TimedCommand * list attempt)
    (new : list attempt) : Prop := {
  rs_log : r.2 = (log ++ new)%list;
  rs_cmd : cmd r.1.2 = cmd self;
  rs_nonempty : 1 <= length new;
  rs_bound : length new <= S (max_retries - retries self);
  rs_same : forall i a, new !! i = Some a ->
    a_cmd a = cmd self /\ a_timeout a = timeout /\
    a_shell a = (if i is 0 then shell else false) /\
    a_child a = os (length log + i) (cmd self) (a_shell a) timeout /\
    a_terminated a = signalled (a_child a);
  rs_retry : forall i a, new !! i = Some a -> overran (a_child a) = true ->
    retries self + i < max_retries -> is_Some (new !! S i);
  rs_only_timeout : forall i a, new !! i = Some a -> is_Some (new !! S i) ->
    overran (a_child a) = true;
  rs_outcome : forall a, last new = Some a ->
    match a_child a with
    | SpawnError e =>
        exists resp,
          r.1.1 = Returns resp (Some (spawn_error_msg (cmd self) e))
    | Exits out err => r.1.1 = Returns (Some out) (Some err)
    | Overruns out err =>
        max_retries <= retries self + (length new - 1) /\
        r.1.1 = Returns (Some out) (Some (timeout_msg (cmd self)))
    | Survives => r.1.1 = Hangs
    | Unspawned =>
        r.1.1 = Raises (if length new is 1 then terminate_unspawned self
                        else Py.OSError "[Errno 3] No such process")
    end
}.

Lemma lookup_singleton_inv {A : Type} (x a : A) (i : nat) :
  [x] !! i = Some a -> i = 0 /\ a = x.
Proof. destruct i as [|[|i]]; simpl; intros H; by inversion H. Qed.

Lemma run_meets_spec (self : TimedCommand) (timeout : Z) (max_retries : nat)
    (shell : bool) (log : list attempt) :
  exists new,
    run_spec self timeout max_retries shell log
      (run self timeout max_retries shell log) new.
Proof.
  funelim (run self timeout max_retries shell log).
  - exists [logged self shell timeout (SpawnError e) false].
    split; simpl; try done; try lia.
    + intros i a [-> ->]%lookup_singleton_inv. simpl.
      rewrite Nat.add_0_r. by rewrite Heq.
    + intros i a [-> ->]%lookup_singleton_inv. done.
    + intros i a [-> ->]%lookup_singleton_inv [? ?]. done.
    + intros a [= <-]. simpl. by eexists.
  - exists [logged self shell timeout (Exits out err) false].
    split; simpl; try done; try lia.
    + intros i a [-> ->]%lookup_singleton_inv. simpl.
      rewrite Nat.add_0_r. by rewrite Heq.
    + intros i a [-> ->]%lookup_singleton_inv. done.
    + intros i a [-> ->]%lookup_singleton_inv [? ?]. done.
    + intros a [= <-]. done.
  - clear Heqcall. simpl in *.
    destruct (lt_dec (retries self) max_retries) as [Hlt|Hge].
    + destruct (H Hlt) as [new Hnew]. clear H.
      destruct Hnew as [Hlog Hcmd Hne Hbound Hsame Hretry Honly Hout].
      simpl in *.
      exists (logged self shell timeout (Overruns out err) true :: new).
      split; simpl; try lia.
      * by rewrite Hlog, <- app_assoc.
      * done.
      * intros [|i] a Hi; simpl in Hi.
        -- injection Hi as <-. simpl. rewrite Nat.add_0_r. by rewrite Heq.
        -- destruct (Hsame i a Hi) as (? & ? & Hsh & Hch & ?).
           rewrite length_app in Hch. simpl in Hch.
           replace (length log + S i) with (length log + 1 + i) by lia.
           repeat split; try done. by destruct i.
      * intros [|i] a Hi Hover Hlt'; simpl in *.
        -- apply lookup_lt_is_Some. lia.
        -- apply (Hretry i a Hi Hover). lia.
      * intros [|i] a Hi Hnext; simpl in *.
        -- by injection Hi as <-.
        -- by apply (Honly i a).
      * intros a Hlast.
        destruct new as [|b new]; [simpl in Hne; lia|].
        rewrite last_cons_cons in Hlast.
        specialize (Hout a Hlast).
        destruct (a_child a); try done.
        -- destruct Hout as [? ?]. split; [simpl in *; lia|done].
        -- rewrite Hout. by destruct new.
    + exists [logged self shell timeout (Overruns out err) true].
      split; simpl; try done; try lia.
      * intros i a [-> ->]%lookup_singleton_inv. simpl.
        rewrite Nat.add_0_r. by rewrite Heq.
      * intros i a [-> ->]%lookup_singleton_inv [? ?]. done.
      * intros a [= <-]. simpl. split; [lia|done].
  - exists [logged self shell timeout Survives true].
    split; simpl; try done; try lia.
    + intros i a [-> ->]%lookup_singleton_inv. simpl.
      rewrite Nat.add_0_r. by rewrite Heq.
    + intros i a [-> ->]%lookup_singleton_inv. done.
    + intros i a [-> ->]%lookup_singleton_inv [? ?]. done.
    + intros a [= <-]. done.
  - exists [logged self shell timeout Unspawned false].
    split; simpl; try done; try lia.
    + intros i a [-> ->]%lookup_singleton_inv. simpl.
      rewrite Nat.add_0_r. by rewrite Heq.
    + intros i a [-> ->]%lookup_singleton_inv. done.
    + intros i a [-> ->]%lookup_singleton_inv [? ?]. done.
    + intros a [= <-]. done.
Qed.

(** C2. A fresh [TimedCommand(cmd)] run with timeout [timeout] and retry
    budget [max_retries] makes at least one and at most [max_retries + 1]
    attempts. [terminate()] is called on the child of an attempt exactly
    when that child is still running at the timeout. A child that ends on
    [terminate()] is followed by a further attempt while budget is left, and
    nothing else is followed by one. The last attempt decides how the call
    ends: a child that ended on [terminate()] means the budget is used up
    and the call returns the captured output with the error
    "Timed out waiting for command '<cmd>' to finish."; a child that exited
    in time or could not be started makes it return with the child's own
    error; a child that does not end on [terminate()] leaves the call
    blocked for ever; and when [Popen] has not returned by the timeout an
    exception leaves the call. *)
Theorem run_timeout_kill_retry_report (c : command) (timeout : Z)
    (max_retries : nat) (shell : bool) :
  let r := run (__init__ c) timeout max_retries shell [] in
  let log := r.2 in
  (1 <= length log /\ length log <= S max_retries) /\
  (forall i a, log !! i = Some a ->
     a_timeout a = timeout /\
     a_child a = os i c (a_shell a) timeout /\
     a_terminated a = signalled (a_child a)) /\
  (forall i a, log !! i = Some a -> overran (a_child a) = true ->
     i < max_retries -> is_Some (log !! S i)) /\
  (forall i a, log !! i = Some a -> is_Some (log !! S i) ->
     overran (a_child a) = true) /\
  (forall a, last log = Some a ->
     match a_child a with
     | SpawnError e =>
         exists resp,
           r.1.1 = Returns resp
                     (Some ("Error opening process " ++ dquote ++ py_str c
                            ++ dquote ++ ": " ++ e))
     | Exits out err => r.1.1 = Returns (Some out) (Some err)
     | Overruns out err =>
         length log = S max_retries /\
         r.1.1 = Returns (Some out)
                   (Some ("Timed out waiting for command '" ++ py_str c
                          ++ "' to finish."))
     | Survives => r.1.1 = Hangs
     | Unspawned =>
         r.1.1 = Raises
                   (if length log is 1
                    then Py.AttributeError
                           "'NoneType' object has no attribute 'terminate'"
                    else Py.OSError "[Errno 3] No such process")
     end).
Proof.
  intros r log.
  destruct (run_meets_spec (__init__ c) timeout max_retries shell [])
    as [new [Hlog Hcmd Hne Hbound Hsame Hretry Honly Hout]].
  fold r in Hlog, Hcmd, Hout. simpl in *.
  assert (Hnew : log = new) by exact Hlog. rewrite Hnew.
  rewrite Nat.sub_0_r in Hbound.
  split; [lia|]. split; [|split; [|split; [|]]].
  - intros i a Hi. by destruct (Hsame i a Hi) as (? & ? & ? & ? & ?).
  - intros i a Hi Hover Hlt. by apply (Hretry i a).
  - exact Honly.
  - intros a Hlast. specialize (Hout a Hlast).
    destruct (a_child a); try done.
    destruct Hout as [? ?]. split; [lia|done].
Qed.

(** The timeout error is a non-empty string that names the command: a
    caller testing [if errors:] sees it. *)
Lemma timeout_msg_reports (c : command) :
  timeout_msg c <> EmptyString /\
  exists rest, timeout_msg c = "Timed out waiting for command '" ++ rest.
Proof. split; [done|]. by eexists. Qed.

(** Every attempt of one call issues the command of the object and waits
    for the timeout of the call; the first one runs in the mode asked for. *)
Lemma run_same_command_and_timeout (self : TimedCommand) (timeout : Z)
    (max_retries : nat) (shell : bool) (i : nat) (a : attempt) :
  (run self timeout max_retries shell []).2 !! i = Some a ->
  a_cmd a = cmd self /\ a_timeout a = timeout /\
  (i = 0 -> a_shell a = shell).
Proof.
  destruct (run_meets_spec self timeout max_retries shell [])
    as [new [Hlog _ _ _ Hsame _ _ _]].
  simpl in Hlog. rewrite Hlog. intros Hi.
  destruct (Hsame i a Hi) as (? & ? & Hsh & _).
  repeat split; try done. by intros ->.
Qed.

(** A re-attempt never runs through the shell, whatever mode was asked for. *)
Lemma run_retry_shell_false (self : TimedCommand) (timeout : Z)
    (max_retries : nat) (shell : bool) (i : nat) (a : attempt) :
  (run self timeout max_retries shell []).2 !! S i = Some a ->
  a_shell a = false.
Proof.
  destruct (run_meets_spec self timeout max_retries shell [])
    as [new [Hlog _ _ _ Hsame _ _ _]].
  simpl in Hlog. rewrite Hlog. intros Hi.
  by destruct (Hsame (S i) a Hi) as (_ & _ & Hsh & _).
Qed.

End Run.

(** A child that never finishes within its timeout, and ends when it is
    terminated. *)
Definition os_hangs (n : nat) (c : command) (shell : bool) (timeout : Z)
  : child :=
  Overruns EmptyString EmptyString.

(** A child that never finishes and does not end when it is terminated,
    such as [trap '' TERM; sleep 120]. *)
Definition os_survives (n : nat) (c : command) (shell : bool) (timeout : Z)
  : child :=
  Survives.

(** A host on which [Popen] does not return within the timeout. *)
Definition os_unspawned (n : nat) (c : command) (shell : bool) (timeout : Z)
  : child :=
  Unspawned.

(** C2, where the claim fails: with a child that does not end on
    [terminate()] the call signals the child and then never returns, however
    large the retry budget; and when [Popen] has not returned by the timeout
    the call is left by AttributeError, without a child terminated, a
    re-attempt or an error message. *)
Lemma run_blocks_on_surviving_child :
  let r := run (fun _ => EmptyString) os_survives
             (__init__ (CmdString "trap '' TERM; sleep 120")) 1 3 true [] in
  let r' := run (fun _ => EmptyString) os_unspawned
              (__init__ (CmdString "sleep 120")) 1 3 true [] in
  (r.1.1 = Hangs /\
   map (fun a => (a_child a, a_terminated a)) r.2 = [(Survives, true)]) /\
  (r'.1.1 = Raises (Py.AttributeError
                     "'NoneType' object has no attribute 'terminate'") /\
   map (fun a => (a_child a, a_terminated a)) r'.2 = [(Unspawned, false)]).
Proof. repeat split. Qed.

(** C3, evaluated at [TimedCommand("sleep 120").run(1, 1, shell=True)] with
    a child that overruns: the first attempt goes through the shell, the
    re-attempt issues the same string with [shell=False]. *)
Example run_retry_drops_shell :
  map (fun a => (a_cmd a, a_timeout a, a_shell a))
    (run (fun _ => EmptyString) os_hangs
       (__init__ (CmdString "sleep 120")) 1 1 true []).2
  = [(CmdString "sleep 120", 1%Z, true); (CmdString "sleep 120", 1%Z, false)].
Proof. reflexivity. Qed.

End TimedCommand.

(** ** Python scalars, [str()], truth values and [template % mapping] *)

Module Format.
Import Py.

Inductive pyval : Type :=
| PNone
| PBool (b : bool)
| PInt (z : Z)
| PStr (s : string).

(** [str(v)] *)
Definition py_str (v : pyval) : string :=
  match v with
  | PNone => "None"
  | PBool true => "True"
  | PBool false => "False"
  | PInt z => DecimalString.NilZero.string_of_int (Z.to_int z)
  | PStr s => s
  end.

(** [bool(v)], the test of [if v:] *)
Definition truthy (v : pyval) : bool :=
  match v with
  | PNone => false
  | PBool b => b
  | PInt z => negb (Z.eqb z 0)
  | PStr s => negb (String.eqb s EmptyString)
  end.

(** Where the scanner of [%] stands: in plain text, just after a [%],
    inside the parentheses of a key (characters read so far, reversed), or
    after [%(key)] with the value already looked up. *)
Inductive scan : Type :=
| Text
| Percent
| Key (acc : list ascii)
| Conv (v : pyval).

Definition key_of (acc : list ascii) : string :=
  String.string_of_list_ascii (rev acc).

(** [template % mapping] for the conversions the templates of the
    repository use: [%(key)s] and [%%]. The key is looked up as soon as its
    closing parenthesis is read, so a missing key raises [KeyError] before
    anything to its right is examined. *)
Fixpoint format_from (st : scan) (template : string)
    (mapping : gmap string pyval) : result string :=
  match template with
  | EmptyString =>
      match st with
      | Text => Ok EmptyString
      | _ => Raise (ValueError "incomplete format")
      end
  | String a rest =>
      match st with
      | Text =>
          if Ascii.eqb a "%"%char then format_from Percent rest mapping
          else String a <$> format_from Text rest mapping
      | Percent =>
          if Ascii.eqb a "%"%char then String a <$> format_from Text rest mapping
          else if Ascii.eqb a "("%char then format_from (Key []) rest mapping
          else Raise (ValueError "unsupported format character")
      | Key acc =>
          if Ascii.eqb a ")"%char then
            match mapping !! key_of acc with
            | Some v => format_from (Conv v) rest mapping
            | None => Raise (KeyError (key_of acc))
            end
          else format_from (Key (a :: acc)) rest mapping
      | Conv v =>
          if Ascii.eqb a "s"%char
          then String.append (py_str v) <$> format_from Text rest mapping
          else Raise (ValueError "unsupported format character")
      end
  end.

Definition format (template : string) (mapping : gmap string pyval)
  : result string :=
  format_from Text template mapping.

(** The keys a template asks for, in order, up to its first malformed
    conversion; and whether the template has no malformed conversion. *)
Fixpoint keys_from (st : scan) (template : string) : list string :=
  match template with
  | EmptyString => []
  | String a rest =>
      match st with
      | Text =>
          if Ascii.eqb a "%"%char then keys_from Percent rest
          else keys_from Text rest
      | Percent =>
          if Ascii.eqb a "%"%char then keys_from Text rest
          else if Ascii.eqb a "("%char then keys_from (Key []) rest
          else []
      | Key acc =>
          if Ascii.eqb a ")"%char then key_of acc :: keys_from (Conv PNone) rest
          else keys_from (Key (a :: acc)) rest
      | Conv _ => if Ascii.eqb a "s"%char then keys_from Text rest else []
      end
  end.

Fixpoint well_formed_from (st : scan) (template : string) : bool :=
  match template with
  | EmptyString => match st with Text => true | _ => false end
  | String a rest =>
      match st with
      | Text =>
          if Ascii.eqb a "%"%char then well_formed_from Percent rest
          else well_formed_from Text rest
      | Percent =>
          if Ascii.eqb a "%"%char then well_formed_from Text rest
          else if Ascii.eqb a "("%char then well_formed_from (Key []) rest
          else false
      | Key acc =>
          if Ascii.eqb a ")"%char then well_formed_from (Conv PNone) rest
          else well_formed_from (Key (a :: acc)) rest
      | Conv _ => if Ascii.eqb a "s"%char then well_formed_from Text rest else false
      end
  end.

Definition keys (template : string) : list string := keys_from Text template.
Definition well_formed (template : string) : bool :=
  well_formed_from Text template.

Lemma keys_from_Conv (v w : pyval) (template : string) :
  keys_from (Conv v) template = keys_from (Conv w) template.
Proof. by destruct template. Qed.

Lemma well_formed_from_Conv (v w : pyval) (template : string) :
  well_formed_from (Conv v) template = well_formed_from (Conv w) template.
Proof. by destruct template. Qed.

(** A well-formed template whose keys are all in the mapping is rendered. *)
Lemma format_from_ok (mapping : gmap string pyval) (template : string) :
  forall st,
    well_formed_from st template = true ->
    (forall k, k ∈ keys_from st template -> is_Some (mapping !! k)) ->
    exists out, format_from st template mapping = Ok out.
Proof.
  induction template as [|a rest IH]; intros st Hwf Hkeys.
  - destruct st; try discriminate. by exists EmptyString.
  - destruct st as [| |acc|v]; simpl in *.
    + destruct (Ascii.eqb a "%"%char).
      * by apply IH.
      * destruct (IH Text Hwf Hkeys) as [out ->]. by eexists.
    + destruct (Ascii.eqb a "%"%char).
      * destruct (IH Text Hwf Hkeys) as [out ->]. by eexists.
      * destruct (Ascii.eqb a "("%char); [by apply IH|discriminate].
    + destruct (Ascii.eqb a ")"%char).
      * destruct (Hkeys (key_of acc)) as [v Hv]; [by left|].
        rewrite Hv. apply IH.
        -- by rewrite (well_formed_from_Conv v PNone).
        -- intros k Hk. apply Hkeys. right.
           by rewrite (keys_from_Conv PNone v).
      * by apply IH.
    + destruct (Ascii.eqb a "s"%char); [|discriminate].
      destruct (IH Text Hwf Hkeys) as [out ->]. by eexists.
Qed.

(** A missing key makes rendering fail. *)
Lemma format_from_missing (mapping : gmap string pyval) (template : string) :
  forall st k,
    k ∈ keys_from st template -> mapping !! k = None ->
    forall out, format_from st template mapping <> Ok out.
Proof.
  induction template as [|a rest IH]; intros st k Hk Hnone out.
  - by apply elem_of_nil in Hk.
  - destruct st as [| |acc|v]; simpl in *.
    + destruct (Ascii.eqb a "%"%char); [by eapply IH|].
      destruct (format_from Text rest mapping) eqn:E; [|done].
      exfalso. by eapply (IH Text k Hk Hnone).
    + destruct (Ascii.eqb a "%"%char).
      * destruct (format_from Text rest mapping) eqn:E; [|done].
        exfalso. by eapply (IH Text k Hk Hnone).
      * destruct (Ascii.eqb a "("%char); [by eapply IH|].
        by apply elem_of_nil in Hk.
    + destruct (Ascii.eqb a ")"%char); [|by eapply IH].
      destruct (mapping !! key_of acc) as [v|] eqn:Hv; [|done].
      apply elem_of_cons in Hk as [->|Hk]; [congruence|].
      eapply IH; [|done]. by rewrite (keys_from_Conv v PNone).
    + destruct (Ascii.eqb a "s"%char); [|by apply elem_of_nil in Hk].
      destruct (format_from Text rest mapping) eqn:E; [|done].
      exfalso. by eapply (IH Text k Hk Hnone).
Qed.

Lemma format_ok (mapping : gmap string pyval) (template : string) :
  well_formed template = true ->
  (forall k, k ∈ keys template -> is_Some (mapping !! k)) ->
  exists out, format template mapping = Ok out.
Proof. apply format_from_ok. Qed.

Lemma format_missing (mapping : gmap string pyval) (template k : string) :
  k ∈ keys template -> mapping !! k = None ->
  forall out, format template mapping <> Ok out.
Proof. apply format_from_missing. Qed.

End Format.

(** ** openstack/big_patch.py: [PuppetTemplate] *)

Module PuppetTemplate.
Import Py Format.

Definition nl : string := String (Ascii.ascii_of_nat 10) EmptyString.
Definition backslash : ascii := Ascii.ascii_of_nat 92.

(** The class attribute [main_body], character for character. *)
Definition main_body : string := "
$neutron_id = '%(neutron_id)s'
$bigswitch_serverauth = '%(bigswitch_serverauth)s'
$bigswitch_servers = '%(bigswitch_servers)s'
$bond_interfaces = '%(bond_interfaces)s'
$network_vlan_ranges = '%(network_vlan_ranges)s'
$bond_int0 = '%(bond_int0)s'
$bond_int1 = '%(bond_int1)s'
$phy_bridge = '%(physical_bridge)s'
$ovs_bridge_mappings = '%(bridge_mappings)s'
$neutron_restart_refresh_only = '%(neutron_restart_refresh_only)s'
# delay in milliseconds before bond interface is used after coming online
$bond_updelay = '15000'
# time in seconds between lldp transmissions
$lldp_transmit_interval = '5'
$offline_mode = %(offline_mode)s
$bond_mode = %(bond_mode)s
$lldp_advertised_name = '%(lldp_advertised_name)s'
".

(** The dictionary [__init__] starts from. *)
Definition default_settings : gmap string pyval :=
  list_to_map
    [("bond_int0", PStr EmptyString); ("bond_int1", PStr EmptyString);
     ("bond_interfaces", PStr EmptyString);
     ("neutron_id", PStr EmptyString);
     ("bigswitch_servers", PStr EmptyString);
     ("bigswitch_serverauth", PStr EmptyString);
     ("network_vlan_ranges", PStr EmptyString);
     ("physical_bridge", PStr "br-ovs-bond0");
     ("bridge_mappings", PStr EmptyString);
     ("neutron_path", PStr EmptyString);
     ("neutron_restart_refresh_only", PStr EmptyString);
     ("offline_mode", PStr EmptyString); ("bond_mode", PStr EmptyString);
     ("lldp_advertised_name", PStr EmptyString)].

Record PuppetTemplate : Type := {
  settings : gmap string pyval;
  files_to_replace : list (string * string)
}.

(** [for key in settings: self.settings[key] = settings[key]]: the keys
    given override the defaults, the others keep them. *)
Definition __init__ (given : gmap string pyval) : PuppetTemplate :=
  {| settings := given ∪ default_settings; files_to_replace := [] |}.

(** [ptemplate.settings[key] = v] *)
Definition setitem (self : PuppetTemplate) (key : string) (v : pyval)
  : PuppetTemplate :=
  {| settings := <[key := v]> (settings self);
     files_to_replace := files_to_replace self |}.

Definition add_replacement_file (self : PuppetTemplate)
    (path contents : string) : PuppetTemplate :=
  {| settings := settings self;
     files_to_replace := files_to_replace self ++ [(path, contents)] |}.

(** [self.settings[key]] *)
Definition getitem (self : PuppetTemplate) (key : string) : result pyval :=
  match settings self !! key with
  | Some v => Ok v
  | None => Raise (KeyError key)
  end.

(** [s.replace(c, by)] for a one-character [c] *)
Fixpoint replace_char (c : ascii) (by_ : string) (s : string) : string :=
  match s with
  | EmptyString => EmptyString
  | String a rest =>
      if Ascii.eqb a c then String.append by_ (replace_char c by_ rest)
      else String a (replace_char c by_ rest)
  end.

Definition escape (contents : string) : string :=
  replace_char "'"%char (String backslash "'")
    (replace_char backslash (String backslash (String backslash EmptyString))
       contents).

(** The resource appended for one replacement file. *)
Definition file_resource (path contents : string) : string :=
  nl ++ "file {'" ++ path ++ "':" ++ nl ++ "ensure => file,"
  ++ nl ++ "path => '" ++ path ++ "'," ++ nl ++ "mode => 0755,"
  ++ nl ++ "notify => Exec['restartneutronservices'],"
  ++ nl ++ "require => Exec['neutronfilespresent'],"
  ++ nl ++ "content => '" ++ escape contents ++ "'" ++ nl ++ "}".

Section Bodies.

(** The two long template texts of the class, taken as they are. *)
Variable neutron_body : string.
Variable bond_and_lldpd_configuration : string.

Definition get_string (self : PuppetTemplate) : result string :=
  manifest ← format main_body (settings self);
  neutron_path ← getitem self "neutron_path";
  manifest ← (if truthy neutron_path
              then String.append manifest
                     <$> format neutron_body (settings self)
              else Ok manifest);
  bond_interfaces ← getitem self "bond_interfaces";
  let manifest :=
    if truthy bond_interfaces
    then manifest ++ bond_and_lldpd_configuration
    else manifest in
  Ok (fold_left
        (fun manifest file => manifest ++ file_resource file.1 file.2)
        (files_to_replace self) manifest).

Lemma main_body_well_formed : well_formed main_body = true.
Proof. vm_compute. reflexivity. Qed.

Lemma main_body_keys_have_defaults (k : string) :
  k ∈ keys main_body -> is_Some (default_settings !! k).
Proof.
  assert (H : Forall (fun k => is_Some (default_settings !! k))
                (keys main_body)).
  { apply (bool_decide_unpack _). vm_compute. exact I. }
  rewrite Forall_forall in H. apply H.
Qed.

Lemma settings_init_lookup (given : gmap string pyval) (k : string) :
  settings (__init__ given) !! k
  = match given !! k with
    | Some v => Some v
    | None => default_settings !! k
    end.
Proof.
  unfold __init__. cbn [settings].
  generalize default_settings as d. intros d.
  rewrite lookup_union. destruct (given !! k), (d !! k); reflexivity.
Qed.

Lemma init_absorbs_defaults (given : gmap string pyval) :
  __init__ (given ∪ default_settings) = __init__ given.
Proof.
  unfold __init__. generalize default_settings as d. intros d. f_equal.
  apply map_eq. intros k. rewrite !lookup_union.
  destruct (given !! k), (d !! k); reflexivity.
Qed.

(** C4 as amended. Every key the main body asks for has a default in the
    settings [__init__] starts from, so rendering the main body succeeds for
    every input mapping; a key the input omits is rendered with its default
    (rendering is the same as with the defaults written into the input);
    only the bare [%] operator on a mapping without the key fails. *)
Theorem get_string_fills_missing_keys (given : gmap string pyval) :
  (exists out, format main_body (settings (__init__ given)) = Ok out) /\
  (forall k, given !! k = None ->
     settings (__init__ given) !! k = default_settings !! k) /\
  get_string (__init__ given)
    = get_string (__init__ (given ∪ default_settings)) /\
  (forall k, k ∈ keys main_body -> given !! k = None ->
     forall out, format main_body given <> Ok out).
Proof.
  split; [|split; [|split]].
  - apply format_ok; [exact main_body_well_formed|].
    intros k Hk. rewrite settings_init_lookup.
    destruct (given !! k); [by eexists|].
    by apply main_body_keys_have_defaults.
  - intros k Hk. by rewrite settings_init_lookup, Hk.
  - by rewrite init_absorbs_defaults.
  - intros k Hk Hnone out. exact (format_missing given main_body k Hk Hnone out).
Qed.

End Bodies.

(** C4 as stated fails: the empty mapping omits [physical_bridge], which
    the main body asks for, and the template is rendered all the same, with
    the default [br-ovs-bond0] in its place. *)
Lemma get_string_missing_key_not_fatal :
  "physical_bridge" ∈ keys main_body /\
  (∅ : gmap string pyval) !! "physical_bridge" = None /\
  get_string EmptyString EmptyString (__init__ ∅) = Ok "
$neutron_id = ''
$bigswitch_serverauth = ''
$bigswitch_servers = ''
$bond_interfaces = ''
$network_vlan_ranges = ''
$bond_int0 = ''
$bond_int1 = ''
$phy_bridge = 'br-ovs-bond0'
$ovs_bridge_mappings = ''
$neutron_restart_refresh_only = ''
# delay in milliseconds before bond interface is used after coming online
$bond_updelay = '15000'
# time in seconds between lldp transmissions
$lldp_transmit_interval = '5'
$offline_mode = 
$bond_mode = 
$lldp_advertised_name = ''
".
Proof.
  split; [|split].
  - apply (bool_decide_unpack _). vm_compute. exact I.
  - reflexivity.
  - vm_compute. reflexivity.
Qed.

End PuppetTemplate.

(** ** openstack/big_patch.py: [ConfigDeployer] *)

Module ConfigDeployer.
Import Py Format.

(** Maximum number of threads to deploy to nodes concurrently *)
Definition MAX_THREADS : nat := 20.

(** [(package, relative path, url)] triples; the list is empty. *)
Definition PYTHON_FILES_TO_PATCH : list (string * string * string) := [].

(** *** Rendering the manifest in [deploy_to_node] (lines 636-650) *)

Record ConfigDeployer : Type := {
  patch_python_files : bool;
  patch_file_cache : gmap string string
}.

Section Render.

Variable neutron_body : string.
Variable bond_and_lldpd_configuration : string.
Variable os_path_join : string -> string -> string.

(** [self.env.get_node_python_package_path(node, package)] asks the node
    and returns a path, [False] or raises. *)
Variable get_node_python_package_path : string -> result pyval.

Definition patch_one (self : ConfigDeployer)
    (ptemplate : PuppetTemplate.PuppetTemplate)
    (entry : string * string * string)
  : result PuppetTemplate.PuppetTemplate :=
  let '(package, rel_path, url) := entry in
  node_path ← get_node_python_package_path package;
  if negb (truthy node_path) || str_contains "2.6" (py_str node_path)
  then Ok ptemplate
  else
    match patch_file_cache self !! url with
    | None => Raise (KeyError url)
    | Some contents =>
        Ok (PuppetTemplate.add_replacement_file ptemplate
              (os_path_join (py_str node_path) rel_path) contents)
    end.

Fixpoint patch_all (self : ConfigDeployer)
    (ptemplate : PuppetTemplate.PuppetTemplate)
    (entries : list (string * string * string))
  : result PuppetTemplate.PuppetTemplate :=
  match entries with
  | [] => Ok ptemplate
  | entry :: rest =>
      ptemplate ← patch_one self ptemplate entry;
      patch_all self ptemplate rest
  end.

(** [pbody] for the settings computed for a node and the path of its
    neutron package. *)
Definition render_manifest (self : ConfigDeployer)
    (puppet_settings : gmap string pyval) (neutron_path : pyval)
  : result string :=
  let ptemplate := PuppetTemplate.__init__ puppet_settings in
  let ptemplate := PuppetTemplate.setitem ptemplate "neutron_path"
                     neutron_path in
  ptemplate ← (if patch_python_files self
               then patch_all self ptemplate PYTHON_FILES_TO_PATCH
               else Ok ptemplate);
  PuppetTemplate.get_string neutron_body bond_and_lldpd_configuration
    ptemplate.

End Render.

(** *** [deploy_to_all]: one thread per node, at most [MAX_THREADS] alive *)

Definition node : Type := string.

(** How [deploy_to_node] ends for a node: it raises, or returns, having
    appended the neutron connection string of the node or nothing. *)
Inductive outcome : Type :=
| Raised (msg : string)
| Returned (info : option string).

Inductive status : Type :=
| Running
| Finished (o : outcome).

Record thread : Type := { t_node : node; t_status : status }.

(** Where the main thread stands: at the head of [for node in nodes];
    after [t.start()], before the test on the length; in [top.join()]; in
    the [i]-th [thread.join()] of the final loop; or after the report. *)
Inductive control : Type :=
| LoopHead
| Started
| Joining (top : thread)
| FinalJoin (i : nat)
| Done.

(** [joined] is history: the threads popped from the deque and joined. *)
Record state : Type := {
  pending : list node;
  pc : control;
  thread_list : list thread;
  joined : list thread;
  errors : list (node * string);
  node_information : list (node * string);
  printed : list string
}.

Definition initial (nodes : list node) : state :=
  {| pending := nodes; pc := LoopHead; thread_list := []; joined := [];
     errors := []; node_information := []; printed := [] |}.

(** [deploy_to_node_catch_errors]: the exception is caught and
    [(node, str(e))] appended to the error log. *)
Definition deploy_to_node_catch_errors (n : node) (o : outcome)
    (error_log : list (node * string)) : list (node * string) :=
  match o with
  | Raised msg => (error_log ++ [(n, msg)])%list
  | Returned _ => error_log
  end.

Definition collect_information (n : node) (o : outcome)
    (info : list (node * string)) : list (node * string) :=
  match o with
  | Returned (Some conn) => (info ++ [(n, conn)])%list
  | _ => info
  end.

Definition nl : string := String (Ascii.ascii_of_nat 10) EmptyString.

(** What [deploy_to_all] prints once every thread is joined. *)
Definition report (errs info : list (node * string)) : list string :=
  app
    (if Nat.ltb 1 (length (remove_dups (map snd info)))
     then ["Warning: different neutron connection strings detected on "
           ++ "neutron server nodes. They should all reference the same "
           ++ "database." ++ nl ++ "Connections:" ++ nl
           ++ String.concat nl (map (fun ni => ni.1 ++ ": " ++ ni.2) info)]
     else [])
    match errs with
    | [] => ["Deployment Complete!"]
    | _ :: _ =>
        "Encountered errors while deploying patch to nodes."
        :: map (fun ne => "Error on node " ++ ne.1 ++ ":" ++ nl ++ ne.2) errs
    end.

Definition finish (t : thread) (o : outcome) : thread :=
  {| t_node := t_node t; t_status := Finished o |}.

Definition is_running (t : thread) : bool :=
  match t_status t with Running => true | Finished _ => false end.

Definition raised (t : thread) : option (node * string) :=
  match t_status t with
  | Finished (Raised msg) => Some (t_node t, msg)
  | _ => None
  end.

Inductive step : state -> state -> Prop :=
| step_start n rest s :
    pending s = n :: rest -> pc s = LoopHead ->
    step s {| pending := rest; pc := Started;
              thread_list :=
                (thread_list s
                 ++ [{| t_node := n; t_status := Running |}])%list;
              joined := joined s; errors := errors s;
              node_information := node_information s;
              printed := printed s |}
| step_below s :
    pc s = Started -> length (thread_list s) < MAX_THREADS ->
    step s {| pending := pending s; pc := LoopHead;
              thread_list := thread_list s; joined := joined s;
              errors := errors s; node_information := node_information s;
              printed := printed s |}
| step_popleft top rest s :
    pc s = Started -> MAX_THREADS <= length (thread_list s) ->
    thread_list s = top :: rest ->
    step s {| pending := pending s; pc := Joining top;
              thread_list := rest; joined := joined s;
              errors := errors s; node_information := node_information s;
              printed := printed s |}
| step_join top s :
    pc s = Joining top -> is_running top = false ->
    step s {| pending := pending s; pc := LoopHead;
              thread_list := thread_list s;
              joined := (joined s ++ [top])%list;
              errors := errors s; node_information := node_information s;
              printed := printed s |}
| step_loop_end s :
    pending s = [] -> pc s = LoopHead ->
    step s {| pending := []; pc := FinalJoin 0;
              thread_list := thread_list s; joined := joined s;
              errors := errors s; node_information := node_information s;
              printed := printed s |}
| step_final_join i t s :
    pc s = FinalJoin i -> thread_list s !! i = Some t ->
    is_running t = false ->
    step s {| pending := pending s; pc := FinalJoin (S i);
              thread_list := thread_list s; joined := joined s;
              errors := errors s; node_information := node_information s;
              printed := printed s |}
| step_report i s :
    pc s = FinalJoin i -> thread_list s !! i = None ->
    step s {| pending := pending s; pc := Done;
              thread_list := thread_list s; joined := joined s;
              errors := errors s; node_information := node_information s;
              printed :=
                (printed s ++ report (errors s) (node_information s))%list |}
| step_thread_listed before t after o s :
    thread_list s = (before ++ t :: after)%list -> is_running t = true ->
    step s {| pending := pending s; pc := pc s;
              thread_list := (before ++ finish t o :: after)%list;
              joined := joined s;
              errors := deploy_to_node_catch_errors (t_node t) o (errors s);
              node_information :=
                collect_information (t_node t) o (node_information s);
              printed := printed s |}
| step_thread_joining t o s :
    pc s = Joining t -> is_running t = true ->
    step s {| pending := pending s; pc := Joining (finish t o);
              thread_list := thread_list s; joined := joined s;
              errors := deploy_to_node_catch_errors (t_node t) o (errors s);
              node_information :=
                collect_information (t_node t) o (node_information s);
              printed := printed s |}.

Definition reachable (nodes : list node) (s : state) : Prop :=
  rtc step (initial nodes) s.

(** The threads that exist: joined, being joined, and in the deque. *)
Definition joining (s : state) : list thread :=
  match pc s with Joining top => [top] | _ => [] end.

Definition all_threads (s : state) : list thread :=
  (joined s ++ joining s ++ thread_list s)%list.

Definition running_threads (s : state) : nat :=
  length (filter (fun t => is_running t = true) (all_threads s)).

(** *** Invariants of [deploy_to_all] *)

Local Close Scope string_scope.

Definition not_running (t : thread) : Prop := is_running t = false.

Record inv (nodes : list node) (s : state) : Prop := {
  inv_nodes : map t_node (all_threads s) ++ pending s = nodes;
  inv_errors : errors s ≡ₚ omap raised (all_threads s);
  inv_joined : Forall not_running (joined s);
  inv_bound :
    match pc s with
    | Started => length (thread_list s) <= MAX_THREADS
    | _ => length (thread_list s) < MAX_THREADS
    end;
  inv_final :
    match pc s with
    | FinalJoin i =>
        pending s = [] /\ Forall not_running (take i (thread_list s)) /\
        printed s = []
    | Done =>
        pending s = [] /\ Forall not_running (thread_list s) /\
        printed s = report (errors s) (node_information s)
    | _ => printed s = []
    end
}.

Lemma inv_initial (nodes : list node) : inv nodes (initial nodes).
Proof.
  split; simpl; try done.
  unfold MAX_THREADS. lia.
Qed.

Lemma raised_finish (t : thread) (o : outcome) :
  raised (finish t o)
  = match o with Raised msg => Some (t_node t, msg) | Returned _ => None end.
Proof. by destruct o. Qed.

Lemma raised_running (t : thread) : is_running t = true -> raised t = None.
Proof. unfold is_running, raised. by destruct (t_status t). Qed.

Lemma catch_errors_perm (t : thread) (o : outcome)
    (errs : list (node * string)) (before after : list thread) :
  is_running t = true ->
  errs ≡ₚ omap raised (before ++ t :: after) ->
  deploy_to_node_catch_errors (t_node t) o errs
  ≡ₚ omap raised (before ++ finish t o :: after).
Proof.
  intros Hrun Herrs.
  rewrite omap_app in *. simpl in *.
  rewrite raised_finish. rewrite (raised_running t Hrun) in Herrs.
  destruct o as [msg|info]; simpl.
  - rewrite Herrs, (Permutation_app_comm _ [_]). simpl.
    apply Permutation_middle.
  - done.
Qed.

Lemma running_not_in_prefix (t : thread) (before after : list thread)
    (i : nat) :
  is_running t = true ->
  Forall not_running (take i (before ++ t :: after)) ->
  i <= length before.
Proof.
  intros Hrun Hall.
  destruct (decide (i <= length before)) as [|Hgt]; [done|].
  exfalso. rewrite Forall_forall in Hall.
  assert (Hin : t ∈ take i (before ++ t :: after)).
  { apply list_elem_of_lookup. exists (length before).
    rewrite lookup_take_lt by lia.
    by rewrite list_lookup_middle. }
  specialize (Hall t Hin). unfold not_running in Hall. congruence.
Qed.

Ltac use_pc :=
  repeat match goal with
         | H : pc _ = _ |- _ => rewrite H in *; clear H
         end.

Lemma inv_step (nodes : list node) (s s' : state) :
  inv nodes s -> step s s' -> inv nodes s'.
Proof.
  intros [Hnodes Herrs Hjoined Hbound Hfinal] Hstep.
  unfold all_threads, joining in *.
  destruct Hstep as
    [ n rest s Hpend Hpc | s Hpc Hlen | top rest s Hpc Hlen Hlist
    | top s Hpc Hfin | s Hpend Hpc | i t s Hpc Hlook Hfin
    | i s Hpc Hlook | before t after o s Hlist Hrun | t o s Hpc Hrun ].
  - use_pc. split; unfold all_threads, joining; simpl in *; try done.
    + rewrite Hpend in Hnodes. rewrite <- Hnodes.
      rewrite !map_app. simpl. by rewrite <- !app_assoc.
    + rewrite Herrs, !omap_app. simpl. by rewrite app_nil_r.
    + rewrite length_app. simpl. lia.
  - use_pc. split; unfold all_threads, joining; simpl in *; try done; lia.
  - use_pc. rewrite Hlist in *.
    split; unfold all_threads, joining; simpl in *; try done; lia.
  - use_pc. split; unfold all_threads, joining; simpl in *; try done.
    + by rewrite <- app_assoc.
    + by rewrite <- app_assoc.
    + apply Forall_app. split; [done|]. by apply Forall_singleton.
  - use_pc. split; unfold all_threads, joining; simpl in *; try done.
    by rewrite Hpend in Hnodes.
  - use_pc. destruct Hfinal as (Hpend & Hdone & Hprint).
    split; unfold all_threads, joining; simpl in *; try done.
    split; [done|]. split; [|done].
    rewrite (take_S_r _ _ _ Hlook). apply Forall_app.
    split; [done|]. by apply Forall_singleton.
  - use_pc. destruct Hfinal as (Hpend & Hdone & Hprint).
    split; unfold all_threads, joining; simpl in *; try done.
    split; [done|]. split; [|by rewrite Hprint].
    apply lookup_ge_None in Hlook. by rewrite take_ge in Hdone.
  - rewrite Hlist in *.
    split; unfold all_threads, joining; simpl in *.
    + rewrite <- Hnodes. by rewrite !map_app.
    + rewrite !app_assoc in *. by apply catch_errors_perm.
    + done.
    + rewrite length_app in *. simpl in *. by destruct (pc s).
    + destruct (pc s) as [| | top | i |]; try done.
      * destruct Hfinal as (Hpend & Hdone & Hprint).
        split; [done|]. split; [|done].
        pose proof (running_not_in_prefix t before after i Hrun Hdone).
        rewrite take_app_le in * by done. done.
      * destruct Hfinal as (_ & Hdone & _). exfalso.
        apply Forall_app in Hdone as [_ Hdone].
        apply Forall_cons in Hdone as [Hdone _].
        unfold not_running in Hdone. congruence.
  - use_pc. split; unfold all_threads, joining; simpl in *; try done.
    + rewrite <- Hnodes. by rewrite !map_app.
    + by apply catch_errors_perm.
Qed.

Lemma inv_reachable (nodes : list node) (s : state) :
  reachable nodes s -> inv nodes s.
Proof.
  unfold reachable. revert s. apply rtc_ind_r.
  - apply inv_initial.
  - intros y z _ Hstep IH. by eapply inv_step.
Qed.

(** The bound on live threads, used for the pool-size claim below. *)
Lemma running_threads_bound (nodes : list node) (s : state) :
  reachable nodes s -> running_threads s <= MAX_THREADS.
Proof.
  intros [_ _ Hjoined Hbound _]%inv_reachable.
  unfold running_threads, all_threads, joining.
  rewrite !filter_app, !length_app.
  assert (Hnone : filter (fun t => is_running t = true) (joined s) = []).
  { induction Hjoined as [|t l Ht _ IH]; [done|].
    rewrite filter_cons. unfold not_running in Ht.
    destruct (decide (is_running t = true)); [congruence|done]. }
  rewrite Hnone. simpl.
  pose proof (length_filter (fun t => is_running t = true) (thread_list s)).
  destruct (pc s) as [| | top | i |]; simpl; try lia.
  rewrite filter_cons. destruct (decide (is_running top = true)); simpl; lia.
Qed.

(** The main thread or some worker can always move until the report is
    printed. *)
Lemma step_progress (s : state) : pc s <> Done -> exists s', step s s'.
Proof.
  intros Hpc. destruct (pc s) as [| | top | i |] eqn:Epc; [| | | |done].
  - destruct (pending s) as [|n rest] eqn:Ep.
    + eexists. by apply step_loop_end.
    + eexists. by eapply step_start.
  - destruct (lt_dec (length (thread_list s)) MAX_THREADS) as [Hlt|Hge].
    + eexists. by apply step_below.
    + destruct (thread_list s) as [|top rest] eqn:El.
      * simpl in Hge. unfold MAX_THREADS in Hge. lia.
      * eexists. eapply step_popleft; [done| |done]. rewrite El. lia.
  - destruct (is_running top) eqn:Er.
    + eexists. by apply (step_thread_joining top (Returned None)).
    + eexists. by apply step_join.
  - destruct (thread_list s !! i) as [t|] eqn:El.
    + destruct (is_running t) eqn:Er.
      * apply list_elem_of_lookup_2, list_elem_of_split in El
          as (before & after & El).
        eexists. by apply (step_thread_listed before t after (Returned None)).
      * eexists. by eapply step_final_join.
    + eexists. by eapply step_report.
Qed.

Lemma report_lists_errors (errs info : list (node * string)) (n : node)
    (msg : string) :
  (n, msg) ∈ errs ->
  String.append "Error on node "
    (String.append n (String.append ":" (String.append nl msg)))
  ∈ report errs info.
Proof.
  intros Hin. unfold report. apply elem_of_app. right.
  destruct errs as [|e errs]; [by apply elem_of_nil in Hin|].
  apply elem_of_cons. right.
  apply (list_elem_of_fmap_2
           (fun ne => String.append "Error on node "
              (String.append ne.1 (String.append ":"
                 (String.append nl ne.2)))) _ (n, msg)).
  done.
Qed.

(** C7. In every state [deploy_to_all] can reach: while the report is not
    printed some thread can move (a node that failed blocks nothing); the
    error log holds, up to order, exactly one [(node, message)] pair for
    each thread whose [deploy_to_node] raised; and once the report is
    printed there is one finished thread for each configured node, in
    order, and every logged failure is printed with its node and message. *)
Theorem deploy_to_all_isolates_failures (nodes : list node) (s : state) :
  reachable nodes s ->
  (pc s <> Done -> exists s', step s s') /\
  errors s ≡ₚ omap raised (all_threads s) /\
  (pc s = Done ->
     map t_node (all_threads s) = nodes /\
     Forall not_running (all_threads s) /\
     printed s = report (errors s) (node_information s) /\
     forall n msg, (n, msg) ∈ errors s ->
       String.append "Error on node "
         (String.append n (String.append ":" (String.append nl msg)))
       ∈ printed s).
Proof.
  intros [Hnodes Herrs Hjoined Hbound Hfinal]%inv_reachable.
  split; [apply step_progress|]. split; [done|].
  intros Hpc. unfold all_threads, joining in *. rewrite Hpc in *.
  destruct Hfinal as (Hpend & Hdone & Hprint). simpl in *.
  rewrite Hpend, app_nil_r in Hnodes.
  repeat split; try done.
  - by apply Forall_app.
  - intros n msg Hin. rewrite Hprint. by apply report_lists_errors.
Qed.

(** A run over two nodes, the first of which fails. *)
Definition two_nodes_done : state :=
  {| pending := []; pc := Done;
     thread_list :=
       [ {| t_node := "n1"%string;
            t_status := Finished (Raised "boom"%string) |};
         {| t_node := "n2"%string;
            t_status := Finished (Returned None) |} ];
     joined := [];
     errors := [("n1"%string, "boom"%string)];
     node_information := [];
     printed := report [("n1"%string, "boom"%string)] [] |}.

Lemma two_nodes_done_reachable :
  reachable ["n1"%string; "n2"%string] two_nodes_done.
Proof.
  unfold reachable, two_nodes_done.
  eapply rtc_l; [by eapply step_start|]. simpl.
  eapply rtc_l; [apply step_below; [done|simpl; unfold MAX_THREADS; lia]|].
  simpl.
  eapply rtc_l; [by eapply step_start|]. simpl.
  eapply rtc_l; [apply step_below; [done|simpl; unfold MAX_THREADS; lia]|].
  simpl.
  eapply rtc_l; [by apply step_loop_end|]. simpl.
  eapply rtc_l;
    [by eapply (step_thread_listed [] _ _ (Raised "boom"%string))|]. simpl.
  eapply rtc_l; [by eapply (step_final_join 0)|]. simpl.
  eapply rtc_l;
    [by eapply (step_thread_listed [_] _ _ (Returned None))|]. simpl.
  eapply rtc_l; [by eapply (step_final_join 1)|]. simpl.
  eapply rtc_l; [by eapply (step_report 2)|]. simpl.
  apply rtc_refl.
Defined.

Lemma deploy_to_all_isolates_failures_witness :
  reachable ["n1"%string; "n2"%string] two_nodes_done /\
  ((pc two_nodes_done <> Done -> exists s', step two_nodes_done s') /\
   errors two_nodes_done ≡ₚ omap raised (all_threads two_nodes_done) /\
   (pc two_nodes_done = Done ->
      map t_node (all_threads two_nodes_done)
        = ["n1"%string; "n2"%string] /\
      Forall not_running (all_threads two_nodes_done) /\
      printed two_nodes_done
        = report (errors two_nodes_done) (node_information two_nodes_done) /\
      forall n msg, (n, msg) ∈ errors two_nodes_done ->
        String.append "Error on node "
          (String.append n (String.append ":" (String.append nl msg)))
        ∈ printed two_nodes_done)).
Proof.
  split; [exact two_nodes_done_reachable|].
  apply (deploy_to_all_isolates_failures _ _ two_nodes_done_reachable).
Defined.

End ConfigDeployer.

(** ** cloudstack/big_patch.py: nodes and [generate_interface_config] *)

Module InterfaceConfig.
Import Py Format.

Local Open Scope string_scope.

Definition ROLE_MGMT : string := "management".
Definition ROLE_COMPUTE : string := "compute".

(** A value of the parsed YAML configuration: a scalar or a list of
    scalars; a dictionary maps keys to such values. *)
Inductive value : Type :=
| VScalar (v : pyval)
| VList (l : list pyval).

(** [get_raw_value(dic, key)]: [dic[key]], or its first element when it is
    a list. *)
Definition get_raw_value (dic : gmap string value) (key : string)
  : result pyval :=
  match dic !! key with
  | None => Raise (KeyError key)
  | Some (VScalar v) => Ok v
  | Some (VList []) => Raise (IndexError "list index out of range")
  | Some (VList (v :: _)) => Ok v
  end.

(** The attributes [Node.__init__] sets. [management_bond] exists on
    management nodes only; [bridges] is [None] on them. *)
Record Node : Type := {
  hostname : pyval;
  host_name_label : pyval;
  pxe_gw : pyval;
  node_username : pyval;
  node_password : pyval;
  role : pyval;
  mysql_root_pwd : pyval;
  cloud_db_pwd : pyval;
  bond_name : pyval;
  bond_interfaces : list pyval;
  pxe_interface : gmap string value;
  xenserver_pool : pyval;
  management_bond : option (gmap string value);
  bridges : option (list (gmap string value))
}.

(** [v == 'literal'] *)
Definition is_str (v : pyval) (literal : string) : bool :=
  match v with
  | PStr s => String.eqb s literal
  | _ => false
  end.

Definition nl : string := String (Ascii.ascii_of_nat 10) EmptyString.

(** [address = ""; if key in d.keys(): address = get_raw_value(d, key)] *)
Definition raw_or_empty (d : gmap string value) (key : string)
  : result pyval :=
  if bool_decide (is_Some (d !! key))
  then get_raw_value d key
  else Ok (PStr EmptyString).

Definition bond_stanza (bond : pyval) (iface_line : string) : string :=
  "auto " ++ py_str bond ++ nl
  ++ iface_line
  ++ "  bond-mode 0" ++ nl
  ++ "  bond-slaves none" ++ nl
  ++ "  bond-updelay 15000" ++ nl
  ++ "  bond-miimon 50" ++ nl ++ nl.

(** Lines 1528-1552: the PXE interface. *)
Definition pxe_config (node : Node) : result string :=
  pxe_intf ← get_raw_value (pxe_interface node) "interface";
  pxe_inet ← get_raw_value (pxe_interface node) "inet";
  if negb (is_str pxe_inet "static") then
    Ok ("auto " ++ py_str pxe_intf ++ nl
        ++ "  iface " ++ py_str pxe_intf ++ " inet " ++ py_str pxe_inet ++ nl
        ++ "  up route add default gw " ++ py_str (pxe_gw node) ++ nl ++ nl)
  else
    address ← get_raw_value (pxe_interface node) "address";
    netmask ← get_raw_value (pxe_interface node) "netmask";
    dns ← get_raw_value (pxe_interface node) "dns-nameservers";
    Ok ("auto " ++ py_str pxe_intf ++ nl
        ++ "  iface " ++ py_str pxe_intf ++ " inet " ++ py_str pxe_inet ++ nl
        ++ "  address " ++ py_str address ++ nl
        ++ "  netmask " ++ py_str netmask ++ nl
        ++ "  dns-nameservers " ++ py_str dns ++ nl
        ++ "  up route add default gw " ++ py_str (pxe_gw node) ++ nl ++ nl).

(** Lines 1555-1559: one stanza for each bond member. *)
Definition members_config (node : Node) : string :=
  String.concat EmptyString
    (map (fun intf =>
            "auto " ++ py_str intf ++ nl
            ++ "  iface " ++ py_str intf ++ " inet manual" ++ nl
            ++ "  bond-master " ++ py_str (bond_name node) ++ nl ++ nl)
       (bond_interfaces node)).

(** Lines 1561-1620: the bond of a management node. *)
Definition management_config (node : Node) : result string :=
  match management_bond node with
  | None =>
      Raise (AttributeError "'Node' object has no attribute 'management_bond'")
  | Some mgmt_bond =>
      vlan ← get_raw_value mgmt_bond "vlan";
      inet ← get_raw_value mgmt_bond "inet";
      let bond := py_str (bond_name node) in
      let raw :=
        if truthy vlan
        then bond_stanza (bond_name node)
               ("  iface " ++ bond ++ " inet manual" ++ nl)
        else EmptyString in
      addresses ← (if is_str inet "static"
                   then address ← get_raw_value mgmt_bond "address";
                        netmask ← get_raw_value mgmt_bond "netmask";
                        Ok (address, netmask)
                   else Ok (PNone, PNone));
      let '(address, netmask) := addresses in
      let tagged := bond ++ "." ++ py_str vlan in
      Ok (raw ++
          if truthy vlan then
            if negb (is_str inet "static") then
              "auto " ++ tagged ++ nl
              ++ "  iface " ++ tagged ++ " inet " ++ py_str inet ++ nl
              ++ "  vlan-raw-device " ++ bond ++ nl ++ nl
            else
              "auto " ++ tagged ++ nl
              ++ "  iface " ++ tagged ++ " inet " ++ py_str inet ++ nl
              ++ "  vlan-raw-device " ++ bond ++ nl
              ++ "  address " ++ py_str address ++ nl
              ++ "  netmask " ++ py_str netmask ++ nl ++ nl
          else
            if negb (is_str inet "static") then
              bond_stanza (bond_name node)
                ("  iface " ++ bond ++ " inet " ++ py_str inet ++ nl)
            else
              bond_stanza (bond_name node)
                ("  iface " ++ bond ++ " inet " ++ py_str inet ++ nl
                 ++ "  address " ++ py_str address ++ nl
                 ++ "  netmask " ++ py_str netmask ++ nl))
  end.

(** Lines 1630-1678: one bridge of a node that is not a management node. *)
Definition bridge_config (node : Node) (bridge : gmap string value)
  : result string :=
  name ← get_raw_value bridge "name";
  vlan ← get_raw_value bridge "vlan";
  inet ← get_raw_value bridge "inet";
  address ← raw_or_empty bridge "address";
  netmask ← raw_or_empty bridge "netmask";
  gateway ← raw_or_empty bridge "gateway";
  let bond := py_str (bond_name node) in
  let port_name :=
    if truthy vlan then bond ++ "." ++ py_str vlan else bond in
  let tagged :=
    if truthy vlan then
      "auto " ++ port_name ++ nl
      ++ "  iface " ++ port_name ++ " inet manual" ++ nl
      ++ "  vlan-raw-device " ++ bond ++ nl ++ nl
    else EmptyString in
  Ok (tagged ++
      if is_str (role node) ROLE_COMPUTE then
        if negb (is_str inet "static") then
          "auto " ++ py_str name ++ nl
          ++ "  iface " ++ py_str name ++ " inet " ++ py_str inet ++ nl
          ++ "  bridge_ports " ++ port_name ++ nl
          ++ "  bridge_stp off" ++ nl
          ++ "  up /sbin/ifconfig $IFACE up || /bin/true" ++ nl ++ nl
        else
          "auto " ++ py_str name ++ nl
          ++ "  iface " ++ py_str name ++ " inet " ++ py_str inet ++ nl
          ++ "  address " ++ py_str address ++ nl
          ++ "  netmask " ++ py_str netmask ++ nl
          ++ "  gateway " ++ py_str gateway ++ nl
          ++ "  bridge_ports " ++ port_name ++ nl
          ++ "  bridge_stp off" ++ nl
          ++ "  up /sbin/ifconfig $IFACE up || /bin/true" ++ nl ++ nl
      else EmptyString).

Fixpoint bridges_config (node : Node) (bs : list (gmap string value))
  : result string :=
  match bs with
  | [] => Ok EmptyString
  | bridge :: rest =>
      first ← bridge_config node bridge;
      others ← bridges_config node rest;
      Ok (first ++ others)
  end.

(** The text assembled in [config]. *)
Definition interface_config (node : Node) : result string :=
  pxe ← pxe_config node;
  let config :=
    "auto lo" ++ nl ++ "  iface lo inet loopback" ++ nl ++ nl
    ++ pxe ++ members_config node in
  if is_str (role node) ROLE_MGMT then
    mgmt ← management_config node;
    Ok (config ++ mgmt)
  else
    match bridges node with
    | None => Raise (TypeError "'NoneType' object is not iterable")
    | Some bs =>
        rest ← bridges_config node bs;
        Ok (config
            ++ bond_stanza (bond_name node)
                 ("  iface " ++ py_str (bond_name node) ++ " inet manual" ++ nl)
            ++ rest)
    end.

(** The module-level variables [deploy_to_all] assigns, and the files
    written on the control host. *)
Record world : Type := {
  COMPUTE_OS : string;
  MGMT_OS : string;
  MASTER_NODES : list (pyval * Node);
  POOL_SIZES : list (pyval * nat);
  MANAGEMENT_NODE : option Node;
  files : gmap string string
}.

Definition write_file (w : world) (path contents : string) : world :=
  {| COMPUTE_OS := COMPUTE_OS w; MGMT_OS := MGMT_OS w;
     MASTER_NODES := MASTER_NODES w; POOL_SIZES := POOL_SIZES w;
     MANAGEMENT_NODE := MANAGEMENT_NODE w;
     files := <[path := contents]> (files w) |}.

Definition intf_path (node : Node) : string :=
  "/tmp/" ++ py_str (hostname node) ++ ".intf".

(** [generate_interface_config(node)], run in a world: the text is written
    to [/tmp/<hostname>.intf]. *)
Definition generate_interface_config (w : world) (node : Node)
  : result world :=
  config ← interface_config node;
  Ok (write_file w (intf_path node) config).

(** A compute node with a DHCP PXE interface and one tagged bridge. *)
Definition sample_compute : Node :=
  {| hostname := PStr "h1"; host_name_label := PStr EmptyString;
     pxe_gw := PStr "10.0.0.254"; node_username := PStr "bsn";
     node_password := PStr "bsn"; role := PStr "compute";
     mysql_root_pwd := PStr "bsn"; cloud_db_pwd := PStr "bsn";
     bond_name := PStr "bond0"; bond_interfaces := [PStr "eth1"];
     pxe_interface :=
       {[ "interface" := VScalar (PStr "eth0");
          "inet" := VScalar (PStr "dhcp") ]};
     xenserver_pool := PNone; management_bond := None;
     bridges :=
       Some [ {[ "name" := VScalar (PStr "br0"); "vlan" := VScalar (PInt 5);
                 "inet" := VList [PStr "dhcp"] ]} ] |}.

Example interface_config_sample :
  interface_config sample_compute = Ok "auto lo
  iface lo inet loopback

auto eth0
  iface eth0 inet dhcp
  up route add default gw 10.0.0.254

auto eth1
  iface eth1 inet manual
  bond-master bond0

auto bond0
  iface bond0 inet manual
  bond-mode 0
  bond-slaves none
  bond-updelay 15000
  bond-miimon 50

auto bond0.5
  iface bond0.5 inet manual
  vlan-raw-device bond0

auto br0
  iface br0 inet dhcp
  bridge_ports bond0.5
  bridge_stp off
  up /sbin/ifconfig $IFACE up || /bin/true

".
Proof. vm_compute. reflexivity. Qed.

End InterfaceConfig.

(** ** cloudstack/big_patch.py: [deploy_to_all] *)

Module CloudStack.
Import Py Format InterfaceConfig.

Local Close Scope string_scope.

(** Maximum number of workers to deploy to nodes concurrently *)
Definition MAX_WORKERS : nat := 10.

Definition LOG_FILENAME : string := "/var/log/cloudstack_deploy.log".
Definition CS_VERSION : string := "4.5.0".
Definition CS_COMMON : string :=
  "cloudstack-common_" +:+ CS_VERSION +:+ "-snapshot_all.deb".
Definition CS_MGMT : string :=
  "cloudstack-management_" +:+ CS_VERSION +:+ "-snapshot_all.deb".
Definition CS_AGENT : string :=
  "cloudstack-agent_" +:+ CS_VERSION +:+ "-snapshot_all.deb".
Definition CS_COMMON_RPM : string :=
  "cloudstack-common-" +:+ CS_VERSION +:+ "-SNAPSHOT.el6.x86_64.rpm".
Definition CS_MGMT_RPM : string :=
  "cloudstack-management-" +:+ CS_VERSION +:+ "-SNAPSHOT.el6.x86_64.rpm".
Definition CS_AWSAPI_RPM : string :=
  "cloudstack-awsapi-" +:+ CS_VERSION +:+ "-SNAPSHOT.el6.x86_64.rpm".
Definition CS_AGENT_RPM : string :=
  "cloudstack-agent-" +:+ CS_VERSION +:+ "-SNAPSHOT.el6.x86_64.rpm".

(** *** The seven queues *)

(** Named as in the source, in the order their workers are started:
    step 1 setup, step 2 join cluster, step 3 assign ip, step 4 change
    management interface, step 5 reboot masters, step 6 reboot slaves,
    step 7 check bonds. *)
Inductive queue : Type :=
| node_q
| xen_slave_node_q
| xen_master_node_q
| node_mgmtintf_q
| xen_master_node_reboot_q
| xen_slave_node_reboot_q
| xen_check_bond_q.

#[global] Instance queue_eq_dec : EqDecision queue.
Proof. solve_decision. Defined.

Definition all_queues : list queue :=
  [node_q; xen_slave_node_q; xen_master_node_q; node_mgmtintf_q;
   xen_master_node_reboot_q; xen_slave_node_reboot_q; xen_check_bond_q].

Definition step_number (q : queue) : nat :=
  match q with
  | node_q => 1
  | xen_slave_node_q => 2
  | xen_master_node_q => 3
  | node_mgmtintf_q => 4
  | xen_master_node_reboot_q => 5
  | xen_slave_node_reboot_q => 6
  | xen_check_bond_q => 7
  end.

(** [Queue.Queue]: the items waiting, and the count [join] waits on,
    raised by [put] and lowered by [task_done]. *)
Record Queue : Type := { items : list Node; unfinished_tasks : nat }.

Definition empty_queue : Queue := {| items := []; unfinished_tasks := 0 |}.

Definition put (n : Node) (q : Queue) : Queue :=
  {| items := items q ++ [n]; unfinished_tasks := S (unfinished_tasks q) |}.

Definition update (q : queue) (v : Queue) (qs : queue -> Queue)
  : queue -> Queue :=
  fun q' => if decide (q' = q) then v else qs q'.

Definition put_on (q : queue) (n : Node) (qs : queue -> Queue)
  : queue -> Queue :=
  update q (put n (qs q)) qs.

(** *** The loop over the configured nodes (lines 2301-2354) *)

(** [a == b] on scalars; [True] and [False] compare as [1] and [0]. *)
Definition py_eqb (a b : pyval) : bool :=
  match a, b with
  | PNone, PNone => true
  | PStr s, PStr t => String.eqb s t
  | PInt x, PInt y => Z.eqb x y
  | PBool x, PBool y => Bool.eqb x y
  | PBool x, PInt y | PInt y, PBool x => Z.eqb (Z.b2z x) y
  | _, _ => false
  end.

Definition in_keys {V : Type} (k : pyval) (d : list (pyval * V)) : bool :=
  existsb (fun kv => py_eqb kv.1 k) d.

Fixpoint dict_set {V : Type} (k : pyval) (v : V) (d : list (pyval * V))
  : list (pyval * V) :=
  match d with
  | [] => [(k, v)]
  | kv :: rest =>
      if py_eqb kv.1 k then (kv.1, v) :: rest else kv :: dict_set k v rest
  end.

Fixpoint dict_get {V : Type} (k : pyval) (default : V)
    (d : list (pyval * V)) : V :=
  match d with
  | [] => default
  | kv :: rest => if py_eqb kv.1 k then kv.2 else dict_get k default rest
  end.

(** The script while it runs the loop: its globals, the queues, the
    commands it has run on the control host through [run_command_on_local]
    and the messages it has printed through [safe_print]. What the commands
    themselves write, which [run_command_on_local] echoes line by line, is
    not part of the messages. *)
Record setup : Type := {
  globals : world;
  queues0 : queue -> Queue;
  commands0 : list string;
  printed0 : list string
}.

Definition set_management (w : world) (n : Node) : world :=
  {| COMPUTE_OS := COMPUTE_OS w; MGMT_OS := MGMT_OS w;
     MASTER_NODES := MASTER_NODES w; POOL_SIZES := POOL_SIZES w;
     MANAGEMENT_NODE := Some n; files := files w |}.

Definition set_pools (w : world) (masters : list (pyval * Node))
    (sizes : list (pyval * nat)) : world :=
  {| COMPUTE_OS := COMPUTE_OS w; MGMT_OS := MGMT_OS w;
     MASTER_NODES := masters; POOL_SIZES := sizes;
     MANAGEMENT_NODE := MANAGEMENT_NODE w; files := files w |}.

Definition set_files (w : world) (fs : gmap string string) : world :=
  {| COMPUTE_OS := COMPUTE_OS w; MGMT_OS := MGMT_OS w;
     MASTER_NODES := MASTER_NODES w; POOL_SIZES := POOL_SIZES w;
     MANAGEMENT_NODE := MANAGEMENT_NODE w; files := fs |}.

Section Deploy.

(** [generate_command_for_node(node)] writes the scripts of the node on
    the control host, or raises. *)
Variable generate_command_for_node : world -> Node -> result (gmap string string).

(** [os.path.isfile] on the control host when the guards are evaluated. *)
Variable isfile : string -> bool.

(** The message printed for the first compute node of a XenServer pool. *)
Definition master_line (node : Node) : string :=
  "Master node of xenserver pool " +:+ py_str (xenserver_pool node)
  +:+ " is: " +:+ py_str (hostname node) +:+ nl.

(** One iteration of [for node_config in config['nodes']], from
    [node = Node(node_config)] on. *)
Definition enqueue_node (st : setup) (node : Node) : result setup :=
  let w := globals st in
  let cmds :=
    commands0 st
    ++ ["sudo rm -rf /tmp/" +:+ py_str (hostname node) +:+ "*"] in
  let '(w, qs) :=
    if is_str (role node) "management"
    then (set_management w node, queues0 st)
    else (w, put_on xen_check_bond_q node
               (put_on node_mgmtintf_q node
                  (put_on node_q node (queues0 st)))) in
  let xen_compute :=
    String.eqb (COMPUTE_OS w) "xenserver" && is_str (role node) "compute" in
  let '(w, qs, out) :=
    if xen_compute && negb (in_keys (xenserver_pool node) (MASTER_NODES w))
    then (set_pools w
            (dict_set (xenserver_pool node) node (MASTER_NODES w))
            (dict_set (xenserver_pool node) 1 (POOL_SIZES w)),
          put_on xen_master_node_reboot_q node
            (put_on xen_master_node_q node qs),
          printed0 st ++ [master_line node])
    else if xen_compute
    then (set_pools w (MASTER_NODES w)
            (dict_set (xenserver_pool node)
               (dict_get (xenserver_pool node) 1 (POOL_SIZES w) + 1)
               (POOL_SIZES w)),
          put_on xen_slave_node_reboot_q node
            (put_on xen_slave_node_q node qs),
          printed0 st)
    else (w, qs, printed0 st) in
  fs ← generate_command_for_node w node;
  Ok {| globals := set_files w fs; queues0 := qs; commands0 := cmds;
        printed0 := out |}.

Fixpoint enqueue_all (st : setup) (nodes : list Node) : result setup :=
  match nodes with
  | [] => Ok st
  | node :: rest =>
      st ← enqueue_node st node;
      enqueue_all st rest
  end.

(** The command run before the loop. *)
Definition prepare_packages : string :=
  "sudo mkdir -p /tmp;sudo rm -f /tmp/*.deb;sudo rm -f /tmp/*.sh;"
  +:+ String.concat ";"
        (map (fun p => "sudo cp " +:+ p +:+ " /tmp/ >> " +:+ LOG_FILENAME
                       +:+ " 2>&1")
           [CS_COMMON; CS_MGMT; CS_AGENT; CS_COMMON_RPM; CS_MGMT_RPM;
            CS_AGENT_RPM; CS_AWSAPI_RPM]).

(** The module as loaded (no management node, no pools, empty queues),
    after the first message and the first command of [deploy_to_all]. *)
Definition fresh (compute_os mgmt_os : string) : setup :=
  {| globals := {| COMPUTE_OS := compute_os; MGMT_OS := mgmt_os;
                   MASTER_NODES := []; POOL_SIZES := [];
                   MANAGEMENT_NODE := None; files := ∅ |};
     queues0 := fun _ => empty_queue;
     commands0 := [prepare_packages];
     printed0 := ["Prepare cloud stack packages" +:+ nl] |}.

(** *** The guards (lines 2377-2391) *)

Definition in_tmp (package : string) : bool := isfile ("/tmp/" +:+ package).

Definition has_management (w : world) : bool :=
  match MANAGEMENT_NODE w with Some _ => true | None => false end.

Definition preflight (st : setup) : option string :=
  let w := globals st in
  if (has_management w || negb (String.eqb (COMPUTE_OS w) "xenserver"))
     && negb (in_tmp CS_COMMON_RPM) && negb (in_tmp CS_COMMON)
  then Some ("cloudstack common package is missing" +:+ nl)
  else if has_management w
          && negb (in_tmp CS_MGMT_RPM) && negb (in_tmp CS_MGMT)
  then Some ("cloudstack management package is missing" +:+ nl)
  else if String.eqb (COMPUTE_OS w) "ubuntu"
          && Nat.ltb 0 (length (items (queues0 st node_q)))
          && negb (in_tmp CS_AGENT)
  then Some ("cloudstack agent package is missing" +:+ nl)
  else if String.eqb (COMPUTE_OS w) "centos"
          && Nat.ltb 0 (length (items (queues0 st node_q)))
          && negb (in_tmp CS_AGENT_RPM)
  then Some ("cloudstack agent package is missing" +:+ nl)
  else if String.eqb (MGMT_OS w) "centos" && has_management w
          && negb (in_tmp CS_AWSAPI_RPM)
  then Some ("cloudstack awsapi package is missing" +:+ nl)
  else None.

(** *** The packages a node needs *)

Definition packages : list string :=
  [CS_COMMON; CS_MGMT; CS_AGENT; CS_COMMON_RPM; CS_MGMT_RPM; CS_AGENT_RPM;
   CS_AWSAPI_RPM].






(** *** What the main thread does after the guards (lines 2393-2479) *)

Inductive instr : Type :=
| IStartManagement
| IStartWorker (q : queue)
| IJoinQueue (q : queue)
| IJoinManagement
| IStartReboot
| IJoinReboot
| IPrint (msg : string)
| ISleep (seconds : nat).

(** [for i in range(MAX_WORKERS): ... t.start()], then [q.join()] and the
    message of the step. *)
Definition phase (q : queue) (msg : string) : list instr :=
  repeat (IStartWorker q) MAX_WORKERS ++ [IJoinQueue q; IPrint msg].

Definition finish_management : list instr :=
  [IJoinManagement;
   IPrint ("Finish deploying management node" +:+ nl);
   IPrint ("CloudStack deployment finished" +:+ nl);
   IStartReboot; IJoinReboot].

Definition ending (has_mgmt : bool) : list instr :=
  if has_mgmt then finish_management
  else [IPrint ("CloudStack deployment finished" +:+ nl)].

Definition main_program (compute_os : string) (has_mgmt : bool)
  : list instr :=
  (if has_mgmt then [IStartManagement] else [])
  ++ repeat (IStartWorker node_q) MAX_WORKERS ++ [IJoinQueue node_q]
  ++ if String.eqb compute_os "ubuntu" || String.eqb compute_os "centos"
     then ending has_mgmt
     else
       [IPrint ("Finish step 1: setup xen master" +:+ nl)]
       ++ phase xen_slave_node_q ("Finish step 2: join cluster" +:+ nl)
       ++ phase xen_master_node_q
            ("Finish step 3: assign ip to bond interfaces" +:+ nl)
       ++ phase node_mgmtintf_q
            ("Finish step 4: change management interfaces" +:+ nl)
       ++ phase xen_master_node_reboot_q
            ("Finish step 5: reboot xen masters" +:+ nl)
       ++ [ISleep 60]
       ++ phase xen_slave_node_reboot_q
            ("Finish step 6: reboot xen slaves" +:+ nl)
       ++ phase xen_check_bond_q
            ("Finish step 7: verify bonds on all xen servers. Check "
             +:+ LOG_FILENAME +:+ " for result." +:+ nl)
       ++ ending has_mgmt.

(** *** Threads *)

(** A worker of a queue loops: blocked in or about to call [get()]; or
    holding a node, its command running, [task_done()] not yet called; or
    dead of the [ValueError] of a [task_done()] too many. The worker of
    step 7, [worker_check_bond], also prints: holding a node it is first
    about to print that it starts, and after [task_done()] it is about to
    print that it has finished, before it calls [get()] again. *)
Inductive wstate : Type :=
| Idle
| Busy (n : Node)
| Crashed
| Announcing (n : Node)
| Reporting (n : Node).

Record worker : Type := { w_queue : queue; w_state : wstate }.

(** The thread of [worker_setup_management], and that of
    [worker_reboot_management]. *)
Inductive tstate : Type :=
| NotStarted
| Running
| Finished.

Inductive event : Type :=
| Begin (q : queue) (n : Node)
| Complete (q : queue) (n : Node)
| BeginManagement
| CompleteManagement
| BeginReboot
| CompleteReboot.

(** What the main thread has waited for. *)
Inductive token : Type :=
| JQueue (q : queue)
| JManagement.

(** [output] holds the messages the script prints through [safe_print], in
    the order in which they are written; [log] and [joined] are history. *)
Record state : Type := {
  prog : list instr;
  queues : queue -> Queue;
  workers : list worker;
  management : tstate;
  reboot : tstate;
  output : list string;
  commands : list string;
  log : list event;
  joined : list token
}.

Definition launch (st : setup) (p : list instr) (out : list string)
  : state :=
  {| prog := p; queues := queues0 st; workers := [];
     management := NotStarted; reboot := NotStarted;
     output := printed0 st ++ out;
     commands := commands0 st; log := []; joined := [] |}.

(** [deploy_to_all] up to the point where threads may start: the state in
    which the main thread goes on, or the exception of the loop. When a
    guard fires the main thread has nothing left to do. *)
Definition deploy_to_all (compute_os mgmt_os : string) (nodes : list Node)
  : result state :=
  st ← enqueue_all (fresh compute_os mgmt_os) nodes;
  match preflight st with
  | Some msg => Ok (launch st [] [msg])
  | None =>
      Ok (launch st
            (main_program (COMPUTE_OS (globals st))
               (has_management (globals st))) [])
  end.

End Deploy.

(** *** The interleavings of the main thread and its threads *)

Definition idle_on (q : queue) : worker := {| w_queue := q; w_state := Idle |}.
Definition busy_on (q : queue) (n : Node) : worker :=
  {| w_queue := q; w_state := Busy n |}.
Definition crashed_on (q : queue) : worker :=
  {| w_queue := q; w_state := Crashed |}.
Definition announcing_on (q : queue) (n : Node) : worker :=
  {| w_queue := q; w_state := Announcing n |}.
Definition reporting_on (q : queue) (n : Node) : worker :=
  {| w_queue := q; w_state := Reporting n |}.

(** [worker_check_bond] is the one worker that prints. *)
Definition prints (q : queue) : bool := bool_decide (q = xen_check_bond_q).

(** A worker that returns from [get()] with the node [n], and a worker
    that returns from [task_done()]. *)
Definition taken (q : queue) (n : Node) : worker :=
  if prints q then announcing_on q n else busy_on q n.

Definition released (q : queue) (n : Node) : worker :=
  if prints q then reporting_on q n else idle_on q.

Definition start_line (n : Node) : string :=
  "start to check bond on " +:+ py_str (hostname n) +:+ nl.

Definition finish_line (n : Node) : string :=
  "finish checking bond on " +:+ py_str (hostname n) +:+ nl.

(** [q.get()] and [q.task_done()] on the queue [q]. *)
Definition got (q : queue) (rest : list Node) (qs : queue -> Queue)
  : queue -> Queue :=
  update q {| items := rest; unfinished_tasks := unfinished_tasks (qs q) |} qs.

Definition acknowledged (q : queue) (k : nat) (qs : queue -> Queue)
  : queue -> Queue :=
  update q {| items := items (qs q); unfinished_tasks := k |} qs.

Inductive step : state -> state -> Prop :=
| step_start_management rest s :
    prog s = IStartManagement :: rest ->
    step s {| prog := rest; queues := queues s; workers := workers s;
              management := Running; reboot := reboot s;
              output := output s; commands := commands s;
              log := log s ++ [BeginManagement]; joined := joined s |}
| step_start_worker q rest s :
    prog s = IStartWorker q :: rest ->
    step s {| prog := rest; queues := queues s;
              workers := workers s ++ [idle_on q];
              management := management s; reboot := reboot s;
              output := output s; commands := commands s;
              log := log s; joined := joined s |}
| step_join_queue q rest s :
    prog s = IJoinQueue q :: rest ->
    unfinished_tasks (queues s q) = 0 ->
    step s {| prog := rest; queues := queues s; workers := workers s;
              management := management s; reboot := reboot s;
              output := output s; commands := commands s;
              log := log s; joined := joined s ++ [JQueue q] |}
| step_join_management rest s :
    prog s = IJoinManagement :: rest ->
    management s = Finished ->
    step s {| prog := rest; queues := queues s; workers := workers s;
              management := management s; reboot := reboot s;
              output := output s; commands := commands s;
              log := log s; joined := joined s ++ [JManagement] |}
| step_start_reboot rest s :
    prog s = IStartReboot :: rest ->
    step s {| prog := rest; queues := queues s; workers := workers s;
              management := management s; reboot := Running;
              output := output s; commands := commands s;
              log := log s ++ [BeginReboot]; joined := joined s |}
| step_join_reboot rest s :
    prog s = IJoinReboot :: rest ->
    reboot s = Finished ->
    step s {| prog := rest; queues := queues s; workers := workers s;
              management := management s; reboot := reboot s;
              output := output s; commands := commands s;
              log := log s; joined := joined s |}
| step_print msg rest s :
    prog s = IPrint msg :: rest ->
    step s {| prog := rest; queues := queues s; workers := workers s;
              management := management s; reboot := reboot s;
              output := output s ++ [msg]; commands := commands s;
              log := log s; joined := joined s |}
| step_sleep seconds rest s :
    prog s = ISleep seconds :: rest ->
    step s {| prog := rest; queues := queues s; workers := workers s;
              management := management s; reboot := reboot s;
              output := output s; commands := commands s;
              log := log s; joined := joined s |}
| step_get q n rest before after s :
    workers s = before ++ idle_on q :: after ->
    items (queues s q) = n :: rest ->
    step s {| prog := prog s; queues := got q rest (queues s);
              workers := before ++ taken q n :: after;
              management := management s; reboot := reboot s;
              output := output s; commands := commands s;
              log := log s ++ [Begin q n]; joined := joined s |}
| step_task_done q n k before after s :
    workers s = before ++ busy_on q n :: after ->
    unfinished_tasks (queues s q) = S k ->
    step s {| prog := prog s; queues := acknowledged q k (queues s);
              workers := before ++ released q n :: after;
              management := management s; reboot := reboot s;
              output := output s; commands := commands s;
              log := log s ++ [Complete q n]; joined := joined s |}
| step_task_done_error q n before after s :
    workers s = before ++ busy_on q n :: after ->
    unfinished_tasks (queues s q) = 0 ->
    step s {| prog := prog s; queues := queues s;
              workers := before ++ crashed_on q :: after;
              management := management s; reboot := reboot s;
              output := output s; commands := commands s;
              log := log s ++ [Complete q n]; joined := joined s |}
| step_management_done s :
    management s = Running ->
    step s {| prog := prog s; queues := queues s; workers := workers s;
              management := Finished; reboot := reboot s;
              output := output s; commands := commands s;
              log := log s ++ [CompleteManagement]; joined := joined s |}
| step_reboot_done s :
    reboot s = Running ->
    step s {| prog := prog s; queues := queues s; workers := workers s;
              management := management s; reboot := Finished;
              output := output s; commands := commands s;
              log := log s ++ [CompleteReboot]; joined := joined s |}
| step_announce q n before after s :
    workers s = before ++ announcing_on q n :: after ->
    step s {| prog := prog s; queues := queues s;
              workers := before ++ busy_on q n :: after;
              management := management s; reboot := reboot s;
              output := output s ++ [start_line n]; commands := commands s;
              log := log s; joined := joined s |}
| step_report q n before after s :
    workers s = before ++ reporting_on q n :: after ->
    step s {| prog := prog s; queues := queues s;
              workers := before ++ idle_on q :: after;
              management := management s; reboot := reboot s;
              output := output s ++ [finish_line n]; commands := commands s;
              log := log s; joined := joined s |}.

(** What the log and the workers say about a queue. *)
Definition holding (q : queue) (w : worker) : option Node :=
  match w_state w with
  | Busy n | Announcing n => if decide (w_queue w = q) then Some n else None
  | _ => None
  end.

Definition holders (q : queue) (ws : list worker) : list Node :=
  omap (holding q) ws.

Definition completion (q : queue) (e : event) : option Node :=
  match e with
  | Complete q' n => if decide (q' = q) then Some n else None
  | _ => None
  end.

Definition completed (q : queue) (l : list event) : list Node :=
  omap (completion q) l.

Definition beginning (q : queue) (e : event) : option Node :=
  match e with
  | Begin q' n => if decide (q' = q) then Some n else None
  | _ => None
  end.

Definition begun (q : queue) (l : list event) : list Node :=
  omap (beginning q) l.

Definition workers_of (q : queue) (s : state) : list worker :=
  filter (fun w => w_queue w = q) (workers s).

Definition is_busy (w : worker) : bool :=
  match w_state w with Busy _ | Announcing _ => true | _ => false end.

Definition busy_workers (s : state) : list worker :=
  filter (fun w => is_busy w = true) (workers s).

(** *** The order of the program: what is joined before what is started *)

#[global] Instance token_eq_dec : EqDecision token.
Proof. solve_decision. Defined.

#[global] Instance instr_eq_dec : EqDecision instr.
Proof. solve_decision. Defined.

(** [ordered spawned joined rebooted p]: running [p] after workers were
    started for the queues [spawned] and the waits [joined] returned,
    workers of a step are started only when the queues of all earlier
    steps are joined, the management thread is started before it is
    joined, and the reboot thread is started last, after the management
    thread and every queue that has workers are joined. *)
Fixpoint ordered (spawned : list queue) (joined : list token)
    (rebooted : bool) (p : list instr) : bool :=
  match p with
  | [] => true
  | IStartManagement :: r =>
      negb (bool_decide (JManagement ∈ joined)) && negb rebooted
      && ordered spawned joined rebooted r
  | IStartWorker q :: r =>
      negb rebooted
      && forallb (fun p => (step_number q <=? step_number p)
                           || bool_decide (JQueue p ∈ joined)) all_queues
      && ordered (spawned ++ [q]) joined rebooted r
  | IJoinQueue q :: r => ordered spawned (joined ++ [JQueue q]) rebooted r
  | IJoinManagement :: r =>
      ordered spawned (joined ++ [JManagement]) rebooted r
  | IStartReboot :: r =>
      bool_decide (JManagement ∈ joined)
      && forallb (fun q => bool_decide (JQueue q ∈ joined)) spawned
      && ordered spawned joined true r
  | _ :: r => ordered spawned joined rebooted r
  end.

Lemma main_program_ordered (compute_os : string) (has_mgmt : bool) :
  ordered [] [] false (main_program compute_os has_mgmt) = true.
Proof.
  unfold main_program.
  destruct (String.eqb compute_os "ubuntu" || String.eqb compute_os "centos"),
    has_mgmt; vm_compute; reflexivity.
Qed.

Lemma in_all_queues (q : queue) : In q all_queues.
Proof. destruct q; simpl; tauto. Qed.

Definition spawned (s : state) : list queue := map w_queue (workers s).

Definition rebooted (s : state) : bool :=
  match reboot s with NotStarted => false | _ => true end.

Record sequenced (s : state) : Prop := {
  seq_joined_queue : forall q,
    JQueue q ∈ joined s -> unfinished_tasks (queues s q) = 0;
  seq_joined_management :
    JManagement ∈ joined s -> management s = Finished;
  seq_ordered : ordered (spawned s) (joined s) (rebooted s) (prog s) = true;
  seq_workers : forall q p,
    q ∈ spawned s -> step_number p < step_number q -> JQueue p ∈ joined s;
  seq_reboot :
    rebooted s = true ->
    JManagement ∈ joined s /\ forall q, q ∈ spawned s -> JQueue q ∈ joined s;
  seq_begun : forall q n, Begin q n ∈ log s -> q ∈ spawned s
}.

Lemma update_same (q : queue) (v : Queue) (qs : queue -> Queue) :
  update q v qs q = v.
Proof. unfold update. by rewrite decide_True. Qed.

Lemma update_other (q q' : queue) (v : Queue) (qs : queue -> Queue) :
  q' <> q -> update q v qs q' = qs q'.
Proof. intros. unfold update. by rewrite decide_False. Qed.

Lemma begin_in_snoc (q : queue) (n : Node) (l : list event) (e : event) :
  Begin q n ∈ l ++ [e] -> Begin q n ∈ l \/ e = Begin q n.
Proof.
  intros [H|H]%elem_of_app; [by left|].
  apply list_elem_of_singleton in H. by right.
Qed.

Ltac split_andb H :=
  repeat match type of H with
         | (_ && _ = true) =>
             let H' := fresh "Hchk" in
             apply andb_true_iff in H as [H H']
         end.

Lemma taken_queue (q : queue) (n : Node) : w_queue (taken q n) = q.
Proof. unfold taken. by destruct (prints q). Qed.

Lemma released_queue (q : queue) (n : Node) : w_queue (released q n) = q.
Proof. unfold released. by destruct (prints q). Qed.

(** A step of a worker leaves the queue it serves as it is. *)
Lemma spawned_middle (w w' : worker) (before after : list worker) :
  w_queue w' = w_queue w ->
  map w_queue (before ++ w' :: after) = map w_queue (before ++ w :: after).
Proof. intros H. rewrite !map_app. simpl. by rewrite H. Qed.

Lemma sequenced_step (s s' : state) :
  sequenced s -> step s s' -> sequenced s'.
Proof.
  intros [Hjq Hjm Hord Hw Hrb Hbegun] Hstep.
  unfold spawned, rebooted in *.
  destruct Hstep as
    [ rest s Hp | q rest s Hp | q rest s Hp Hzero | rest s Hp Hfin
    | rest s Hp | rest s Hp Hfin | msg rest s Hp | secs rest s Hp
    | q n rest before after s Hws Hitems
    | q n k before after s Hws Hcount
    | q n before after s Hws Hcount
    | s Hrun | s Hrun
    | q n before after s Hws | q n before after s Hws ];
    try (rewrite Hp in Hord; cbn [ordered] in Hord).
  - (* start management *)
    apply andb_true_iff in Hord as [Hord Hrest].
    apply andb_true_iff in Hord as [Hnotin Hnoreb].
    split; unfold spawned, rebooted; simpl; try done.
    + intros Hin. apply negb_true_iff, bool_decide_eq_false in Hnotin. done.
    + intros q n [Hin|Heq]%begin_in_snoc; [by eapply Hbegun|done].
  - (* start worker *)
    apply andb_true_iff in Hord as [Hord Hrest].
    apply andb_true_iff in Hord as [Hnoreb Hchk].
    split; unfold spawned, rebooted; simpl; try done.
    + by rewrite map_app.
    + intros q0 p. rewrite map_app. simpl.
      intros [Hin|Hin]%elem_of_app Hlt; [by eapply Hw|].
      apply list_elem_of_singleton in Hin. subst q0.
      rewrite forallb_forall in Hchk.
      specialize (Hchk p (in_all_queues p)).
      apply orb_true_iff in Hchk as [Hle|Hin].
      * apply Nat.leb_le in Hle. lia.
      * by apply bool_decide_eq_true in Hin.
    + intros Hreb. rewrite Hreb in Hnoreb. done.
    + intros q0 n Hin. rewrite map_app. apply elem_of_app. left.
      by eapply Hbegun.
  - (* join queue *)
    split; unfold spawned, rebooted; simpl; try done.
    + intros q0 [Hin|Hin]%elem_of_app; [by apply Hjq|].
      apply list_elem_of_singleton in Hin. by injection Hin as ->.
    + intros [Hin|Hin]%elem_of_app; [by apply Hjm|].
      by apply list_elem_of_singleton in Hin.
    + intros q0 p Hin Hlt. apply elem_of_app. left. by eapply Hw.
    + intros Hreb. destruct (Hrb Hreb) as [Hm Hq]. split.
      * apply elem_of_app. by left.
      * intros q0 Hin. apply elem_of_app. left. by apply Hq.
  - (* join management *)
    split; unfold spawned, rebooted; simpl; try done.
    + intros q0 [Hin|Hin]%elem_of_app; [by apply Hjq|].
      by apply list_elem_of_singleton in Hin.
    + intros q0 p Hin Hlt. apply elem_of_app. left. by eapply Hw.
    + intros Hreb. destruct (Hrb Hreb) as [Hm Hq]. split.
      * apply elem_of_app. by left.
      * intros q0 Hin. apply elem_of_app. left. by apply Hq.
  - (* start reboot *)
    apply andb_true_iff in Hord as [Hord Hrest].
    apply andb_true_iff in Hord as [Hmgmt Hchk].
    split; unfold spawned, rebooted; simpl; try done.
    + intros _. split.
      * by apply bool_decide_eq_true in Hmgmt.
      * intros q0 Hin. rewrite forallb_forall in Hchk.
        apply list_elem_of_In in Hin.
        specialize (Hchk q0 Hin). by apply bool_decide_eq_true in Hchk.
    + intros q n [Hin|Heq]%begin_in_snoc; [by eapply Hbegun|done].
  - split; unfold spawned, rebooted; simpl; done.
  - split; unfold spawned, rebooted; simpl; done.
  - split; unfold spawned, rebooted; simpl; done.
  - (* get *)
    rewrite Hws in *.
    assert (Hsp : map w_queue (before ++ taken q n :: after)
                  = map w_queue (before ++ idle_on q :: after))
      by (apply spawned_middle, taken_queue).
    split; unfold spawned, rebooted; simpl; rewrite ?Hsp; try done.
    + intros q0 Hin. unfold got.
      destruct (decide (q0 = q)) as [->|Hne].
      * rewrite update_same. simpl. by apply Hjq.
      * rewrite update_other by done. by apply Hjq.
    + intros q0 n0 [Hin|Heq]%begin_in_snoc; [by eapply Hbegun|].
      injection Heq as -> ->. rewrite map_app. simpl.
      apply elem_of_app. right. by left.
  - (* task_done *)
    rewrite Hws in *.
    assert (Hsp : map w_queue (before ++ released q n :: after)
                  = map w_queue (before ++ busy_on q n :: after))
      by (apply spawned_middle, released_queue).
    split; unfold spawned, rebooted; simpl; rewrite ?Hsp; try done.
    + intros q0 Hin. unfold acknowledged.
      destruct (decide (q0 = q)) as [->|Hne].
      * rewrite update_same. simpl. specialize (Hjq q Hin). lia.
      * rewrite update_other by done. by apply Hjq.
    + intros q0 n0 [Hin|Heq]%begin_in_snoc; [by eapply Hbegun|done].
  - (* task_done, error *)
    rewrite Hws in *.
    assert (Hsp : map w_queue (before ++ crashed_on q :: after)
                  = map w_queue (before ++ busy_on q n :: after))
      by (by rewrite !map_app).
    split; unfold spawned, rebooted; simpl; rewrite ?Hsp; try done.
    intros q0 n0 [Hin|Heq]%begin_in_snoc; [by eapply Hbegun|done].
  - (* management done *)
    split; unfold spawned, rebooted; simpl; try done.
    intros q n [Hin|Heq]%begin_in_snoc; [by eapply Hbegun|done].
  - (* reboot done *)
    rewrite Hrun in *.
    split; unfold spawned, rebooted; simpl; try done.
    intros q n [Hin|Heq]%begin_in_snoc; [by eapply Hbegun|done].
  - (* the line before the command of [worker_check_bond] *)
    rewrite Hws in *.
    assert (Hsp : map w_queue (before ++ busy_on q n :: after)
                  = map w_queue (before ++ announcing_on q n :: after))
      by (by apply spawned_middle).
    split; unfold spawned, rebooted; simpl; rewrite ?Hsp; done.
  - (* the line after [task_done()] *)
    rewrite Hws in *.
    assert (Hsp : map w_queue (before ++ idle_on q :: after)
                  = map w_queue (before ++ reporting_on q n :: after))
      by (by apply spawned_middle).
    split; unfold spawned, rebooted; simpl; rewrite ?Hsp; done.
Qed.

(** *** Accounting: every node put on a queue is waiting, held or done *)

Lemma omap_snoc {A B : Type} (f : A -> option B) (l : list A) (x : A) :
  omap f (l ++ [x])
  = omap f l ++ match f x with Some y => [y] | None => [] end.
Proof. rewrite omap_app. simpl. by destruct (f x). Qed.

Lemma holders_middle (q0 : queue) (w : worker) (before after : list worker) :
  holders q0 (before ++ w :: after)
  = holders q0 before
    ++ match holding q0 w with Some n => [n] | None => [] end
    ++ holders q0 after.
Proof.
  unfold holders. rewrite omap_app. simpl. by destruct (holding q0 w).
Qed.

Lemma holding_busy (q0 q : queue) (n : Node) :
  holding q0 (busy_on q n) = if decide (q = q0) then Some n else None.
Proof. reflexivity. Qed.

Lemma holding_idle (q0 q : queue) : holding q0 (idle_on q) = None.
Proof. reflexivity. Qed.

Lemma holding_taken (q0 q : queue) (n : Node) :
  holding q0 (taken q n) = if decide (q = q0) then Some n else None.
Proof. unfold taken. by destruct (prints q). Qed.

Lemma holding_released (q0 q : queue) (n : Node) :
  holding q0 (released q n) = None.
Proof. unfold released. by destruct (prints q). Qed.

Lemma holding_announcing (q0 q : queue) (n : Node) :
  holding q0 (announcing_on q n) = holding q0 (busy_on q n).
Proof. reflexivity. Qed.

Lemma holding_reporting (q0 q : queue) (n : Node) :
  holding q0 (reporting_on q n) = None.
Proof. reflexivity. Qed.

Lemma taken_alive (q : queue) (n : Node) : w_state (taken q n) <> Crashed.
Proof. unfold taken. by destruct (prints q). Qed.

Lemma released_alive (q : queue) (n : Node) :
  w_state (released q n) <> Crashed.
Proof. unfold released. by destruct (prints q). Qed.

Lemma alive_middle (w w' : worker) (before after : list worker) :
  w_state w' <> Crashed ->
  Forall (fun w => w_state w <> Crashed) (before ++ w :: after) ->
  Forall (fun w => w_state w <> Crashed) (before ++ w' :: after).
Proof.
  intros Hw [Hb [_ Ha]%Forall_cons]%Forall_app.
  apply Forall_app. split; [done|]. by apply Forall_cons.
Qed.

Record accounted (init : queue -> list Node) (s : state) : Prop := {
  acc_count : forall q,
    unfinished_tasks (queues s q)
    = length (items (queues s q)) + length (holders q (workers s));
  acc_nodes : forall q,
    init q ≡ₚ completed q (log s) ++ holders q (workers s)
              ++ items (queues s q);
  acc_begun : forall q,
    begun q (log s) ≡ₚ completed q (log s) ++ holders q (workers s);
  acc_alive : Forall (fun w => w_state w <> Crashed) (workers s)
}.

Lemma accounted_step (init : queue -> list Node) (s s' : state) :
  accounted init s -> step s s' -> accounted init s'.
Proof.
  intros [Hcount Hnodes Hbegun Halive] Hstep.
  destruct Hstep as
    [ rest s Hp | q rest s Hp | q rest s Hp Hzero | rest s Hp Hfin
    | rest s Hp | rest s Hp Hfin | msg rest s Hp | secs rest s Hp
    | q n rest before after s Hws Hitems
    | q n k before after s Hws Hcnt
    | q n before after s Hws Hcnt
    | s Hrun | s Hrun
    | q n before after s Hws | q n before after s Hws ].
  all: try (split; simpl; unfold completed, begun in *;
    try (intros q0; rewrite ?omap_snoc; simpl; rewrite ?app_nil_r; done);
    done).
  - (* start worker *)
    assert (Hsame : forall q0,
               holders q0 (workers s ++ [idle_on q]) = holders q0 (workers s)).
    { intros q0. unfold holders. rewrite omap_snoc. simpl.
      by rewrite app_nil_r. }
    split; simpl; try (intros q0; by rewrite Hsame).
    apply Forall_app. split; [done|]. by apply Forall_singleton.
  - (* get *)
    rewrite Hws in *.
    split; simpl.
    + intros q0. specialize (Hcount q0). rewrite holders_middle in *.
      rewrite holding_taken, holding_idle in *. simpl in *. unfold got.
      destruct (decide (q = q0)) as [->|Hne].
      * rewrite update_same. simpl. rewrite Hitems in Hcount.
        rewrite !length_app in *. simpl in *. lia.
      * rewrite update_other by done. done.
    + intros q0. specialize (Hnodes q0). unfold completed in *.
      rewrite omap_snoc. rewrite holders_middle in *.
      rewrite holding_taken, holding_idle in *. simpl in *. unfold got.
      rewrite app_nil_r.
      destruct (decide (q = q0)) as [->|Hne].
      * rewrite update_same. simpl. rewrite Hitems in Hnodes.
        rewrite Hnodes. solve_Permutation.
      * rewrite update_other by done. done.
    + intros q0. specialize (Hbegun q0). unfold completed, begun in *.
      rewrite !omap_snoc. rewrite holders_middle in *.
      rewrite holding_taken, holding_idle in *. simpl in *.
      rewrite app_nil_r.
      destruct (decide (q = q0)) as [->|Hne].
      * rewrite Hbegun. solve_Permutation.
      * by rewrite app_nil_r.
    + eapply alive_middle; [apply taken_alive|done].
  - (* task_done *)
    rewrite Hws in *.
    split; simpl.
    + intros q0. specialize (Hcount q0). rewrite holders_middle in *.
      rewrite holding_busy, holding_released in *. simpl in *.
      unfold acknowledged.
      destruct (decide (q = q0)) as [->|Hne].
      * rewrite update_same. simpl.
        rewrite !length_app in *. simpl in *. lia.
      * rewrite update_other by done. done.
    + intros q0. specialize (Hnodes q0). unfold completed in *.
      rewrite omap_snoc. rewrite holders_middle in *.
      rewrite holding_busy, holding_released in *. simpl in *.
      unfold acknowledged.
      destruct (decide (q = q0)) as [->|Hne].
      * rewrite update_same. simpl. rewrite Hnodes. solve_Permutation.
      * rewrite update_other by done. by rewrite app_nil_r.
    + intros q0. specialize (Hbegun q0). unfold completed, begun in *.
      rewrite !omap_snoc. rewrite holders_middle in *.
      rewrite holding_busy, holding_released in *. simpl in *.
      rewrite app_nil_r.
      destruct (decide (q = q0)) as [->|Hne].
      * rewrite Hbegun. solve_Permutation.
      * by rewrite app_nil_r.
    + eapply alive_middle; [apply released_alive|done].
  - (* task_done with nothing left to acknowledge: excluded *)
    exfalso. rewrite Hws in *. specialize (Hcount q).
    rewrite holders_middle, holding_busy in Hcount.
    rewrite decide_True in Hcount by done.
    rewrite !length_app in Hcount. simpl in Hcount. lia.
  - (* the line before the command *)
    rewrite Hws in *.
    split; simpl.
    + intros q0. specialize (Hcount q0).
      by rewrite holders_middle, holding_announcing in *.
    + intros q0. specialize (Hnodes q0).
      by rewrite holders_middle, holding_announcing in *.
    + intros q0. specialize (Hbegun q0).
      by rewrite holders_middle, holding_announcing in *.
    + by eapply alive_middle.
  - (* the line after [task_done()] *)
    rewrite Hws in *.
    split; simpl.
    + intros q0. specialize (Hcount q0).
      by rewrite holders_middle, holding_reporting, ?holding_idle in *.
    + intros q0. specialize (Hnodes q0).
      by rewrite holders_middle, holding_reporting, ?holding_idle in *.
    + intros q0. specialize (Hbegun q0).
      by rewrite holders_middle, holding_reporting, ?holding_idle in *.
    + by eapply alive_middle.
Qed.

(** *** The pool of a queue: workers started and workers still to start *)

Definition to_start (q : queue) (p : list instr) : nat :=
  length (filter (fun i => i = IStartWorker q) p).

Lemma to_start_cons (q : queue) (i : instr) (p : list instr) :
  to_start q (i :: p)
  = (if decide (i = IStartWorker q) then 1 else 0) + to_start q p.
Proof.
  unfold to_start. rewrite filter_cons.
  by destruct (decide (i = IStartWorker q)).
Qed.

Lemma workers_of_replace (q0 q : queue) (st : wstate)
    (before after : list worker) :
  filter (fun w => w_queue w = q0)
    (before ++ {| w_queue := q; w_state := st |} :: after)
  = filter (fun w => w_queue w = q0) before
    ++ (if decide (q = q0) then [{| w_queue := q; w_state := st |}] else [])
    ++ filter (fun w => w_queue w = q0) after.
Proof.
  rewrite filter_app, filter_cons. simpl.
  by destruct (decide (q = q0)).
Qed.

Lemma workers_of_middle (q0 : queue) (w w' : worker)
    (before after : list worker) :
  w_queue w' = w_queue w ->
  length (filter (fun w => w_queue w = q0) (before ++ w' :: after))
  = length (filter (fun w => w_queue w = q0) (before ++ w :: after)).
Proof.
  intros H. rewrite !filter_app, !filter_cons, !length_app, H.
  by destruct (decide (w_queue w = q0)).
Qed.

Lemma pool_step (q0 : queue) (s s' : state) :
  step s s' ->
  length (workers_of q0 s') + to_start q0 (prog s')
  = length (workers_of q0 s) + to_start q0 (prog s).
Proof.
  unfold workers_of.
  destruct 1 as
    [ rest s Hp | q rest s Hp | q rest s Hp Hzero | rest s Hp Hfin
    | rest s Hp | rest s Hp Hfin | msg rest s Hp | secs rest s Hp
    | q n rest before after s Hws Hitems
    | q n k before after s Hws Hcnt
    | q n before after s Hws Hcnt
    | s Hrun | s Hrun
    | q n before after s Hws | q n before after s Hws ]; simpl; try done;
    try (rewrite Hp, to_start_cons; by rewrite decide_False).
  - rewrite Hp, to_start_cons, filter_app, length_app, filter_cons. simpl.
    destruct (decide (q = q0)) as [->|Hne].
    + rewrite decide_True by done. simpl. lia.
    + rewrite decide_False by congruence. simpl. lia.
  - rewrite Hws. f_equal. apply workers_of_middle, taken_queue.
  - rewrite Hws. f_equal. apply workers_of_middle, released_queue.
  - rewrite Hws. f_equal. by apply workers_of_middle.
  - rewrite Hws. f_equal. by apply workers_of_middle.
  - rewrite Hws. f_equal. by apply workers_of_middle.
Qed.

Lemma prog_step_suffix (s s' : state) :
  step s s' -> prog s' `suffix_of` prog s.
Proof.
  destruct 1; simpl; try done;
    match goal with H : prog _ = _ |- _ => rewrite H end;
    by apply suffix_cons_r.
Qed.

(** [closed total p]: behind each [q.join()] of [p] no worker of [q] is
    started any more, and [total q] workers is a full pool. *)
Fixpoint closed (total : queue -> nat) (p : list instr) : bool :=
  match p with
  | [] => true
  | IJoinQueue q :: r =>
      (to_start q r =? 0) && (total q =? MAX_WORKERS) && closed total r
  | _ :: r => closed total r
  end.

Lemma closed_at_join (total : queue -> nat) (q : queue)
    (done rest : list instr) :
  closed total (done ++ IJoinQueue q :: rest) = true ->
  to_start q rest = 0 /\ total q = MAX_WORKERS.
Proof.
  induction done as [|i done IH]; simpl.
  - intros [[H1 H2]%andb_true_iff _]%andb_true_iff.
    by apply Nat.eqb_eq in H1, H2.
  - destruct i; try done.
    intros [_ H]%andb_true_iff. by apply IH.
Qed.

Lemma main_program_pools (compute_os : string) (has_mgmt : bool) :
  let p := main_program compute_os has_mgmt in
  closed (fun q => to_start q p) p = true
  /\ forall q, to_start q p <= MAX_WORKERS.
Proof.
  unfold main_program.
  destruct (String.eqb compute_os "ubuntu" || String.eqb compute_os "centos"),
    has_mgmt; (split; [vm_compute; reflexivity|]);
    intros q; destruct q; vm_compute; lia.
Qed.

(** *** The state in which the threads start *)

Definition balanced (qs : queue -> Queue) : Prop :=
  forall q, unfinished_tasks (qs q) = length (items (qs q)).

Lemma put_on_balanced (q : queue) (n : Node) (qs : queue -> Queue) :
  balanced qs -> balanced (put_on q n qs).
Proof.
  intros Hb q'. unfold put_on.
  destruct (decide (q' = q)) as [->|Hne].
  - rewrite update_same. simpl. rewrite length_app, Hb. simpl. lia.
  - by rewrite update_other.
Qed.

Section Start.

Variable generate_command_for_node :
  world -> Node -> result (gmap string string).
Variable isfile : string -> bool.

Lemma enqueue_node_balanced (st st' : setup) (node : Node) :
  enqueue_node generate_command_for_node st node = Ok st' ->
  balanced (queues0 st) -> balanced (queues0 st').
Proof.
  unfold enqueue_node. intros Hst Hb.
  destruct (is_str (role node) "management");
    repeat match type of Hst with
           | context [if ?c then _ else _] => destruct c
           end;
    match type of Hst with
    | context [generate_command_for_node ?w ?n] =>
        destruct (generate_command_for_node w n); [|done]
    end;
    injection Hst as <-; simpl; repeat apply put_on_balanced; done.
Qed.

Lemma enqueue_all_balanced (nodes : list Node) (st st' : setup) :
  enqueue_all generate_command_for_node st nodes = Ok st' ->
  balanced (queues0 st) -> balanced (queues0 st').
Proof.
  revert st. induction nodes as [|node rest IH]; intros st; simpl.
  - by intros [= <-].
  - destruct (enqueue_node generate_command_for_node st node) as [st1|e]
      eqn:E; [|done].
    intros Hrest Hb. apply (IH st1 Hrest).
    by eapply enqueue_node_balanced.
Qed.

Record starting (s0 : state) : Prop := {
  start_workers : workers s0 = [];
  start_management : management s0 = NotStarted;
  start_reboot : reboot s0 = NotStarted;
  start_log : log s0 = [];
  start_joined : joined s0 = [];
  start_balanced : balanced (queues s0);
  start_prog :
    prog s0 = [] \/ exists os has_mgmt, prog s0 = main_program os has_mgmt
}.

Lemma deploy_to_all_starting (compute_os mgmt_os : string)
    (nodes : list Node) (s0 : state) :
  deploy_to_all generate_command_for_node isfile compute_os mgmt_os nodes
  = Ok s0 ->
  starting s0.
Proof.
  unfold deploy_to_all.
  destruct (enqueue_all generate_command_for_node
              (fresh compute_os mgmt_os) nodes) as [st|e] eqn:E; [|done].
  simpl. assert (Hb : balanced (queues0 st)).
  { by apply (enqueue_all_balanced nodes _ _ E). }
  destruct (preflight isfile st); intros [= <-]; split; simpl; try done.
  - by left.
  - right. eauto.
Qed.

End Start.

Definition enqueued (s0 : state) (q : queue) : list Node :=
  items (queues s0 q).

Lemma starting_sequenced (s0 : state) : starting s0 -> sequenced s0.
Proof.
  intros [Hw Hm Hr Hl Hj Hb Hp].
  split; unfold spawned, rebooted; rewrite ?Hw, ?Hj, ?Hr, ?Hl; simpl.
  - intros q Hin. by apply elem_of_nil in Hin.
  - intros Hin. by apply elem_of_nil in Hin.
  - destruct Hp as [->|(os & m & ->)]; [done|].
    apply main_program_ordered.
  - intros q p Hin. by apply elem_of_nil in Hin.
  - done.
  - intros q n Hin. by apply elem_of_nil in Hin.
Qed.

Lemma starting_accounted (s0 : state) :
  starting s0 -> accounted (enqueued s0) s0.
Proof.
  intros [Hw Hm Hr Hl Hj Hb Hp].
  split; unfold completed, begun, holders, enqueued;
    rewrite ?Hw, ?Hl; simpl; try done.
  intros q. rewrite Hb. lia.
Qed.

(** Only a worker of step 7 prints, and the node whose end it is about to
    report is one it has acknowledged. *)
Definition printer (l : list event) (w : worker) : Prop :=
  match w_state w with
  | Announcing _ => w_queue w = xen_check_bond_q
  | Reporting n =>
      w_queue w = xen_check_bond_q /\ n ∈ completed (w_queue w) l
  | _ => True
  end.

Lemma printer_snoc (l : list event) (e : event) (w : worker) :
  printer l w -> printer (l ++ [e]) w.
Proof.
  unfold printer, completed. destruct (w_state w); try done.
  intros [? ?]. split; [done|]. rewrite omap_app. apply elem_of_app. by left.
Qed.

Lemma printer_middle (l l' : list event) (w w' : worker)
    (before after : list worker) :
  (forall w, printer l w -> printer l' w) ->
  printer l' w' ->
  Forall (printer l) (before ++ w :: after) ->
  Forall (printer l') (before ++ w' :: after).
Proof.
  intros Himp Hw [Hb [_ Ha]%Forall_cons]%Forall_app.
  apply Forall_app. split; [by eapply Forall_impl|].
  apply Forall_cons. split; [done|by eapply Forall_impl].
Qed.

Lemma printer_step (s s' : state) :
  Forall (printer (log s)) (workers s) -> step s s' ->
  Forall (printer (log s')) (workers s').
Proof.
  intros Hall Hstep.
  destruct Hstep as
    [ rest s Hp | q rest s Hp | q rest s Hp Hzero | rest s Hp Hfin
    | rest s Hp | rest s Hp Hfin | msg rest s Hp | secs rest s Hp
    | q n rest before after s Hws Hitems
    | q n k before after s Hws Hcnt
    | q n before after s Hws Hcnt
    | s Hrun | s Hrun
    | q n before after s Hws | q n before after s Hws ]; simpl;
    try done;
    try (eapply Forall_impl; [exact Hall|]; intros w; by apply printer_snoc);
    try rewrite Hws in Hall.
  - apply Forall_app. split; [done|]. by apply Forall_singleton.
  - eapply printer_middle; [intros w; by apply printer_snoc| |exact Hall].
    unfold taken, prints, printer.
    destruct (bool_decide (q = xen_check_bond_q)) eqn:E; simpl; [|done].
    by apply bool_decide_eq_true in E.
  - eapply printer_middle; [intros w; by apply printer_snoc| |exact Hall].
    unfold released, prints, printer.
    destruct (bool_decide (q = xen_check_bond_q)) eqn:E; simpl; [|done].
    apply bool_decide_eq_true in E. split; [done|].
    unfold completed. rewrite omap_app. apply elem_of_app. right. simpl.
    rewrite decide_True by done. by left.
  - eapply printer_middle; [intros w; by apply printer_snoc|done|exact Hall].
  - by eapply printer_middle.
  - by eapply printer_middle.
Qed.

Record invariant (s0 s : state) : Prop := {
  inv_sequenced : sequenced s;
  inv_accounted : accounted (enqueued s0) s;
  inv_pool : forall q,
    length (workers_of q s) + to_start q (prog s) = to_start q (prog s0);
  inv_suffix : prog s `suffix_of` prog s0;
  inv_printer : Forall (printer (log s)) (workers s)
}.

Lemma invariant_reachable (s0 s : state) :
  starting s0 -> rtc step s0 s -> invariant s0 s.
Proof.
  intros Hstart. revert s. apply rtc_ind_r.
  - split.
    + by apply starting_sequenced.
    + by apply starting_accounted.
    + intros q. unfold workers_of. by rewrite (start_workers _ Hstart).
    + done.
    + by rewrite (start_workers _ Hstart).
  - intros s s' _ Hstep [Hseq Hacc Hpool Hsuf Hprint]. split.
    + by eapply sequenced_step.
    + by eapply accounted_step.
    + intros q. rewrite <- (Hpool q). by apply pool_step.
    + etrans; [by apply prog_step_suffix|done].
    + by eapply printer_step.
Qed.

(** *** A queue that is joined is drained *)

Definition drained (s0 s : state) (q : queue) : Prop :=
  unfinished_tasks (queues s q) = 0 /\
  items (queues s q) = [] /\
  holders q (workers s) = [] /\
  enqueued s0 q ≡ₚ completed q (log s).

Lemma joined_drained (s0 s : state) (q : queue) :
  invariant s0 s -> JQueue q ∈ joined s -> drained s0 s q.
Proof.
  intros [Hseq Hacc _ _ _] Hin.
  pose proof (seq_joined_queue _ Hseq q Hin) as Hzero.
  pose proof (acc_count _ _ Hacc q) as Hcount.
  pose proof (acc_nodes _ _ Hacc q) as Hnodes.
  rewrite Hzero in Hcount.
  assert (Hitems : items (queues s q) = [])
    by (apply length_zero_iff_nil; lia).
  assert (Hhold : holders q (workers s) = [])
    by (apply length_zero_iff_nil; lia).
  rewrite Hitems, Hhold, !app_nil_r in Hnodes.
  by repeat split.
Qed.

Lemma busy_holds (s : state) (w : worker) :
  w ∈ workers s -> is_busy w = true -> holders (w_queue w) (workers s) <> [].
Proof.
  intros Hin Hbusy Hnil.
  destruct w as [q [|n| |n|n]]; simpl in *; try done.
  all: assert (Hn : n ∈ holders q (workers s));
    [apply list_elem_of_omap; eexists; split; [exact Hin|];
     unfold holding; simpl; by rewrite decide_True|].
  all: rewrite Hnil in Hn; by apply elem_of_nil in Hn.
Qed.

Lemma step_number_inj (p q : queue) : step_number p = step_number q -> p = q.
Proof. by destruct p, q. Qed.

(** Two workers that hold a node at the same time serve the same queue. *)
Lemma busy_same_queue (s0 s : state) (w1 w2 : worker) :
  invariant s0 s ->
  w1 ∈ workers s -> w2 ∈ workers s ->
  is_busy w1 = true -> is_busy w2 = true ->
  w_queue w1 = w_queue w2.
Proof.
  intros Hinv H1 H2 Hb1 Hb2.
  assert (Hlt : forall a b : worker,
             a ∈ workers s -> b ∈ workers s -> is_busy a = true ->
             ~ step_number (w_queue a) < step_number (w_queue b)).
  { intros a b Ha Hb Hbusy Hlt.
    assert (Hj : JQueue (w_queue a) ∈ joined s).
    { apply (seq_workers _ (inv_sequenced _ _ Hinv) (w_queue b)); [|done].
      unfold spawned. by apply list_elem_of_fmap_2. }
    destruct (joined_drained s0 s _ Hinv Hj) as (_ & _ & Hnil & _).
    by apply (busy_holds s a). }
  apply step_number_inj.
  pose proof (Hlt w1 w2 H1 H2 Hb1). pose proof (Hlt w2 w1 H2 H1 Hb2). lia.
Qed.

Lemma filter_length_le {A : Type} (P Q : A -> Prop)
    `{!forall x, Decision (P x)} `{!forall x, Decision (Q x)} (l : list A) :
  (forall x, x ∈ l -> P x -> Q x) ->
  length (filter P l) <= length (filter Q l).
Proof.
  induction l as [|x l IH]; intros Himp; [done|].
  rewrite !filter_cons.
  assert (IH' : length (filter P l) <= length (filter Q l)).
  { apply IH. intros y Hy. apply Himp. by right. }
  destruct (decide (P x)) as [HP|HP].
  - rewrite decide_True by (apply Himp; [by left|done]). simpl. lia.
  - destruct (decide (Q x)); simpl; lia.
Qed.

Lemma pool_bound (s0 s : state) (q : queue) :
  starting s0 -> invariant s0 s -> length (workers_of q s) <= MAX_WORKERS.
Proof.
  intros Hstart Hinv.
  pose proof (inv_pool _ _ Hinv q) as Hpool.
  assert (Htotal : to_start q (prog s0) <= MAX_WORKERS).
  { destruct (start_prog _ Hstart) as [->|(os & m & ->)].
    - unfold to_start. simpl. lia.
    - apply main_program_pools. }
  lia.
Qed.

Lemma busy_bound (s0 s : state) :
  starting s0 -> invariant s0 s -> length (busy_workers s) <= MAX_WORKERS.
Proof.
  intros Hstart Hinv. unfold busy_workers.
  destruct (filter (fun w => is_busy w = true) (workers s)) as [|w0 l] eqn:E.
  - simpl. lia.
  - rewrite <- E.
    assert (Hw0 : w0 ∈ filter (fun w => is_busy w = true) (workers s))
      by (rewrite E; by left).
    apply list_elem_of_filter in Hw0 as [Hb0 Hin0].
    etrans; [|apply (pool_bound s0 s (w_queue w0) Hstart Hinv)].
    unfold workers_of. apply filter_length_le.
    intros w Hin Hb. by apply (busy_same_queue s0 s).
Qed.

(** *** One schedule, to run the model *)

(** A worker that can take a node: idle, its queue not empty. *)
Definition ready (qs : queue -> Queue) (w : worker) : bool :=
  match w_state w, items (qs (w_queue w)) with
  | Idle, _ :: _ => true
  | _, _ => false
  end.

Definition get_step (s : state) : option state :=
  match list_find (fun w => ready (queues s) w = true) (workers s) with
  | Some (i, w) =>
      match items (queues s (w_queue w)) with
      | n :: rest =>
          Some {| prog := prog s; queues := got (w_queue w) rest (queues s);
                  workers := take i (workers s) ++ taken (w_queue w) n
                             :: drop (S i) (workers s);
                  management := management s; reboot := reboot s;
                  output := output s; commands := commands s;
                  log := log s ++ [Begin (w_queue w) n];
                  joined := joined s |}
      | [] => None
      end
  | None => None
  end.

(** A worker whose command is running. *)
Definition is_running (w : worker) : bool :=
  match w_state w with Busy _ => true | _ => false end.

Definition is_announcing (w : worker) : bool :=
  match w_state w with Announcing _ => true | _ => false end.

Definition is_reporting (w : worker) : bool :=
  match w_state w with Reporting _ => true | _ => false end.

Definition announce_step (s : state) : option state :=
  match list_find (fun w => is_announcing w = true) (workers s) with
  | Some (i, w) =>
      match w_state w with
      | Announcing n =>
          Some {| prog := prog s; queues := queues s;
                  workers := take i (workers s) ++ busy_on (w_queue w) n
                             :: drop (S i) (workers s);
                  management := management s; reboot := reboot s;
                  output := output s ++ [start_line n];
                  commands := commands s;
                  log := log s; joined := joined s |}
      | _ => None
      end
  | None => None
  end.

Definition report_step (s : state) : option state :=
  match list_find (fun w => is_reporting w = true) (workers s) with
  | Some (i, w) =>
      match w_state w with
      | Reporting n =>
          Some {| prog := prog s; queues := queues s;
                  workers := take i (workers s) ++ idle_on (w_queue w)
                             :: drop (S i) (workers s);
                  management := management s; reboot := reboot s;
                  output := output s ++ [finish_line n];
                  commands := commands s;
                  log := log s; joined := joined s |}
      | _ => None
      end
  | None => None
  end.

Definition done_step (s : state) : option state :=
  match list_find (fun w => is_running w = true) (workers s) with
  | Some (i, w) =>
      match w_state w, unfinished_tasks (queues s (w_queue w)) with
      | Busy n, S k =>
          Some {| prog := prog s;
                  queues := acknowledged (w_queue w) k (queues s);
                  workers := take i (workers s) ++ released (w_queue w) n
                             :: drop (S i) (workers s);
                  management := management s; reboot := reboot s;
                  output := output s; commands := commands s;
                  log := log s ++ [Complete (w_queue w) n];
                  joined := joined s |}
      | _, _ => None
      end
  | None => None
  end.

Definition main_step (s : state) : option state :=
  match prog s with
  | [] => None
  | IStartManagement :: rest =>
      Some {| prog := rest; queues := queues s; workers := workers s;
              management := Running; reboot := reboot s;
              output := output s; commands := commands s;
              log := log s ++ [BeginManagement]; joined := joined s |}
  | IStartWorker q :: rest =>
      Some {| prog := rest; queues := queues s;
              workers := workers s ++ [idle_on q];
              management := management s; reboot := reboot s;
              output := output s; commands := commands s;
              log := log s; joined := joined s |}
  | IJoinQueue q :: rest =>
      match unfinished_tasks (queues s q) with
      | 0 =>
          Some {| prog := rest; queues := queues s; workers := workers s;
                  management := management s; reboot := reboot s;
                  output := output s; commands := commands s;
                  log := log s; joined := joined s ++ [JQueue q] |}
      | S _ => None
      end
  | IJoinManagement :: rest =>
      match management s with
      | Finished =>
          Some {| prog := rest; queues := queues s; workers := workers s;
                  management := management s; reboot := reboot s;
                  output := output s; commands := commands s;
                  log := log s; joined := joined s ++ [JManagement] |}
      | _ => None
      end
  | IStartReboot :: rest =>
      Some {| prog := rest; queues := queues s; workers := workers s;
              management := management s; reboot := Running;
              output := output s; commands := commands s;
              log := log s ++ [BeginReboot]; joined := joined s |}
  | IJoinReboot :: rest =>
      match reboot s with
      | Finished =>
          Some {| prog := rest; queues := queues s; workers := workers s;
                  management := management s; reboot := reboot s;
                  output := output s; commands := commands s;
                  log := log s; joined := joined s |}
      | _ => None
      end
  | IPrint msg :: rest =>
      Some {| prog := rest; queues := queues s; workers := workers s;
              management := management s; reboot := reboot s;
              output := output s ++ [msg]; commands := commands s;
              log := log s; joined := joined s |}
  | ISleep _ :: rest =>
      Some {| prog := rest; queues := queues s; workers := workers s;
              management := management s; reboot := reboot s;
              output := output s; commands := commands s;
              log := log s; joined := joined s |}
  end.

Definition thread_step (s : state) : option state :=
  match management s, reboot s with
  | Running, _ =>
      Some {| prog := prog s; queues := queues s; workers := workers s;
              management := Finished; reboot := reboot s;
              output := output s; commands := commands s;
              log := log s ++ [CompleteManagement]; joined := joined s |}
  | _, Running =>
      Some {| prog := prog s; queues := queues s; workers := workers s;
              management := management s; reboot := Finished;
              output := output s; commands := commands s;
              log := log s ++ [CompleteReboot]; joined := joined s |}
  | _, _ => None
  end.

(** Workers take nodes as soon as they can and say at once that they
    start, the main thread goes on while it can, then workers finish, then
    the two management threads; a worker says that it has finished when
    nothing else can move. *)
Definition next (s : state) : option state :=
  match get_step s with
  | Some s' => Some s'
  | None =>
      match announce_step s with
      | Some s' => Some s'
      | None =>
          match main_step s with
          | Some s' => Some s'
          | None =>
              match done_step s with
              | Some s' => Some s'
              | None =>
                  match thread_step s with
                  | Some s' => Some s'
                  | None => report_step s
                  end
              end
          end
      end
  end.

Fixpoint run (fuel : nat) (s : state) : state :=
  match fuel with
  | 0 => s
  | S fuel' =>
      match next s with
      | Some s' => run fuel' s'
      | None => s
      end
  end.

Lemma get_step_sound (s s' : state) : get_step s = Some s' -> step s s'.
Proof.
  unfold get_step.
  destruct (list_find _ (workers s)) as [[i w]|] eqn:Efind; [|done].
  apply list_find_Some in Efind as (Hi & Hready & _).
  unfold ready in Hready.
  destruct w as [q st]. simpl in *.
  destruct st; try done.
  destruct (items (queues s q)) as [|n rest] eqn:Eitems; [done|].
  intros [= <-]. eapply step_get; [|done].
  symmetry. by apply take_drop_middle.
Qed.

Lemma done_step_sound (s s' : state) : done_step s = Some s' -> step s s'.
Proof.
  unfold done_step.
  destruct (list_find _ (workers s)) as [[i w]|] eqn:Efind; [|done].
  apply list_find_Some in Efind as (Hi & Hbusy & _).
  destruct w as [q st]. simpl in *.
  destruct st as [|n| |n|n]; try done.
  destruct (unfinished_tasks (queues s q)) as [|k] eqn:Ecount; [done|].
  intros [= <-]. eapply step_task_done; [|done].
  symmetry. by apply take_drop_middle.
Qed.

Lemma announce_step_sound (s s' : state) :
  announce_step s = Some s' -> step s s'.
Proof.
  unfold announce_step.
  destruct (list_find _ (workers s)) as [[i w]|] eqn:Efind; [|done].
  apply list_find_Some in Efind as (Hi & _ & _).
  destruct w as [q st]. simpl in *.
  destruct st as [|n| |n|n]; try done.
  intros [= <-]. eapply step_announce.
  symmetry. by apply take_drop_middle.
Qed.

Lemma report_step_sound (s s' : state) :
  report_step s = Some s' -> step s s'.
Proof.
  unfold report_step.
  destruct (list_find _ (workers s)) as [[i w]|] eqn:Efind; [|done].
  apply list_find_Some in Efind as (Hi & _ & _).
  destruct w as [q st]. simpl in *.
  destruct st as [|n| |n|n]; try done.
  intros [= <-]. eapply step_report.
  symmetry. by apply take_drop_middle.
Qed.

Lemma main_step_sound (s s' : state) : main_step s = Some s' -> step s s'.
Proof.
  unfold main_step.
  destruct (prog s) as [|[|q|q| | | |msg|secs] rest] eqn:Ep; try done.
  - intros [= <-]. by apply step_start_management.
  - intros [= <-]. by apply step_start_worker.
  - destruct (unfinished_tasks (queues s q)) eqn:E; [|done].
    intros [= <-]. by apply step_join_queue.
  - destruct (management s) eqn:E; try done.
    intros [= <-]. rewrite <- E. by apply step_join_management.
  - intros [= <-]. by apply step_start_reboot.
  - destruct (reboot s) eqn:E; try done.
    intros [= <-]. rewrite <- E. by apply step_join_reboot.
  - intros [= <-]. by apply step_print.
  - intros [= <-]. by eapply step_sleep.
Qed.

Lemma thread_step_sound (s s' : state) : thread_step s = Some s' -> step s s'.
Proof.
  unfold thread_step.
  destruct (management s) eqn:Em.
  - destruct (reboot s) eqn:Er; try done.
    intros [= <-]. pose proof (step_reboot_done s Er) as H.
    by rewrite Em in H.
  - intros [= <-]. by apply step_management_done.
  - destruct (reboot s) eqn:Er; try done.
    intros [= <-]. pose proof (step_reboot_done s Er) as H.
    by rewrite Em in H.
Qed.

Lemma next_sound (s s' : state) : next s = Some s' -> step s s'.
Proof.
  unfold next.
  destruct (get_step s) eqn:E1; [intros [= <-]; by apply get_step_sound|].
  destruct (announce_step s) eqn:E2;
    [intros [= <-]; by apply announce_step_sound|].
  destruct (main_step s) eqn:E3; [intros [= <-]; by apply main_step_sound|].
  destruct (done_step s) eqn:E4; [intros [= <-]; by apply done_step_sound|].
  destruct (thread_step s) eqn:E5;
    [intros [= <-]; by apply thread_step_sound|].
  apply report_step_sound.
Qed.

Lemma run_reachable (fuel : nat) (s : state) : rtc step s (run fuel s).
Proof.
  revert s. induction fuel as [|fuel IH]; intros s; simpl; [done|].
  destruct (next s) as [s'|] eqn:E; [|done].
  eapply rtc_l; [by apply next_sound|apply IH].
Qed.

(** *** Sample configurations *)

Definition sample_node (host node_role : string) (pool : pyval) : Node :=
  {| hostname := PStr host; host_name_label := PStr EmptyString;
     pxe_gw := PStr "10.0.0.254"; node_username := PStr "bsn";
     node_password := PStr "bsn"; role := PStr node_role;
     mysql_root_pwd := PStr "bsn"; cloud_db_pwd := PStr "bsn";
     bond_name := PStr "bond0"; bond_interfaces := [PStr "eth1"; PStr "eth2"];
     pxe_interface := ∅; xenserver_pool := pool;
     management_bond := None; bridges := Some [] |}.

Definition keep_files (w : world) (n : Node) : result (gmap string string) :=
  Ok (files w).

Definition all_present (path : string) : bool := true.
Definition none_present (path : string) : bool := false.

Definition started (r : result state) : state :=
  match r with
  | Ok s => s
  | Raise _ => launch (fresh EmptyString EmptyString) [] []
  end.

(** One management node and one compute node, Ubuntu on both. *)
Definition ubuntu_nodes : list Node :=
  [sample_node "10.0.0.1" "management" PNone;
   sample_node "10.0.0.2" "compute" PNone].

Definition ubuntu_start : state :=
  started (deploy_to_all keep_files all_present "ubuntu" "ubuntu"
             ubuntu_nodes).

(** One XenServer hypervisor, alone in its pool: no slave. *)
Definition xen_nodes : list Node :=
  [sample_node "10.0.0.3" "compute" (PStr "pool1")].

Definition xen_start : state :=
  started (deploy_to_all keep_files all_present "xenserver" "ubuntu"
             xen_nodes).

(** *** The phase barrier *)




(** *** Missing packages *)


Definition ubuntu_setup : setup :=
  match enqueue_all keep_files (fresh "ubuntu" "ubuntu") ubuntu_nodes with
  | Ok st => st
  | Raise _ => fresh "ubuntu" "ubuntu"
  end.

(** *** Pool sizes *)

(** C8. In every state the OpenStack deployer can reach, at most
    [MAX_THREADS] of its threads are running; in every state the
    CloudStack deployer can reach, each queue has at most [MAX_WORKERS]
    workers, and at most [MAX_WORKERS] workers hold a node at once,
    whatever the number of configured nodes. *)
Theorem worker_pools_bounded
    (os_nodes : list ConfigDeployer.node) (s1 : ConfigDeployer.state)
    (generate_command_for_node : world -> Node -> result (gmap string string))
    (isfile : string -> bool) (compute_os mgmt_os : string)
    (nodes : list Node) (s0 s : state) :
  ConfigDeployer.reachable os_nodes s1 ->
  deploy_to_all generate_command_for_node isfile compute_os mgmt_os nodes
  = Ok s0 ->
  rtc step s0 s ->
  ConfigDeployer.running_threads s1 <= ConfigDeployer.MAX_THREADS /\
  (forall q, length (workers_of q s) <= MAX_WORKERS) /\
  length (busy_workers s) <= MAX_WORKERS.
Proof.
  intros Hos Hdeploy Hreach.
  pose proof (deploy_to_all_starting _ _ _ _ _ _ Hdeploy) as Hstart.
  pose proof (invariant_reachable s0 s Hstart Hreach) as Hinv.
  split; [by eapply ConfigDeployer.running_threads_bound|]. split.
  - intros q. by eapply pool_bound.
  - by eapply busy_bound.
Qed.

Lemma worker_pools_bounded_witness :
  ConfigDeployer.reachable ["n1"%string; "n2"%string]
    ConfigDeployer.two_nodes_done /\
  deploy_to_all keep_files all_present "xenserver" "ubuntu" xen_nodes
  = Ok xen_start /\
  rtc step xen_start (run 200 xen_start) /\
  ConfigDeployer.running_threads ConfigDeployer.two_nodes_done
  <= ConfigDeployer.MAX_THREADS /\
  (forall q, length (workers_of q (run 200 xen_start)) <= MAX_WORKERS) /\
  length (busy_workers (run 200 xen_start)) <= MAX_WORKERS.
Proof.
  split; [exact ConfigDeployer.two_nodes_done_reachable|].
  split; [reflexivity|]. split; [apply run_reachable|].
  apply (worker_pools_bounded ["n1"%string; "n2"%string]
           ConfigDeployer.two_nodes_done keep_files all_present
           "xenserver" "ubuntu" xen_nodes xen_start).
  - exact ConfigDeployer.two_nodes_done_reachable.
  - reflexivity.
  - apply run_reachable.
Defined.

(** *** Queues that hold no node *)

(** A worker of a queue on which no node is held is idle, or it is a
    worker of step 7 about to report a node it has acknowledged. *)
Lemma not_busy_idle (s0 s : state) (q : queue) (w : worker) :
  invariant s0 s -> holders q (workers s) = [] ->
  w ∈ workers s -> w_queue w = q ->
  w_state w = Idle \/
  exists n, w_state w = Reporting n /\ q = xen_check_bond_q /\
            n ∈ completed q (log s).
Proof.
  intros Hinv Hnil Hin Hq.
  pose proof (acc_alive _ _ (inv_accounted _ _ Hinv)) as Halive.
  pose proof (inv_printer _ _ Hinv) as Hprint.
  rewrite Forall_forall in Halive, Hprint.
  specialize (Halive w Hin). specialize (Hprint w Hin).
  unfold printer in Hprint.
  destruct (w_state w) as [|n| |n|n] eqn:Est; [by left| |done| |].
  - exfalso. apply (busy_holds s w Hin).
    + unfold is_busy. by rewrite Est.
    + by rewrite Hq.
  - exfalso. apply (busy_holds s w Hin).
    + unfold is_busy. by rewrite Est.
    + by rewrite Hq.
  - right. exists n. destruct Hprint as [Hcb Hn]. rewrite Hq in Hcb, Hn.
    done.
Qed.

(** C9 as amended. When no node was put on the queue of a step, in every
    state the threads can reach the count [join] waits on is zero and every
    worker of that queue is idle, that is, waiting in [get()] on the empty
    queue; and when the main thread arrives at the [join] of that queue, a
    full pool of [MAX_WORKERS] such workers has been started and the [join]
    returns at once. *)
Theorem empty_queue_join
    (generate_command_for_node : world -> Node -> result (gmap string string))
    (isfile : string -> bool) (compute_os mgmt_os : string)
    (nodes : list Node) (s0 s : state) (q : queue) :
  deploy_to_all generate_command_for_node isfile compute_os mgmt_os nodes
  = Ok s0 ->
  rtc step s0 s ->
  enqueued s0 q = [] ->
  unfinished_tasks (queues s q) = 0 /\
  (forall w, w ∈ workers s -> w_queue w = q -> w_state w = Idle) /\
  (forall rest, prog s = IJoinQueue q :: rest ->
     length (workers_of q s) = MAX_WORKERS /\
     exists s', step s s' /\ prog s' = rest).
Proof.
  intros Hdeploy Hreach Hempty.
  pose proof (deploy_to_all_starting _ _ _ _ _ _ Hdeploy) as Hstart.
  pose proof (invariant_reachable s0 s Hstart Hreach) as Hinv.
  pose proof (acc_nodes _ _ (inv_accounted _ _ Hinv) q) as Hnodes.
  pose proof (acc_count _ _ (inv_accounted _ _ Hinv) q) as Hcount.
  rewrite Hempty in Hnodes. apply Permutation_nil in Hnodes.
  apply app_eq_nil in Hnodes as [Hcompleted Hnodes].
  apply app_eq_nil in Hnodes as [Hhold Hitems].
  rewrite Hhold, Hitems in Hcount. simpl in Hcount.
  split; [done|]. split.
  - intros w Hin Hq.
    destruct (not_busy_idle s0 s q w Hinv Hhold Hin Hq)
      as [?|(n & _ & _ & Hn)]; [done|].
    rewrite Hcompleted in Hn. by apply elem_of_nil in Hn.
  - intros rest Hp. split.
    + pose proof (inv_pool _ _ Hinv q) as Hpool.
      destruct (inv_suffix _ _ Hinv) as [done_ Hdone].
      rewrite Hp in Hdone, Hpool.
      destruct (start_prog _ Hstart) as [Hnil|(os & m & Hmain)].
      * rewrite Hnil in Hdone. by apply app_cons_not_nil in Hdone.
      * destruct (main_program_pools os m) as [Hclosed _].
        rewrite Hmain in Hdone, Hpool.
        assert (Hjoin : closed (fun q => to_start q (main_program os m))
                          (done_ ++ IJoinQueue q :: rest) = true)
          by (by rewrite <- Hdone).
        apply closed_at_join in Hjoin as [Hrest Htotal].
        rewrite to_start_cons, decide_False in Hpool by done. lia.
    + eexists. split; [by apply step_join_queue|done].
Qed.

Lemma empty_queue_join_witness :
  deploy_to_all keep_files all_present "xenserver" "ubuntu" xen_nodes
  = Ok xen_start /\
  rtc step xen_start (run 24 xen_start) /\
  enqueued xen_start xen_slave_node_q = [] /\
  unfinished_tasks (queues (run 24 xen_start) xen_slave_node_q) = 0 /\
  (forall w, w ∈ workers (run 24 xen_start) ->
     w_queue w = xen_slave_node_q -> w_state w = Idle) /\
  (forall rest, prog (run 24 xen_start) = IJoinQueue xen_slave_node_q :: rest ->
     length (workers_of xen_slave_node_q (run 24 xen_start)) = MAX_WORKERS /\
     exists s', step (run 24 xen_start) s' /\ prog s' = rest).
Proof.
  split; [reflexivity|]. split; [apply run_reachable|].
  split; [reflexivity|].
  apply (empty_queue_join keep_files all_present "xenserver" "ubuntu"
           xen_nodes xen_start).
  - reflexivity.
  - apply run_reachable.
  - reflexivity.
Defined.

(** A state where the main thread has returned, every worker is idle,
    every queue is empty and neither management thread is running. *)
Definition is_idle (w : worker) : bool :=
  match w_state w with Idle => true | _ => false end.

Definition settled (s : state) : bool :=
  match prog s with [] => true | _ :: _ => false end
  && forallb is_idle (workers s)
  && forallb (fun q => match items (queues s q) with
                       | [] => true
                       | _ :: _ => false
                       end) all_queues
  && match management s with Running => false | _ => true end
  && match reboot s with Running => false | _ => true end.

Lemma settled_stuck (s : state) :
  settled s = true -> forall s', rtc step s s' -> s' = s.
Proof.
  unfold settled.
  intros [[[[Hp Hw]%andb_true_iff Hq]%andb_true_iff Hm]%andb_true_iff
            Hr]%andb_true_iff s' Hreach.
  destruct Hreach as [|s s1 s2 Hstep _]; [done|].
  exfalso.
  rewrite forallb_forall in Hw, Hq.
  destruct Hstep as
    [ rest s Hprog | q rest s Hprog | q rest s Hprog Hzero
    | rest s Hprog Hfin | rest s Hprog | rest s Hprog Hfin
    | msg rest s Hprog | secs rest s Hprog
    | q n rest before after s Hws Hitems
    | q n k before after s Hws Hcnt
    | q n before after s Hws Hcnt
    | s Hrun | s Hrun
    | q n before after s Hws | q n before after s Hws ];
    try (rewrite Hprog in Hp; discriminate).
  - specialize (Hq q (in_all_queues q)). by rewrite Hitems in Hq.
  - assert (Hin : In (busy_on q n) (workers s)).
    { rewrite Hws. apply in_elt. }
    by specialize (Hw _ Hin).
  - assert (Hin : In (busy_on q n) (workers s)).
    { rewrite Hws. apply in_elt. }
    by specialize (Hw _ Hin).
  - by rewrite Hrun in Hm.
  - by rewrite Hrun in Hr.
  - assert (Hin : In (announcing_on q n) (workers s)).
    { rewrite Hws. apply in_elt. }
    by specialize (Hw _ Hin).
  - assert (Hin : In (reporting_on q n) (workers s)).
    { rewrite Hws. apply in_elt. }
    by specialize (Hw _ Hin).
Qed.

(** C9 as stated fails in its second half: with one hypervisor alone in
    its pool nothing is put on the queue of step 2, and yet when the main
    thread has returned ten workers of that queue exist, each idle on the
    empty queue, and nothing can move any more. *)
Lemma empty_queue_workers_block :
  deploy_to_all keep_files all_present "xenserver" "ubuntu" xen_nodes
  = Ok xen_start /\
  rtc step xen_start (run 200 xen_start) /\
  enqueued xen_start xen_slave_node_q = [] /\
  prog (run 200 xen_start) = [] /\
  items (queues (run 200 xen_start) xen_slave_node_q) = [] /\
  map w_state (workers_of xen_slave_node_q (run 200 xen_start))
  = repeat Idle 10 /\
  forall s', rtc step (run 200 xen_start) s' -> s' = run 200 xen_start.
Proof.
  split; [reflexivity|]. split; [apply run_reachable|].
  split; [reflexivity|]. split; [vm_compute; reflexivity|].
  split; [vm_compute; reflexivity|]. split; [vm_compute; reflexivity|].
  apply settled_stuck. vm_compute. reflexivity.
Qed.

End CloudStack.

(** ** Rendering depends on its input only *)

Module Rendering.
Import Py Format.

(** What a run of a generator left at a path. *)
Definition written (r : result InterfaceConfig.world) (path : string)
  : result (option string) :=
  w ← r; Ok (InterfaceConfig.files w !! path).

(** C5. The manifest rendered for a node is the same for equal settings
    and neutron path, whatever the deployer holds (its cache of downloaded
    files, its patch flag) and whatever the node answers about other
    packages: the list of files to patch is the empty constant. The
    interface configuration written for a node is the text computed from
    the node alone, whatever the module variables and the files already
    written. *)
Theorem rendering_depends_on_input_only
    (neutron_body bond_and_lldpd_configuration : string)
    (os_path_join : string -> string -> string)
    (get_path1 get_path2 : string -> result pyval)
    (deployer1 deployer2 : ConfigDeployer.ConfigDeployer)
    (puppet_settings : gmap string pyval) (neutron_path : pyval)
    (w1 w2 : InterfaceConfig.world) (node : InterfaceConfig.Node) :
  ConfigDeployer.render_manifest neutron_body bond_and_lldpd_configuration
    os_path_join get_path1 deployer1 puppet_settings neutron_path
  = ConfigDeployer.render_manifest neutron_body bond_and_lldpd_configuration
      os_path_join get_path2 deployer2 puppet_settings neutron_path
  /\ written (InterfaceConfig.generate_interface_config w1 node)
       (InterfaceConfig.intf_path node)
     = written (InterfaceConfig.generate_interface_config w2 node)
         (InterfaceConfig.intf_path node)
  /\ written (InterfaceConfig.generate_interface_config w1 node)
       (InterfaceConfig.intf_path node)
     = Some <$> InterfaceConfig.interface_config node.
Proof.
  assert (Hwritten : forall w,
             written (InterfaceConfig.generate_interface_config w node)
               (InterfaceConfig.intf_path node)
             = Some <$> InterfaceConfig.interface_config node).
  { intros w. unfold written, InterfaceConfig.generate_interface_config.
    destruct (InterfaceConfig.interface_config node) as [config|e]; [|done].
    simpl. by rewrite lookup_insert_eq. }
  split; [|split].
  - unfold ConfigDeployer.render_manifest.
    by destruct (ConfigDeployer.patch_python_files deployer1),
      (ConfigDeployer.patch_python_files deployer2).
  - by rewrite !Hwritten.
  - apply Hwritten.
Qed.

End Rendering.

(** ** More on [TimedCommand]: the retry counter of an object *)

Module TimedCommandReuse.
Import TimedCommand.

Section Reuse.

Variable repr_argv : list string -> string.
Variable os : nat -> command -> bool -> Z -> child.

(** [self.retries] grows by one for each re-attempt and is never reset. *)
Lemma run_counts_retries (self : TimedCommand) (timeout : Z)
    (max_retries : nat) (shell : bool) (log : list attempt) :
  let r := run repr_argv os self timeout max_retries shell log in
  retries r.1.2 + S (length log) = retries self + length r.2.
Proof.
  funelim (run repr_argv os self timeout max_retries shell log); simpl.
  - rewrite length_app. simpl. lia.
  - rewrite length_app. simpl. lia.
  - clear Heqcall. simpl in *.
    destruct (lt_dec (retries self) max_retries) as [Hlt|Hge]; simpl.
    + specialize (H Hlt). simpl in H. rewrite length_app in H. simpl in H.
      lia.
    + rewrite length_app. simpl. lia.
  - rewrite length_app. simpl. lia.
  - rewrite length_app. simpl. lia.
Qed.

(** X1. The retry budget is per object, not per call: once a fresh
    [TimedCommand] has used up [max_retries] re-attempts (its last attempt
    overran), a further [run] on the same object with the same budget makes
    exactly one attempt, whatever that attempt does. *)
Theorem run_again_never_retries (c : command) (timeout timeout' : Z)
    (max_retries : nat) (shell shell' : bool) (a : attempt) :
  let r1 := run repr_argv os (__init__ c) timeout max_retries shell [] in
  last r1.2 = Some a -> overran (a_child a) = true ->
  let r2 := run repr_argv os r1.1.2 timeout' max_retries shell' r1.2 in
  length r2.2 = S (length r1.2).
Proof.
  intros r1 Hlast Hover r2.
  destruct (run_meets_spec repr_argv os (__init__ c) timeout max_retries
              shell []) as [new1 [Hlog1 _ Hne1 Hbound1 _ _ _ Hout]].
  fold r1 in Hlog1, Hout. simpl in Hlog1, Hbound1, Hout.
  rewrite Hlog1 in Hlast.
  specialize (Hout a Hlast).
  destruct (a_child a); try done. destruct Hout as [Hlen _].
  assert (Hlen1 : length r1.2 = length new1) by (by rewrite Hlog1).
  pose proof (run_counts_retries (__init__ c) timeout max_retries shell [])
    as Hcount.
  fold r1 in Hcount. simpl in Hcount.
  destruct (run_meets_spec repr_argv os r1.1.2 timeout' max_retries shell'
              r1.2) as [new [Hlog _ Hne Hbound _ _ _ _]].
  fold r2 in Hlog. rewrite Hlog, length_app.
  assert (length new = 1) by lia. lia.
Qed.

End Reuse.

Lemma run_again_never_retries_witness :
  let r1 := run (fun _ => EmptyString) os_hangs
              (__init__ (CmdString "sleep 120")) 1 2 true [] in
  let a := {| a_cmd := CmdString "sleep 120"; a_shell := false;
              a_timeout := 1; a_child := Overruns EmptyString EmptyString;
              a_terminated := true |} in
  last r1.2 = Some a /\ overran (a_child a) = true /\
  length (run (fun _ => EmptyString) os_hangs r1.1.2 5 2 true r1.2).2
  = S (length r1.2).
Proof.
  intros r1 a.
  assert (Hlast : last r1.2 = Some a) by reflexivity.
  assert (Hover : overran (a_child a) = true) by reflexivity.
  split; [exact Hlast|]. split; [exact Hover|].
  exact (run_again_never_retries (fun _ => EmptyString) os_hangs
           (CmdString "sleep 120") 1 5 2 true true a Hlast Hover).
Defined.

End TimedCommandReuse.

(** ** More on [PuppetTemplate]: escaping, totality, unused keys *)

Module PuppetTemplateMore.
Import Py Format PuppetTemplate.

(** How Puppet reads a single-quoted string: a backslash makes the next
    character literal. *)
Fixpoint unescape (s : string) : string :=
  match s with
  | EmptyString => EmptyString
  | String a rest =>
      if Ascii.eqb a backslash then
        match rest with
        | String b rest' => String b (unescape rest')
        | EmptyString => String a EmptyString
        end
      else String a (unescape rest)
  end.

Definition escape_char (a : ascii) : string :=
  if Ascii.eqb a backslash
  then String backslash (String backslash EmptyString)
  else if Ascii.eqb a "'"%char then String backslash "'"
  else String a EmptyString.

Lemma append_cons (a : ascii) (s1 s2 : string) :
  String a s1 ++ s2 = String a (s1 ++ s2).
Proof. reflexivity. Qed.

Lemma append_nil (s : string) : EmptyString ++ s = s.
Proof. reflexivity. Qed.

Lemma string_app_assoc (s1 s2 s3 : string) :
  (s1 ++ s2) ++ s3 = s1 ++ (s2 ++ s3).
Proof.
  induction s1 as [|a s1 IH]; [done|].
  by rewrite !append_cons, IH.
Qed.

Lemma replace_char_app (c : ascii) (by_ s1 s2 : string) :
  replace_char c by_ (s1 ++ s2)
  = replace_char c by_ s1 ++ replace_char c by_ s2.
Proof.
  induction s1 as [|a s1 IH]; [done|].
  rewrite append_cons. simpl.
  destruct (Ascii.eqb a c); rewrite IH.
  - by rewrite string_app_assoc.
  - by rewrite append_cons.
Qed.

Lemma escape_cons (a : ascii) (s : string) :
  escape (String a s) = escape_char a ++ escape s.
Proof.
  unfold escape, escape_char. simpl.
  destruct (Ascii.eqb a backslash) eqn:Ebs.
  - reflexivity.
  - simpl. destruct (Ascii.eqb a "'"%char); reflexivity.
Qed.

Lemma unescape_escape (contents : string) :
  unescape (escape contents) = contents.
Proof.
  induction contents as [|a s IH]; [done|].
  rewrite escape_cons. unfold escape_char.
  destruct (Ascii.eqb a backslash) eqn:Ebs.
  - apply Ascii.eqb_eq in Ebs. subst a.
    rewrite !append_cons, append_nil. simpl. by rewrite IH.
  - destruct (Ascii.eqb a "'"%char) eqn:Eq.
    + apply Ascii.eqb_eq in Eq. subst a.
      rewrite !append_cons, append_nil. simpl. by rewrite IH.
    + rewrite append_cons, append_nil. simpl. by rewrite Ebs, IH.
Qed.

(** X2. The escaping of a replacement file loses nothing: two different
    file contents never get the same escaped text. *)
Theorem escape_injective (contents other : string) :
  escape contents = escape other -> contents = other.
Proof.
  intros Heq. rewrite <- (unescape_escape contents), Heq.
  apply unescape_escape.
Qed.

Lemma escape_injective_witness :
  escape "it's" = escape "it's" /\ "it's" = "it's".
Proof.
  split; [reflexivity|]. apply (escape_injective "it's" "it's"). reflexivity.
Defined.

End PuppetTemplateMore.

(** ** cloudstack/big_patch.py: [deploy_to_all] returns *)

Module CloudStackReturn.
Import Py Format InterfaceConfig CloudStack.

Local Close Scope string_scope.

(** *** Threads are started before they are waited for, and waited for
    once started *)

Definition started_management (s : state) : bool :=
  match management s with NotStarted => false | _ => true end.

(** [awaited m r p]: running [p] with the management thread started iff
    [m] and the reboot thread started iff [r], the main thread waits only
    for a thread that was started. *)
Fixpoint awaited (m r : bool) (p : list instr) : bool :=
  match p with
  | [] => true
  | IStartManagement :: rest => awaited true r rest
  | IStartReboot :: rest => awaited m true rest
  | IJoinManagement :: rest => m && awaited m r rest
  | IJoinReboot :: rest => r && awaited m r rest
  | _ :: rest => awaited m r rest
  end.

(** [waited_for p]: whatever [p] starts, it waits for later on. *)
Fixpoint waited_for (p : list instr) : bool :=
  match p with
  | [] => true
  | IStartManagement :: rest =>
      bool_decide (IJoinManagement ∈ rest) && waited_for rest
  | IStartWorker q :: rest =>
      bool_decide (IJoinQueue q ∈ rest) && waited_for rest
  | IStartReboot :: rest =>
      bool_decide (IJoinReboot ∈ rest) && waited_for rest
  | _ :: rest => waited_for rest
  end.

Lemma main_program_awaited (compute_os : string) (has_mgmt : bool) :
  awaited false false (main_program compute_os has_mgmt) = true.
Proof.
  unfold main_program.
  destruct (String.eqb compute_os "ubuntu" || String.eqb compute_os "centos"),
    has_mgmt; vm_compute; reflexivity.
Qed.

Lemma main_program_waited_for (compute_os : string) (has_mgmt : bool) :
  waited_for (main_program compute_os has_mgmt) = true.
Proof.
  unfold main_program.
  destruct (String.eqb compute_os "ubuntu" || String.eqb compute_os "centos"),
    has_mgmt; vm_compute; reflexivity.
Qed.

Record waits (s : state) : Prop := {
  w_awaited : awaited (started_management s) (rebooted s) (prog s) = true;
  w_waited : waited_for (prog s) = true;
  w_management : management s = Running -> IJoinManagement ∈ prog s;
  w_reboot : reboot s = Running -> IJoinReboot ∈ prog s;
  w_queues : forall q,
    q ∈ spawned s -> JQueue q ∈ joined s \/ IJoinQueue q ∈ prog s
}.

Lemma starting_waits (s0 : state) : starting s0 -> waits s0.
Proof.
  intros [Hw Hm Hr Hl Hj Hb Hp].
  split; unfold started_management, rebooted, spawned;
    rewrite ?Hw, ?Hm, ?Hr; simpl; try done.
  - destruct Hp as [->|(os & m & ->)]; [done|]. apply main_program_awaited.
  - destruct Hp as [->|(os & m & ->)]; [done|]. apply main_program_waited_for.
  - intros q Hin. by apply elem_of_nil in Hin.
Qed.

Lemma elem_of_tail (i j : instr) (rest : list instr) :
  i ∈ j :: rest -> i <> j -> i ∈ rest.
Proof. intros [->|Hin]%elem_of_cons Hne; [done|done]. Qed.

Lemma waits_step (s s' : state) : waits s -> step s s' -> waits s'.
Proof.
  intros [Haw Hwf Hm Hr Hq] Hstep.
  unfold started_management, rebooted, spawned in *.
  destruct Hstep as
    [ rest s Hp | q rest s Hp | q rest s Hp Hzero | rest s Hp Hfin
    | rest s Hp | rest s Hp Hfin | msg rest s Hp | secs rest s Hp
    | q n rest before after s Hws Hitems
    | q n k before after s Hws Hcount
    | q n before after s Hws Hcount
    | s Hrun | s Hrun
    | q n before after s Hws | q n before after s Hws ];
    try (rewrite Hp in *; cbn [awaited waited_for] in Haw, Hwf).
  - (* start management *)
    apply andb_true_iff in Hwf as [Hin Hwf].
    apply bool_decide_eq_true in Hin.
    split; unfold started_management, rebooted, spawned; simpl; try done.
    + intros Hrun. apply (elem_of_tail _ IStartManagement); [by apply Hr|done].
    + intros q0 Hq0. destruct (Hq q0 Hq0) as [?|Hin']; [by left|right].
      by apply (elem_of_tail _ IStartManagement).
  - (* start worker *)
    apply andb_true_iff in Hwf as [Hin Hwf].
    apply bool_decide_eq_true in Hin.
    split; unfold started_management, rebooted, spawned; simpl; try done.
    + intros Hrun. apply (elem_of_tail _ (IStartWorker q)); [by apply Hm|done].
    + intros Hrun. apply (elem_of_tail _ (IStartWorker q)); [by apply Hr|done].
    + intros q0. rewrite map_app. simpl.
      intros [Hq0|Hq0]%elem_of_app.
      * destruct (Hq q0 Hq0) as [?|Hin']; [by left|right].
        by apply (elem_of_tail _ (IStartWorker q)).
      * apply list_elem_of_singleton in Hq0. subst q0. by right.
  - (* join queue *)
    split; unfold started_management, rebooted, spawned; simpl; try done.
    + intros Hrun. apply (elem_of_tail _ (IJoinQueue q)); [by apply Hm|done].
    + intros Hrun. apply (elem_of_tail _ (IJoinQueue q)); [by apply Hr|done].
    + intros q0 Hq0. destruct (Hq q0 Hq0) as [Hj|Hin'].
      * left. apply elem_of_app. by left.
      * destruct (decide (q0 = q)) as [->|Hne].
        -- left. apply elem_of_app. right. by apply list_elem_of_singleton.
        -- right. apply (elem_of_tail _ (IJoinQueue q)); [done|congruence].
  - (* join management *)
    apply andb_true_iff in Haw as [_ Haw].
    split; unfold started_management, rebooted, spawned; simpl; try done.
    + intros Hrun. congruence.
    + intros Hrun. apply (elem_of_tail _ IJoinManagement); [by apply Hr|done].
    + intros q0 Hq0. destruct (Hq q0 Hq0) as [Hj|Hin'].
      * left. apply elem_of_app. by left.
      * right. by apply (elem_of_tail _ IJoinManagement).
  - (* start reboot *)
    apply andb_true_iff in Hwf as [Hin Hwf].
    apply bool_decide_eq_true in Hin.
    split; unfold started_management, rebooted, spawned; simpl; try done.
    + intros Hrun. apply (elem_of_tail _ IStartReboot); [by apply Hm|done].
    + intros q0 Hq0. destruct (Hq q0 Hq0) as [?|Hin']; [by left|right].
      by apply (elem_of_tail _ IStartReboot).
  - (* join reboot *)
    apply andb_true_iff in Haw as [_ Haw].
    split; unfold started_management, rebooted, spawned; simpl; try done.
    + intros Hrun. apply (elem_of_tail _ IJoinReboot); [by apply Hm|done].
    + intros Hrun. congruence.
    + intros q0 Hq0. destruct (Hq q0 Hq0) as [?|Hin']; [by left|right].
      by apply (elem_of_tail _ IJoinReboot).
  - (* print *)
    split; unfold started_management, rebooted, spawned; simpl; try done.
    + intros Hrun. apply (elem_of_tail _ (IPrint msg)); [by apply Hm|done].
    + intros Hrun. apply (elem_of_tail _ (IPrint msg)); [by apply Hr|done].
    + intros q0 Hq0. destruct (Hq q0 Hq0) as [?|Hin']; [by left|right].
      by apply (elem_of_tail _ (IPrint msg)).
  - (* sleep *)
    split; unfold started_management, rebooted, spawned; simpl; try done.
    + intros Hrun. apply (elem_of_tail _ (ISleep secs)); [by apply Hm|done].
    + intros Hrun. apply (elem_of_tail _ (ISleep secs)); [by apply Hr|done].
    + intros q0 Hq0. destruct (Hq q0 Hq0) as [?|Hin']; [by left|right].
      by apply (elem_of_tail _ (ISleep secs)).
  - (* get *)
    rewrite Hws in Hq.
    split; unfold started_management, rebooted, spawned; simpl; try done.
    intros q0.
    rewrite (spawned_middle (idle_on q) (taken q n)) by apply taken_queue.
    apply Hq.
  - (* task_done *)
    rewrite Hws in Hq.
    split; unfold started_management, rebooted, spawned; simpl; try done.
    intros q0.
    rewrite (spawned_middle (busy_on q n) (released q n))
      by apply released_queue.
    apply Hq.
  - (* task_done, error *)
    rewrite Hws in Hq.
    split; unfold started_management, rebooted, spawned; simpl; try done.
    intros q0. rewrite map_app. simpl. intros Hq0. apply Hq.
    by rewrite map_app.
  - (* management done *)
    rewrite Hrun in Haw.
    split; unfold started_management, rebooted, spawned; simpl; try done.
  - (* reboot done *)
    rewrite Hrun in Haw.
    split; unfold started_management, rebooted, spawned; simpl; try done.
  - (* the line before the command *)
    rewrite Hws in Hq.
    split; unfold started_management, rebooted, spawned; simpl; try done.
    intros q0. rewrite (spawned_middle (announcing_on q n) (busy_on q n));
      [apply Hq|done].
  - (* the line after [task_done()] *)
    rewrite Hws in Hq.
    split; unfold started_management, rebooted, spawned; simpl; try done.
    intros q0. rewrite (spawned_middle (reporting_on q n) (idle_on q));
      [apply Hq|done].
Qed.

Lemma waits_reachable (s0 s : state) :
  starting s0 -> rtc step s0 s -> waits s.
Proof.
  intros Hstart. revert s. apply rtc_ind_r.
  - by apply starting_waits.
  - intros s s' _ Hstep IH. by eapply waits_step.
Qed.

(** *** Some thread can always move until the main thread returns *)

Lemma pool_full_at_join (s0 s : state) (q : queue) (rest : list instr) :
  starting s0 -> invariant s0 s -> prog s = IJoinQueue q :: rest ->
  length (workers_of q s) = MAX_WORKERS.
Proof.
  intros Hstart Hinv Hp.
  pose proof (inv_pool _ _ Hinv q) as Hpool.
  destruct (inv_suffix _ _ Hinv) as [done_ Hdone].
  rewrite Hp in Hdone, Hpool.
  destruct (start_prog _ Hstart) as [Hnil|(os & m & Hmain)].
  - rewrite Hnil in Hdone. by apply app_cons_not_nil in Hdone.
  - destruct (main_program_pools os m) as [Hclosed _].
    rewrite Hmain in Hdone, Hpool.
    assert (Hjoin : closed (fun q => to_start q (main_program os m))
                      (done_ ++ IJoinQueue q :: rest) = true)
      by (by rewrite <- Hdone).
    apply closed_at_join in Hjoin as [Hrest Htotal].
    rewrite to_start_cons, decide_False in Hpool by done. lia.
Qed.

Lemma holder_is_busy (q : queue) (ws : list worker) :
  holders q ws <> [] ->
  exists n before after,
    ws = before ++ busy_on q n :: after \/
    ws = before ++ announcing_on q n :: after.
Proof.
  intros Hne. destruct (holders q ws) as [|n l] eqn:E; [done|].
  assert (Hn : n ∈ holders q ws) by (rewrite E; by left).
  apply list_elem_of_omap in Hn as (w & Hw & Hhold).
  apply list_elem_of_split in Hw as (before & after & ->).
  exists n, before, after.
  destruct w as [q' st]. unfold holding in Hhold. simpl in Hhold.
  destruct st as [|n'| |n'|n']; try done.
  all: destruct (decide (q' = q)) as [->|]; [|done]; injection Hhold as ->.
  - by left.
  - by right.
Qed.

Lemma progress (s0 s : state) :
  starting s0 -> invariant s0 s -> waits s ->
  prog s <> [] -> exists s', step s s'.
Proof.
  intros Hstart Hinv Hwaits Hp.
  destruct (prog s) as [|[|q|q| | | |msg|secs] rest] eqn:Ep; [done|..].
  - eexists. by apply step_start_management.
  - eexists. by apply step_start_worker.
  - (* q.join() *)
    destruct (unfinished_tasks (queues s q)) as [|k] eqn:Ecount.
    { eexists. by apply step_join_queue. }
    destruct (holders q (workers s)) as [|n0 l] eqn:Ehold.
    + pose proof (acc_count _ _ (inv_accounted _ _ Hinv) q) as Hcount.
      rewrite Ecount, Ehold in Hcount. simpl in Hcount.
      destruct (items (queues s q)) as [|n rest'] eqn:Eitems;
        [simpl in Hcount; lia|].
      pose proof (pool_full_at_join s0 s q rest Hstart Hinv Ep) as Hfull.
      destruct (workers_of q s) as [|w ws] eqn:Ews;
        [simpl in Hfull; unfold MAX_WORKERS in Hfull; lia|].
      assert (Hw : w ∈ workers_of q s) by (rewrite Ews; by left).
      apply list_elem_of_filter in Hw as [Hq Hin].
      pose proof (not_busy_idle s0 s q w Hinv Ehold Hin Hq) as Hidle.
      apply list_elem_of_split in Hin as (before & after & Hws).
      destruct Hidle as [Hidle|(n' & Hrep & _)].
      * assert (Hw : w = idle_on q).
        { destruct w as [q' st]. simpl in *. by subst. }
        subst w. eexists. by eapply step_get.
      * assert (Hw : w = reporting_on q n').
        { destruct w as [q' st]. simpl in *. by subst. }
        subst w. eexists. by eapply step_report.
    + destruct (holder_is_busy q (workers s))
        as (n & before & after & [Hws|Hws]).
      { by rewrite Ehold. }
      * eexists. by eapply step_task_done.
      * eexists. by eapply step_announce.
  - (* management_node_thread.join() *)
    pose proof (w_awaited _ Hwaits) as Haw. rewrite Ep in Haw. simpl in Haw.
    apply andb_true_iff in Haw as [Hm _]. unfold started_management in Hm.
    destruct (management s) eqn:Em; [done| |].
    + eexists. by apply step_management_done.
    + eexists. by apply step_join_management.
  - eexists. by apply step_start_reboot.
  - (* t.join() on the reboot thread *)
    pose proof (w_awaited _ Hwaits) as Haw. rewrite Ep in Haw. simpl in Haw.
    apply andb_true_iff in Haw as [Hr _]. unfold rebooted in Hr.
    destruct (reboot s) eqn:Er; [done| |].
    + eexists. by apply step_reboot_done.
    + eexists. by apply step_join_reboot.
  - eexists. by apply step_print.
  - eexists. by eapply step_sleep.
Qed.

(** X3. Until the main thread of [deploy_to_all] has returned, some thread
    can move in every state the threads can reach: no [join] waits for
    work that nobody will do. *)
Theorem deploy_to_all_never_stuck
    (generate_command_for_node : world -> Node -> result (gmap string string))
    (isfile : string -> bool) (compute_os mgmt_os : string)
    (nodes : list Node) (s0 s : state) :
  deploy_to_all generate_command_for_node isfile compute_os mgmt_os nodes
  = Ok s0 ->
  rtc step s0 s ->
  prog s <> [] ->
  exists s', step s s'.
Proof.
  intros Hdeploy Hreach.
  pose proof (deploy_to_all_starting _ _ _ _ _ _ Hdeploy) as Hstart.
  apply (progress s0 s Hstart).
  - by apply invariant_reachable.
  - by apply (waits_reachable s0).
Qed.

Lemma deploy_to_all_never_stuck_witness :
  deploy_to_all keep_files all_present "xenserver" "ubuntu" xen_nodes
  = Ok xen_start /\
  rtc step xen_start (run 24 xen_start) /\
  prog (run 24 xen_start) <> [] /\
  exists s', step (run 24 xen_start) s'.
Proof.
  assert (Hp : prog (run 24 xen_start) <> []) by (vm_compute; discriminate).
  split; [reflexivity|]. split; [apply run_reachable|]. split; [exact Hp|].
  apply (deploy_to_all_never_stuck keep_files all_present "xenserver" "ubuntu"
           xen_nodes xen_start (run 24 xen_start)).
  - reflexivity.
  - apply run_reachable.
  - exact Hp.
Defined.

(** *** Every schedule is finite *)

Definition thread_weight (t : tstate) : nat :=
  match t with Running => 1 | _ => 0 end.

(** A node waiting on a queue is still to be taken and to be
    acknowledged; on the queue of step 7 two lines are printed for it as
    well. *)
Definition item_weight (q : queue) : nat := if prints q then 3 else 2.

Definition queue_weight (q : queue) (v : Queue) : nat :=
  item_weight q * length (items v) + unfinished_tasks v.

Definition queues_weight (qs : queue -> Queue) : nat :=
  sum_list (map (fun q => queue_weight q (qs q)) all_queues).

(** What a worker does before it is back in [get()], its [task_done()]
    apart. *)
Definition state_weight (st : wstate) : nat :=
  match st with
  | Announcing _ => 2
  | Busy _ | Reporting _ => 1
  | Idle | Crashed => 0
  end.

Definition workers_weight (ws : list worker) : nat :=
  sum_list (map (fun w => state_weight (w_state w)) ws).

(** What is left to do: instructions of the main thread, nodes to take
    and to acknowledge, commands that are running, lines to print. *)
Definition weight (s : state) : nat :=
  2 * length (prog s) + queues_weight (queues s)
  + workers_weight (workers s)
  + thread_weight (management s) + thread_weight (reboot s).

Lemma queues_weight_update (q : queue) (v : Queue) (qs : queue -> Queue) :
  queues_weight (update q v qs) + queue_weight q (qs q)
  = queues_weight qs + queue_weight q v.
Proof.
  unfold queues_weight, all_queues, update.
  destruct q; simpl; lia.
Qed.

Lemma workers_weight_app (ws ws' : list worker) :
  workers_weight (ws ++ ws') = workers_weight ws + workers_weight ws'.
Proof.
  unfold workers_weight. induction ws as [|w ws IH]; simpl; [done|].
  rewrite IH. lia.
Qed.

Lemma workers_weight_middle (w : worker) (before after : list worker) :
  workers_weight (before ++ w :: after)
  = workers_weight before + state_weight (w_state w) + workers_weight after.
Proof. rewrite workers_weight_app. unfold workers_weight. simpl. lia. Qed.

Lemma taken_weight (q : queue) (n : Node) :
  state_weight (w_state (taken q n)) < item_weight q.
Proof. unfold taken, item_weight. destruct (prints q); simpl; lia. Qed.

Lemma released_weight (q : queue) (n : Node) :
  state_weight (w_state (released q n)) <= 1.
Proof. unfold released. destruct (prints q); simpl; lia. Qed.

Lemma step_weight (s s' : state) : step s s' -> weight s' < weight s.
Proof.
  unfold weight.
  destruct 1 as
    [ rest s Hp | q rest s Hp | q rest s Hp Hzero | rest s Hp Hfin
    | rest s Hp | rest s Hp Hfin | msg rest s Hp | secs rest s Hp
    | q n rest before after s Hws Hitems
    | q n k before after s Hws Hcount
    | q n before after s Hws Hcount
    | s Hrun | s Hrun
    | q n before after s Hws | q n before after s Hws ]; simpl;
    try (rewrite Hp; simpl; destruct (management s), (reboot s); simpl; lia).
  - rewrite Hp, workers_weight_app. unfold workers_weight at 2. simpl.
    destruct (management s), (reboot s); simpl; lia.
  - pose proof (queues_weight_update q
                  {| items := rest;
                     unfinished_tasks := unfinished_tasks (queues s q) |}
                  (queues s)) as Hq.
    pose proof (taken_weight q n) as Ht.
    unfold got. unfold queue_weight in Hq. simpl in Hq.
    rewrite Hitems in Hq. simpl in Hq.
    rewrite Hws, !workers_weight_middle. simpl. nia.
  - pose proof (queues_weight_update q
                  {| items := items (queues s q); unfinished_tasks := k |}
                  (queues s)) as Hq.
    pose proof (released_weight q n) as Ht.
    unfold acknowledged. unfold queue_weight in Hq. simpl in Hq.
    rewrite Hcount in Hq.
    rewrite Hws, !workers_weight_middle. simpl. lia.
  - rewrite Hws, !workers_weight_middle. simpl. lia.
  - rewrite Hrun. simpl. lia.
  - rewrite Hrun. simpl. lia.
  - rewrite Hws, !workers_weight_middle. simpl. lia.
  - rewrite Hws, !workers_weight_middle. simpl. lia.
Qed.

Lemma nsteps_weight (n : nat) (s s' : state) :
  nsteps step n s s' -> n + weight s' <= weight s.
Proof.
  induction 1 as [s|n s s1 s2 Hstep _ IH]; [lia|].
  apply step_weight in Hstep. lia.
Qed.

Lemma can_return (s0 : state) :
  starting s0 ->
  forall k s, weight s <= k -> rtc step s0 s ->
    exists s', rtc step s s' /\ prog s' = [].
Proof.
  intros Hstart. induction k as [|k IH]; intros s Hle Hreach.
  - exists s. split; [done|]. unfold weight in Hle.
    destruct (prog s); [done|simpl in Hle; lia].
  - destruct (prog s) as [|i rest] eqn:Ep; [by exists s|].
    destruct (progress s0 s Hstart) as [s1 Hstep].
    + by apply invariant_reachable.
    + by apply (waits_reachable s0).
    + by rewrite Ep.
    + destruct (IH s1) as (s' & Hrun & Hdone).
      * apply step_weight in Hstep. lia.
      * by eapply rtc_r.
      * exists s'. split; [by eapply rtc_l|done].
Qed.

(** The number of steps the reference schedule takes. *)
Fixpoint steps_taken (fuel : nat) (s : state) : nat :=
  match fuel with
  | 0 => 0
  | S fuel' =>
      match next s with
      | Some s' => S (steps_taken fuel' s')
      | None => 0
      end
  end.

Lemma run_nsteps (fuel : nat) (s : state) :
  nsteps step (steps_taken fuel s) s (run fuel s).
Proof.
  revert s. induction fuel as [|fuel IH]; intros s; simpl; [constructor|].
  destruct (next s) as [s'|] eqn:E; [|constructor].
  eapply nsteps_l; [by apply next_sound|apply IH].
Qed.

(** X4. Every schedule of the threads of [deploy_to_all] is finite, with
    at most [weight s0] steps, and from every state the threads can reach
    the main thread can still run to its return: provided every command
    returns, [deploy_to_all] returns. *)
Theorem deploy_to_all_returns
    (generate_command_for_node : world -> Node -> result (gmap string string))
    (isfile : string -> bool) (compute_os mgmt_os : string)
    (nodes : list Node) (s0 s : state) (n : nat) :
  deploy_to_all generate_command_for_node isfile compute_os mgmt_os nodes
  = Ok s0 ->
  nsteps step n s0 s ->
  n <= weight s0 /\
  exists s', rtc step s s' /\ prog s' = [].
Proof.
  intros Hdeploy Hsteps.
  pose proof (deploy_to_all_starting _ _ _ _ _ _ Hdeploy) as Hstart.
  split.
  - apply nsteps_weight in Hsteps. lia.
  - apply (can_return s0 Hstart (weight s)); [done|].
    by eapply rtc_nsteps_2.
Qed.

Lemma deploy_to_all_returns_witness :
  deploy_to_all keep_files all_present "ubuntu" "ubuntu" ubuntu_nodes
  = Ok ubuntu_start /\
  nsteps step (steps_taken 5 ubuntu_start) ubuntu_start (run 5 ubuntu_start) /\
  steps_taken 5 ubuntu_start <= weight ubuntu_start /\
  exists s', rtc step (run 5 ubuntu_start) s' /\ prog s' = [].
Proof.
  split; [reflexivity|]. split; [apply run_nsteps|].
  apply (deploy_to_all_returns keep_files all_present "ubuntu" "ubuntu"
           ubuntu_nodes ubuntu_start (run 5 ubuntu_start)
           (steps_taken 5 ubuntu_start)).
  - reflexivity.
  - apply run_nsteps.
Defined.

(** *** The state in which the main thread returns *)

(** A worker that is back in [get()], or a worker of step 7 that has
    acknowledged its node and has still to print that it has finished. *)
Definition at_rest (s : state) (w : worker) : Prop :=
  w_state w = Idle \/
  exists n, w_state w = Reporting n /\ w_queue w = xen_check_bond_q /\
            n ∈ completed xen_check_bond_q (log s).

Lemma returned_settled (s0 s : state) :
  starting s0 -> invariant s0 s -> waits s -> prog s = [] ->
  (forall w, w ∈ workers s -> at_rest s w) /\
  management s <> Running /\ reboot s <> Running /\
  forall q, q ∈ spawned s -> drained s0 s q.
Proof.
  intros Hstart Hinv Hwaits Hp.
  assert (Hjoined : forall q, q ∈ spawned s -> JQueue q ∈ joined s).
  { intros q Hq. destruct (w_queues _ Hwaits q Hq) as [|Hin]; [done|].
    rewrite Hp in Hin. by apply elem_of_nil in Hin. }
  split; [|split; [|split]].
  - intros w Hin.
    assert (Hq : w_queue w ∈ spawned s).
    { unfold spawned. by apply list_elem_of_fmap_2. }
    destruct (joined_drained s0 s _ Hinv (Hjoined _ Hq)) as (_ & _ & Hnil & _).
    destruct (not_busy_idle s0 s (w_queue w) w Hinv Hnil Hin eq_refl)
      as [Hidle|(n & Hrep & Hcb & Hn)]; [by left|].
    right. exists n. rewrite Hcb in Hn. done.
  - intros Hrun. pose proof (w_management _ Hwaits Hrun) as Hin.
    rewrite Hp in Hin. by apply elem_of_nil in Hin.
  - intros Hrun. pose proof (w_reboot _ Hwaits Hrun) as Hin.
    rewrite Hp in Hin. by apply elem_of_nil in Hin.
  - intros q Hq. apply (joined_drained s0 s q Hinv). by apply Hjoined.
Qed.

(** X5. When the main thread of [deploy_to_all] returns, no node is being
    worked on: every worker is back in [get()], or it is a worker of step 7
    that has acknowledged its node and has still to print that it has
    finished; neither the setup nor the reboot of the management node is
    running; and every queue that has workers is drained, each node put on
    it completed. *)
Theorem return_leaves_no_work
    (generate_command_for_node : world -> Node -> result (gmap string string))
    (isfile : string -> bool) (compute_os mgmt_os : string)
    (nodes : list Node) (s0 s : state) :
  deploy_to_all generate_command_for_node isfile compute_os mgmt_os nodes
  = Ok s0 ->
  rtc step s0 s ->
  prog s = [] ->
  (forall w, w ∈ workers s ->
     w_state w = Idle \/
     exists n, w_state w = Reporting n /\ w_queue w = xen_check_bond_q /\
               n ∈ completed xen_check_bond_q (log s)) /\
  management s <> Running /\ reboot s <> Running /\
  forall q, q ∈ spawned s -> drained s0 s q.
Proof.
  intros Hdeploy Hreach Hp.
  pose proof (deploy_to_all_starting _ _ _ _ _ _ Hdeploy) as Hstart.
  apply (returned_settled s0 s Hstart); [|by apply (waits_reachable s0)|done].
  by apply invariant_reachable.
Qed.

Lemma return_leaves_no_work_witness :
  deploy_to_all keep_files all_present "xenserver" "ubuntu" xen_nodes
  = Ok xen_start /\
  rtc step xen_start (run 97 xen_start) /\
  prog (run 97 xen_start) = [] /\
  (forall w, w ∈ workers (run 97 xen_start) ->
     w_state w = Idle \/
     exists n, w_state w = Reporting n /\ w_queue w = xen_check_bond_q /\
               n ∈ completed xen_check_bond_q (log (run 97 xen_start))) /\
  management (run 97 xen_start) <> Running /\
  reboot (run 97 xen_start) <> Running /\
  forall q, q ∈ spawned (run 97 xen_start) ->
    drained xen_start (run 97 xen_start) q.
Proof.
  assert (Hp : prog (run 97 xen_start) = []) by (vm_compute; reflexivity).
  split; [reflexivity|]. split; [apply run_reachable|]. split; [exact Hp|].
  apply (return_leaves_no_work keep_files all_present "xenserver" "ubuntu"
           xen_nodes xen_start (run 97 xen_start)).
  - reflexivity.
  - apply run_reachable.
  - exact Hp.
Defined.

(** The second case is met: with one hypervisor, the main thread can
    return while the worker that checked its bond has not yet printed that
    it has finished; the line is printed after the last line of the main
    thread, if the process lives that long. *)
Lemma return_before_last_line :
  rtc step xen_start (run 97 xen_start) /\
  prog (run 97 xen_start) = [] /\
  map w_state (filter (fun w => is_idle w = false) (workers (run 97 xen_start)))
  = [Reporting (sample_node "10.0.0.3" "compute" (PStr "pool1"))] /\
  last (output (run 97 xen_start))
  = Some ("CloudStack deployment finished" +:+ nl)%string /\
  step (run 97 xen_start) (run 98 xen_start) /\
  last (output (run 98 xen_start))
  = Some ("finish checking bond on 10.0.0.3" +:+ nl)%string.
Proof.
  split; [apply run_reachable|].
  split; [vm_compute; reflexivity|]. split; [vm_compute; reflexivity|].
  split; [vm_compute; reflexivity|].
  split; [|vm_compute; reflexivity].
  apply next_sound. vm_compute. reflexivity.
Qed.

(** *** Ubuntu and CentOS: only the workers of step 1 are started *)

Section Unpooled.

Variable generate_command_for_node :
  world -> Node -> result (gmap string string).
Variable isfile : string -> bool.

Lemma enqueue_node_os (st st' : setup) (node : Node) :
  enqueue_node generate_command_for_node st node = Ok st' ->
  COMPUTE_OS (globals st') = COMPUTE_OS (globals st) /\
  MGMT_OS (globals st') = MGMT_OS (globals st).
Proof.
  unfold enqueue_node. intros Hst.
  destruct (is_str (role node) "management");
    repeat match type of Hst with
           | context [if ?c then _ else _] => destruct c
           end;
    match type of Hst with
    | context [generate_command_for_node ?w ?n] =>
        destruct (generate_command_for_node w n); [|done]
    end;
    injection Hst as <-; simpl; done.
Qed.

Lemma enqueue_all_os (nodes : list Node) (st st' : setup) :
  enqueue_all generate_command_for_node st nodes = Ok st' ->
  COMPUTE_OS (globals st') = COMPUTE_OS (globals st) /\
  MGMT_OS (globals st') = MGMT_OS (globals st).
Proof.
  revert st. induction nodes as [|node rest IH]; intros st; simpl.
  - by intros [= <-].
  - destruct (enqueue_node generate_command_for_node st node) as [st1|e]
      eqn:E; [|done].
    intros Hrest. destruct (IH st1 Hrest) as [-> ->].
    by apply (enqueue_node_os st st1 node).
Qed.

Lemma deploy_to_all_prog (compute_os mgmt_os : string) (nodes : list Node)
    (s0 : state) :
  deploy_to_all generate_command_for_node isfile compute_os mgmt_os nodes
  = Ok s0 ->
  prog s0 = [] \/ exists has_mgmt, prog s0 = main_program compute_os has_mgmt.
Proof.
  unfold deploy_to_all.
  destruct (enqueue_all generate_command_for_node
              (fresh compute_os mgmt_os) nodes) as [st|e] eqn:E; [|done].
  simpl. destruct (enqueue_all_os _ _ _ E) as [Hos _]. simpl in Hos.
  destruct (preflight isfile st); intros [= <-]; simpl; [by left|].
  right. rewrite Hos. eauto.
Qed.

End Unpooled.

Lemma unpooled_to_start (compute_os : string) (has_mgmt : bool) (q : queue) :
  compute_os = "ubuntu"%string \/ compute_os = "centos"%string ->
  q <> node_q ->
  to_start q (main_program compute_os has_mgmt) = 0.
Proof.
  intros [-> | ->] Hq; destruct q, has_mgmt; try done; vm_compute; reflexivity.
Qed.

Lemma step_queue_untouched (s s' : state) (q : queue) :
  step s s' -> workers_of q s = [] -> queues s' q = queues s q.
Proof.
  intros Hstep Hnone.
  assert (Hno : forall st before after,
             workers s <> before ++ {| w_queue := q; w_state := st |} :: after).
  { intros st before after Hws. unfold workers_of in Hnone.
    rewrite Hws, workers_of_replace, decide_True in Hnone by done.
    apply app_eq_nil in Hnone as [_ Hnone]. done. }
  destruct Hstep as
    [ rest s Hp | q' rest s Hp | q' rest s Hp Hzero | rest s Hp Hfin
    | rest s Hp | rest s Hp Hfin | msg rest s Hp | secs rest s Hp
    | q' n rest before after s Hws Hitems
    | q' n k before after s Hws Hcount
    | q' n before after s Hws Hcount
    | s Hrun | s Hrun
    | q' n before after s Hws | q' n before after s Hws ]; simpl; try done.
  - unfold got. apply update_other. intros ->. by eapply Hno.
  - unfold acknowledged. apply update_other. intros ->. by eapply Hno.
Qed.

Lemma begun_none (s : state) (q : queue) :
  sequenced s -> q ∉ spawned s -> begun q (log s) = [].
Proof.
  intros Hseq Hnot.
  destruct (begun q (log s)) as [|n l] eqn:E; [done|].
  exfalso. apply Hnot.
  assert (Hn : n ∈ begun q (log s)) by (rewrite E; by left).
  apply list_elem_of_omap in Hn as (e & He & Hb).
  apply (seq_begun _ Hseq q n).
  destruct e as [q' n'| | | | |]; simpl in Hb; try done.
  destruct (decide (q' = q)) as [->|]; [|done]. by injection Hb as ->.
Qed.

Lemma workers_of_none_spawned (s : state) (q : queue) :
  workers_of q s = [] -> q ∉ spawned s.
Proof.
  intros Hnone Hin. unfold spawned in Hin.
  apply list_elem_of_fmap in Hin as (w & Hq & Hw).
  assert (Hf : w ∈ workers_of q s) by (by apply list_elem_of_filter).
  rewrite Hnone in Hf. by apply elem_of_nil in Hf.
Qed.

Lemma unpooled_untouched (s0 s : state) (q : queue) :
  starting s0 -> to_start q (prog s0) = 0 -> rtc step s0 s ->
  workers_of q s = [] /\ queues s q = queues s0 q /\ begun q (log s) = [].
Proof.
  intros Hstart Hzero Hreach.
  assert (Hnone : forall s, rtc step s0 s -> workers_of q s = []).
  { intros s1 Hr. pose proof (invariant_reachable s0 s1 Hstart Hr) as Hinv.
    pose proof (inv_pool _ _ Hinv q) as Hpool.
    apply length_zero_iff_nil. lia. }
  split; [by apply Hnone|]. split.
  - revert s Hreach. apply rtc_ind_r; [done|].
    intros s s' Hr Hstep IH. rewrite <- IH.
    apply step_queue_untouched; [done|]. by apply Hnone.
  - apply begun_none.
    + by apply (inv_sequenced s0), invariant_reachable.
    + apply workers_of_none_spawned. by apply Hnone.
Qed.

(** X6. On Ubuntu and CentOS no worker of steps 2 to 7 is ever started:
    the nodes that the loop put on [node_mgmtintf_q] and
    [xen_check_bond_q] stay there, the queues other than [node_q] are
    never touched and none of their nodes is begun. *)
Theorem unpooled_queues_never_served
    (generate_command_for_node : world -> Node -> result (gmap string string))
    (isfile : string -> bool) (compute_os mgmt_os : string)
    (nodes : list Node) (s0 s : state) (q : queue) :
  compute_os = "ubuntu"%string \/ compute_os = "centos"%string ->
  deploy_to_all generate_command_for_node isfile compute_os mgmt_os nodes
  = Ok s0 ->
  rtc step s0 s ->
  q <> node_q ->
  workers_of q s = [] /\ queues s q = queues s0 q /\ begun q (log s) = [].
Proof.
  intros Hos Hdeploy Hreach Hq.
  pose proof (deploy_to_all_starting _ _ _ _ _ _ Hdeploy) as Hstart.
  apply (unpooled_untouched s0 s q Hstart); [|done].
  destruct (deploy_to_all_prog _ _ _ _ _ _ Hdeploy) as [->|[m ->]]; [done|].
  by apply unpooled_to_start.
Qed.

Lemma unpooled_queues_never_served_witness :
  ("ubuntu"%string = "ubuntu"%string \/ "ubuntu"%string = "centos"%string) /\
  deploy_to_all keep_files all_present "ubuntu" "ubuntu" ubuntu_nodes
  = Ok ubuntu_start /\
  rtc step ubuntu_start (run 200 ubuntu_start) /\
  node_mgmtintf_q <> node_q /\
  workers_of node_mgmtintf_q (run 200 ubuntu_start) = [] /\
  queues (run 200 ubuntu_start) node_mgmtintf_q
  = queues ubuntu_start node_mgmtintf_q /\
  begun node_mgmtintf_q (log (run 200 ubuntu_start)) = [].
Proof.
  split; [by left|]. split; [reflexivity|]. split; [apply run_reachable|].
  split; [done|].
  apply (unpooled_queues_never_served keep_files all_present "ubuntu" "ubuntu"
           ubuntu_nodes ubuntu_start (run 200 ubuntu_start) node_mgmtintf_q).
  - by left.
  - reflexivity.
  - apply run_reachable.
  - done.
Defined.

End CloudStackReturn.

(** ** cloudstack/big_patch.py: what the loop over the nodes leaves *)

Module CloudStackQueues.
Import Py Format InterfaceConfig CloudStack.

Local Close Scope string_scope.

Definition is_management (n : Node) : bool := is_str (role n) "management".
Definition is_compute (n : Node) : bool := is_str (role n) "compute".

(** [COMPUTE_OS == "xenserver" and node.role == "compute"] *)
Definition xen_compute (compute_os : string) (n : Node) : bool :=
  String.eqb compute_os "xenserver" && is_compute n.

(** Whether the iteration for [node] puts it on [q], in the world [w] it
    starts from. *)
Definition placed (w : world) (node : Node) (q : queue) : bool :=
  let known := in_keys (xenserver_pool node) (MASTER_NODES w) in
  match q with
  | node_q | node_mgmtintf_q | xen_check_bond_q => negb (is_management node)
  | xen_master_node_q | xen_master_node_reboot_q =>
      xen_compute (COMPUTE_OS w) node && negb known
  | xen_slave_node_q | xen_slave_node_reboot_q =>
      xen_compute (COMPUTE_OS w) node && known
  end.

Section Loop.

Variable generate_command_for_node :
  world -> Node -> result (gmap string string).

Ltac enqueue_cases Hst st node :=
  unfold enqueue_node in Hst;
  unfold placed, xen_compute, is_management, is_compute;
  destruct (is_str (role node) "management") eqn:Emg; simpl in Hst;
  destruct (String.eqb (COMPUTE_OS (globals st)) "xenserver") eqn:Eos;
  simpl in Hst;
  destruct (is_str (role node) "compute") eqn:Ecp; simpl in Hst;
  destruct (in_keys (xenserver_pool node) (MASTER_NODES (globals st)))
    eqn:Ekn; simpl in Hst;
  (match type of Hst with
   | context [generate_command_for_node ?w ?n] =>
       destruct (generate_command_for_node w n); [|done]
   end);
  injection Hst as <-; simpl.

Lemma enqueue_node_items (st st' : setup) (node : Node) (q : queue) :
  enqueue_node generate_command_for_node st node = Ok st' ->
  items (queues0 st' q)
  = items (queues0 st q) ++ if placed (globals st) node q then [node] else [].
Proof.
  intros Hst.
  enqueue_cases Hst st node; destruct q; unfold put_on, update; simpl;
    rewrite ?app_nil_r; reflexivity.
Qed.

Lemma enqueue_node_globals (st st' : setup) (node : Node) :
  enqueue_node generate_command_for_node st node = Ok st' ->
  let w := globals st in
  let pool := xenserver_pool node in
  COMPUTE_OS (globals st') = COMPUTE_OS w /\
  MANAGEMENT_NODE (globals st')
  = (if is_management node then Some node else MANAGEMENT_NODE w) /\
  MASTER_NODES (globals st')
  = (if placed w node xen_master_node_q
     then dict_set pool node (MASTER_NODES w) else MASTER_NODES w) /\
  POOL_SIZES (globals st')
  = (if placed w node xen_master_node_q
     then dict_set pool 1 (POOL_SIZES w)
     else if placed w node xen_slave_node_q
     then dict_set pool (dict_get pool 1 (POOL_SIZES w) + 1) (POOL_SIZES w)
     else POOL_SIZES w).
Proof.
  intros Hst. enqueue_cases Hst st node; done.
Qed.

Lemma enqueue_node_printed (st st' : setup) (node : Node) :
  enqueue_node generate_command_for_node st node = Ok st' ->
  printed0 st'
  = printed0 st
    ++ if placed (globals st) node xen_master_node_q
       then [master_line node] else [].
Proof.
  intros Hst. enqueue_cases Hst st node; rewrite ?app_nil_r; reflexivity.
Qed.

(** What the loop prints: one line for each master, after the first line
    of [deploy_to_all]. *)
Lemma enqueue_all_printed (nodes : list Node) :
  forall st st',
    enqueue_all generate_command_for_node st nodes = Ok st' ->
    forall first,
      printed0 st
      = first :: map master_line (items (queues0 st xen_master_node_q)) ->
      printed0 st'
      = first :: map master_line (items (queues0 st' xen_master_node_q)).
Proof.
  induction nodes as [|node rest IH]; intros st st'; simpl.
  - by intros [= <-].
  - destruct (enqueue_node generate_command_for_node st node) as [st1|e]
      eqn:E; [|done].
    intros Hrest first Hst. apply (IH st1 st' Hrest).
    rewrite (enqueue_node_printed st st1 node E), Hst.
    rewrite (enqueue_node_items st st1 node xen_master_node_q E), map_app.
    by destruct (placed (globals st) node xen_master_node_q).
Qed.

Lemma enqueue_all_base (nodes : list Node) :
  forall st st',
    enqueue_all generate_command_for_node st nodes = Ok st' ->
    (forall q,
       q = node_q \/ q = node_mgmtintf_q \/ q = xen_check_bond_q ->
       items (queues0 st' q)
       = items (queues0 st q)
         ++ filter (fun n => is_management n = false) nodes) /\
    MANAGEMENT_NODE (globals st')
    = match last (filter (fun n => is_management n = true) nodes) with
      | Some n => Some n
      | None => MANAGEMENT_NODE (globals st)
      end.
Proof.
  induction nodes as [|node rest IH]; intros st st'; simpl.
  - intros [= <-]. split; [|done]. intros q _. by rewrite app_nil_r.
  - destruct (enqueue_node generate_command_for_node st node) as [st1|e]
      eqn:E; [|done].
    intros Hrest. destruct (IH st1 st' Hrest) as [Hq Hm].
    destruct (enqueue_node_globals st st1 node E) as (_ & Hmg & _).
    split.
    + intros q Hcase. rewrite (Hq q Hcase).
      rewrite (enqueue_node_items st st1 node q E), filter_cons.
      assert (Hpl : placed (globals st) node q = negb (is_management node))
        by (by destruct Hcase as [->|[->| ->]]).
      rewrite Hpl. destruct (is_management node); simpl.
      * by rewrite app_nil_r.
      * by rewrite <- app_assoc.
    + rewrite Hm, Hmg, filter_cons.
      destruct (is_management node) eqn:Emg; simpl; [|done].
      rewrite last_cons. by destruct (last _).
Qed.

(** *** Keys of the dictionaries: [==] is an equivalence on scalars *)




Section Dict.

Context {V : Type}.
Implicit Types d : list (pyval * V).









End Dict.

(** *** Pools *)








(** X7. After the loop over the configured nodes, [node_q],
    [node_mgmtintf_q] and [xen_check_bond_q] each hold the nodes whose
    role is not [management], in the order of the configuration, whatever
    the OS; and [MANAGEMENT_NODE] is the last node whose role is
    [management], so that an earlier management node is on no queue and is
    not deployed. *)
Theorem enqueue_all_base_queues (compute_os mgmt_os : string)
    (nodes : list Node) (st : setup) :
  enqueue_all generate_command_for_node (fresh compute_os mgmt_os) nodes
  = Ok st ->
  let others := filter (fun n => is_management n = false) nodes in
  items (queues0 st node_q) = others /\
  items (queues0 st node_mgmtintf_q) = others /\
  items (queues0 st xen_check_bond_q) = others /\
  MANAGEMENT_NODE (globals st)
  = last (filter (fun n => is_management n = true) nodes).
Proof.
  intros Hst.
  destruct (enqueue_all_base nodes _ _ Hst) as [Hq Hm]. simpl in Hq, Hm.
  split; [|split; [|split]].
  - apply Hq. by left.
  - apply Hq. right. by left.
  - apply Hq. right. by right.
  - rewrite Hm. by destruct (last _).
Qed.



End Loop.

(** Two hypervisors in one pool, a third alone in another and a
    management node. *)
Definition pool_nodes : list Node :=
  [sample_node "10.0.0.3" "compute" (PStr "pool1");
   sample_node "10.0.0.1" "management" PNone;
   sample_node "10.0.0.4" "compute" (PStr "pool1");
   sample_node "10.0.0.5" "compute" (PStr "pool2")].

Definition pool_setup : setup :=
  match enqueue_all keep_files (fresh "xenserver" "ubuntu") pool_nodes with
  | Ok st => st
  | Raise _ => fresh "xenserver" "ubuntu"
  end.

Lemma enqueue_all_base_queues_witness :
  enqueue_all keep_files (fresh "xenserver" "ubuntu") pool_nodes
  = Ok pool_setup /\
  let others := filter (fun n => is_management n = false) pool_nodes in
  items (queues0 pool_setup node_q) = others /\
  items (queues0 pool_setup node_mgmtintf_q) = others /\
  items (queues0 pool_setup xen_check_bond_q) = others /\
  MANAGEMENT_NODE (globals pool_setup)
  = last (filter (fun n => is_management n = true) pool_nodes).
Proof.
  split; [vm_compute; reflexivity|].
  apply (enqueue_all_base_queues keep_files "xenserver" "ubuntu" pool_nodes).
  vm_compute. reflexivity.
Defined.



(** *** The guards and the packages the nodes need *)


















(** *** When the guards let the deployment start *)

(** X10. [deploy_to_all] stops at a guard only if one of the seven
    packages is absent from [/tmp]: when all are there it starts the
    program of the main thread, and with XenServer hypervisors and no
    management node it starts whatever [/tmp] holds. By then it has
    printed its first line and one line for the master of each pool. *)
Theorem deploy_to_all_starts_when_nothing_missing
    (generate_command_for_node : world -> Node -> result (gmap string string))
    (isfile : string -> bool) (compute_os mgmt_os : string)
    (nodes : list Node) (st : setup) :
  enqueue_all generate_command_for_node (fresh compute_os mgmt_os) nodes
  = Ok st ->
  let s0 :=
    launch st (main_program compute_os (has_management (globals st))) [] in
  output s0
  = ("Prepare cloud stack packages" +:+ nl)%string
    :: map master_line (items (queues0 st xen_master_node_q)) /\
  ((forall p, p ∈ packages -> in_tmp isfile p = true) ->
   deploy_to_all generate_command_for_node isfile compute_os mgmt_os nodes
   = Ok s0) /\
  (compute_os = "xenserver"%string ->
   has_management (globals st) = false ->
   forall isfile',
     deploy_to_all generate_command_for_node isfile' compute_os mgmt_os nodes
     = Ok s0).
Proof.
  intros Hst s0.
  destruct (CloudStackReturn.enqueue_all_os _ _ _ _ Hst) as [Hos Hmos].
  simpl in Hos, Hmos.
  split; [|split].
  - unfold s0. simpl. rewrite app_nil_r.
    by rewrite (enqueue_all_printed generate_command_for_node nodes _ _ Hst
                  _ eq_refl).
  - intros Hall. unfold deploy_to_all. rewrite Hst. simpl. rewrite Hos.
    assert (Hnone : preflight isfile st = None); [|by rewrite Hnone].
    unfold preflight.
    rewrite !Hall by (unfold packages; set_solver).
    simpl. by rewrite !andb_false_r.
  - intros -> Hm isfile'. unfold deploy_to_all. rewrite Hst. simpl.
    rewrite Hos.
    assert (Hnone : preflight isfile' st = None); [|by rewrite Hnone].
    unfold preflight. rewrite Hos, Hm. simpl. by rewrite !andb_false_r.
Qed.

Definition xen_setup : setup :=
  match enqueue_all keep_files (fresh "xenserver" "ubuntu") xen_nodes with
  | Ok st => st
  | Raise _ => fresh "xenserver" "ubuntu"
  end.

Lemma deploy_to_all_starts_when_nothing_missing_witness :
  enqueue_all keep_files (fresh "xenserver" "ubuntu") xen_nodes
  = Ok xen_setup /\
  let s0 :=
    launch xen_setup
      (main_program "xenserver" (has_management (globals xen_setup))) [] in
  output s0
  = ("Prepare cloud stack packages" +:+ nl)%string
    :: map master_line (items (queues0 xen_setup xen_master_node_q)) /\
  ((forall p, p ∈ packages -> in_tmp none_present p = true) ->
   deploy_to_all keep_files none_present "xenserver" "ubuntu" xen_nodes
   = Ok s0) /\
  ("xenserver"%string = "xenserver"%string ->
   has_management (globals xen_setup) = false ->
   forall isfile',
     deploy_to_all keep_files isfile' "xenserver" "ubuntu" xen_nodes
     = Ok s0).
Proof.
  assert (Hst : enqueue_all keep_files (fresh "xenserver" "ubuntu") xen_nodes
                = Ok xen_setup) by (vm_compute; reflexivity).
  split; [exact Hst|].
  exact (deploy_to_all_starts_when_nothing_missing keep_files none_present
           "xenserver" "ubuntu" xen_nodes xen_setup Hst).
Defined.

(** What the one-hypervisor configuration has printed when its threads
    start. *)
Lemma xen_start_output :
  output xen_start
  = [("Prepare cloud stack packages" +:+ nl)%string;
     ("Master node of xenserver pool pool1 is: 10.0.0.3" +:+ nl)%string].
Proof. vm_compute. reflexivity. Qed.

End CloudStackQueues.

(** ** openstack/big_patch.py: [deploy_to_all] ends with its report *)

Module ConfigDeployerReport.
Import ConfigDeployer.

Local Close Scope string_scope.

(** *** Every schedule is finite *)

Definition pc_weight (s : state) : nat :=
  match pc s with
  | LoopHead => MAX_THREADS + 1
  | Joining _ => MAX_THREADS + 2
  | Started => MAX_THREADS + 3
  | FinalJoin i => 1 + (length (thread_list s) - i)
  | Done => 0
  end.

(** What is left to do: nodes to start a thread for, steps of the main
    thread, threads that are running. *)
Definition weight (s : state) : nat :=
  4 * length (pending s) + pc_weight s + running_threads s.

Lemma running_middle (t : thread) (before after : list thread) :
  length (filter (fun t => is_running t = true) (before ++ t :: after))
  = length (filter (fun t => is_running t = true) before)
    + (if is_running t then 1 else 0)
    + length (filter (fun t => is_running t = true) after).
Proof.
  rewrite filter_app, filter_cons, length_app.
  destruct (is_running t) eqn:E.
  - rewrite decide_True by done. simpl. lia.
  - rewrite decide_False by done. simpl. lia.
Qed.

Lemma running_single (t : thread) :
  length (filter (fun t => is_running t = true) [t])
  = if is_running t then 1 else 0.
Proof.
  rewrite filter_cons, filter_nil.
  destruct (is_running t) eqn:E;
    [rewrite decide_True by done|rewrite decide_False by done]; done.
Qed.

Lemma thread_step_weight (nodes : list node) (s s' : state) :
  inv nodes s -> step s s' -> weight s' < weight s.
Proof.
  intros [_ _ _ Hbound _] Hstep.
  unfold weight, pc_weight, running_threads, all_threads, joining.
  destruct Hstep as
    [ n rest s Hpend Hpc | s Hpc Hlen | top rest s Hpc Hlen Hlist
    | top s Hpc Hfin | s Hpend Hpc | i t s Hpc Hlook Hfin
    | i s Hpc Hlook | before t after o s Hlist Hrun | t o s Hpc Hrun ];
    simpl; rewrite ?Hpc in *; simpl; unfold MAX_THREADS in *; try lia.
  - rewrite Hpend, !filter_app, !length_app. simpl. lia.
  - rewrite Hlist. lia.
  - rewrite <- app_assoc. simpl. lia.
  - apply lookup_lt_Some in Hlook. lia.
  - rewrite Hlist, !length_app. simpl.
    rewrite !(app_assoc _ before), !(app_assoc (joined s)), !running_middle.
    assert (Hfin : is_running (finish t o) = false) by done.
    rewrite Hfin, Hrun. destruct (pc s); lia.
  - rewrite !running_middle, Hrun.
    assert (Hfin : is_running (finish t o) = false) by done.
    rewrite Hfin. lia.
Qed.

Lemma nsteps_thread_weight (nodes : list node) (n : nat) (s s' : state) :
  inv nodes s -> nsteps step n s s' -> n + weight s' <= weight s.
Proof.
  intros Hinv Hsteps. induction Hsteps as [s|n s s1 s2 Hstep _ IH]; [lia|].
  pose proof (thread_step_weight nodes s s1 Hinv Hstep).
  assert (inv nodes s1) by (by eapply inv_step).
  specialize (IH ltac:(done)). lia.
Qed.

Lemma can_finish (nodes : list node) :
  forall k s, weight s <= k -> reachable nodes s ->
    exists s', rtc step s s' /\ pc s' = Done.
Proof.
  induction k as [|k IH]; intros s Hle Hreach.
  - exists s. split; [done|]. unfold weight, pc_weight in Hle.
    destruct (pc s); unfold MAX_THREADS in *; try done; lia.
  - assert (Hcase : pc s = Done \/ pc s <> Done)
      by (destruct (pc s); (by left) || (by right)).
    destruct Hcase as [Hdone|Hnot]; [by exists s|].
    destruct (step_progress s Hnot) as [s1 Hstep].
    destruct (IH s1) as (s' & Hrun & Hdone).
    + pose proof (thread_step_weight nodes s s1
                    (inv_reachable _ _ Hreach) Hstep).
      lia.
    + by eapply rtc_r.
    + exists s'. split; [by eapply rtc_l|done].
Qed.

(** X11. Every schedule of the OpenStack [deploy_to_all] is finite: over
    [length nodes] nodes it takes at most [4 * length nodes + MAX_THREADS + 1]
    steps, and from every state it can reach the report can still be
    printed: provided every [deploy_to_node] ends, [deploy_to_all] ends. *)
Theorem deploy_to_all_ends (nodes : list node) (n : nat) (s : state) :
  nsteps step n (initial nodes) s ->
  n <= 4 * length nodes + MAX_THREADS + 1 /\
  exists s', rtc step s s' /\ pc s' = Done.
Proof.
  intros Hsteps. split.
  - pose proof (nsteps_thread_weight nodes n _ _ (inv_initial nodes) Hsteps) as H.
    assert (Hw : weight (initial nodes) = 4 * length nodes + MAX_THREADS + 1).
    { unfold weight, pc_weight, running_threads, MAX_THREADS. simpl. lia. }
    lia.
  - apply (can_finish nodes (weight s)); [done|].
    by eapply rtc_nsteps_2.
Qed.

Lemma two_nodes_done_steps :
  nsteps step 10 (initial ["n1"%string; "n2"%string]) two_nodes_done.
Proof.
  unfold two_nodes_done.
  eapply nsteps_l; [by eapply step_start|]. simpl.
  eapply nsteps_l; [apply step_below; [done|simpl; unfold MAX_THREADS; lia]|].
  simpl.
  eapply nsteps_l; [by eapply step_start|]. simpl.
  eapply nsteps_l; [apply step_below; [done|simpl; unfold MAX_THREADS; lia]|].
  simpl.
  eapply nsteps_l; [by apply step_loop_end|]. simpl.
  eapply nsteps_l;
    [by eapply (step_thread_listed [] _ _ (Raised "boom"%string))|]. simpl.
  eapply nsteps_l; [by eapply (step_final_join 0)|]. simpl.
  eapply nsteps_l;
    [by eapply (step_thread_listed [_] _ _ (Returned None))|]. simpl.
  eapply nsteps_l; [by eapply (step_final_join 1)|]. simpl.
  eapply nsteps_l; [by eapply (step_report 2)|]. simpl.
  apply nsteps_O.
Defined.

Lemma deploy_to_all_ends_witness :
  nsteps step 10 (initial ["n1"%string; "n2"%string]) two_nodes_done /\
  10 <= 4 * length ["n1"%string; "n2"%string] + MAX_THREADS + 1 /\
  exists s', rtc step two_nodes_done s' /\ pc s' = Done.
Proof.
  split; [exact two_nodes_done_steps|].
  apply (deploy_to_all_ends ["n1"%string; "n2"%string] 10 two_nodes_done).
  exact two_nodes_done_steps.
Defined.

(** *** The last line of the report *)

Local Open Scope string_scope.

Definition complete : string := "Deployment Complete!".

Lemma complete_not_in_failure_report (errs info : list (node * string)) :
  errs <> [] -> complete ∉ report errs info.
Proof.
  intros Hne Hin. unfold report in Hin.
  apply elem_of_app in Hin as [Hin|Hin].
  - destruct (Nat.ltb 1 _); [|by apply elem_of_nil in Hin].
    apply list_elem_of_singleton in Hin. discriminate Hin.
  - destruct errs as [|e errs]; [done|].
    apply elem_of_cons in Hin as [Hin|Hin]; [discriminate Hin|].
    apply list_elem_of_fmap in Hin as (ne & Heq & _).
    discriminate Heq.
Qed.

Lemma complete_in_success_report (info : list (node * string)) :
  complete ∈ report [] info.
Proof.
  unfold report. apply elem_of_app. right. by apply list_elem_of_singleton.
Qed.

Lemma omap_raised_nil (ts : list thread) :
  omap raised ts = [] <-> Forall (fun t => raised t = None) ts.
Proof.
  induction ts as [|t ts IH]; simpl; [done|].
  rewrite Forall_cons. destruct (raised t) eqn:E.
  - split; [done|]. by intros [? _].
  - rewrite IH. tauto.
Qed.

(** X12. Once the report is printed, [Deployment Complete!] is among the
    lines [deploy_to_all] printed if and only if no [deploy_to_node]
    raised on any configured node. *)
Theorem complete_iff_no_failure (nodes : list node) (s : state) :
  reachable nodes s ->
  pc s = Done ->
  complete ∈ printed s <-> Forall (fun t => raised t = None) (all_threads s).
Proof.
  intros [Hnodes Herrs Hjoined Hbound Hfinal]%inv_reachable Hpc.
  rewrite Hpc in Hfinal. destruct Hfinal as (_ & _ & ->).
  rewrite <- omap_raised_nil.
  split.
  - intros Hin. destruct (errors s) as [|e errs] eqn:E.
    + by apply Permutation_nil in Herrs.
    + exfalso. by apply (complete_not_in_failure_report (e :: errs)) in Hin.
  - intros Hnil. rewrite Hnil in Herrs. symmetry in Herrs.
    apply Permutation_nil in Herrs.
    rewrite Herrs. apply complete_in_success_report.
Qed.

Lemma complete_iff_no_failure_witness :
  reachable ["n1"%string; "n2"%string] two_nodes_done /\
  pc two_nodes_done = Done /\
  (complete ∈ printed two_nodes_done
   <-> Forall (fun t => raised t = None) (all_threads two_nodes_done)).
Proof.
  split; [exact two_nodes_done_reachable|]. split; [reflexivity|].
  apply (complete_iff_no_failure ["n1"%string; "n2"%string]).
  - exact two_nodes_done_reachable.
  - reflexivity.
Defined.

End ConfigDeployerReport.

(** ** openstack/big_patch.py: [PuppetTemplate.get_string], whole *)

Module PuppetTemplateFiles.
Import Py Format PuppetTemplate.

Section Bodies.

Variable neutron_body : string.
Variable bond_and_lldpd_configuration : string.

(** X13. A replacement file added to a template changes the manifest by
    one [file] resource appended at its end, after the resources of the
    files added before; it changes nothing else, and whether rendering
    fails does not depend on it. *)
Theorem get_string_add_replacement_file (self : PuppetTemplate)
    (path contents : string) :
  get_string neutron_body bond_and_lldpd_configuration
    (add_replacement_file self path contents)
  = (fun manifest => manifest ++ file_resource path contents)
    <$> get_string neutron_body bond_and_lldpd_configuration self.
Proof.
  unfold PuppetTemplate.get_string, add_replacement_file, getitem.
  cbn [settings files_to_replace].
  destruct (format main_body (settings self)) as [m|e]; [|done].
  cbn [mbind result_bind bind].
  destruct (settings self !! "neutron_path") as [np|]; [|done].
  cbn [mbind result_bind bind].
  destruct (if truthy np then _ else _) as [m'|e]; [|done].
  cbn [mbind result_bind bind].
  destruct (settings self !! "bond_interfaces") as [bi|]; [|done].
  cbn [mbind result_bind bind fmap result_fmap].
  by rewrite fold_left_app.
Qed.

(** The template as [deploy_to_node] builds it: the settings computed
    for the node, the path of its neutron package, then the files to
    replace. *)
Definition node_template (puppet_settings : gmap string pyval)
    (neutron_path : pyval) (files : list (string * string))
  : PuppetTemplate :=
  fold_left (fun ptemplate file => add_replacement_file ptemplate file.1 file.2)
    files
    (setitem (__init__ puppet_settings) "neutron_path" neutron_path).

Lemma fold_files_settings (files : list (string * string)) :
  forall t,
    settings
      (fold_left
         (fun ptemplate file => add_replacement_file ptemplate file.1 file.2)
         files t)
    = settings t.
Proof.
  induction files as [|f files IH]; intros t; simpl; [done|].
  by rewrite IH.
Qed.

Lemma settings_cover (given defaults : gmap string pyval) (v : pyval)
    (k : string) :
  is_Some (defaults !! k) ->
  is_Some (<["neutron_path" := v]> (given ∪ defaults) !! k).
Proof.
  intros Hk. apply lookup_insert_is_Some'. right.
  apply lookup_union_is_Some. by right.
Qed.

Lemma default_bond_interfaces : is_Some (default_settings !! "bond_interfaces").
Proof. apply (bool_decide_unpack _). vm_compute. exact I. Qed.

(** X14. The manifest of a node is always rendered when the node has no
    neutron package path (an empty or false path): the neutron body is
    then not formatted at all. With a path it is rendered as soon as the
    neutron body is well formed and each key it asks for is among the
    settings. The keys of the main body and [bond_interfaces] never make
    it fail, since [__init__] gives each a default. *)
Theorem manifest_rendered (puppet_settings : gmap string pyval)
    (neutron_path : pyval) (files : list (string * string)) :
  (truthy neutron_path = true ->
   well_formed neutron_body = true /\
   forall k, k ∈ keys neutron_body ->
     is_Some (<["neutron_path" := neutron_path]>
                (puppet_settings ∪ default_settings) !! k)) ->
  exists out,
    get_string neutron_body bond_and_lldpd_configuration
      (node_template puppet_settings neutron_path files)
    = Ok out.
Proof.
  intros Hbody.
  unfold PuppetTemplate.get_string, getitem, node_template.
  rewrite fold_files_settings. unfold setitem, __init__.
  cbn [settings files_to_replace].
  revert Hbody.
  pose proof main_body_well_formed as Hwf.
  pose proof main_body_keys_have_defaults as Hkeys.
  pose proof default_bond_interfaces as Hbond.
  revert Hwf Hkeys Hbond.
  generalize main_body as body. generalize default_settings as defaults.
  intros defaults body Hwf Hkeys Hbond Hbody.
  set (S := <["neutron_path" := neutron_path]> (puppet_settings ∪ defaults))
    in *.
  destruct (format_ok S body Hwf) as [m Hm].
  { intros k Hk. by apply settings_cover, Hkeys. }
  rewrite Hm. cbn [mbind result_bind bind].
  assert (Hnp : S !! "neutron_path" = Some neutron_path)
    by apply lookup_insert_eq.
  rewrite Hnp. cbn [mbind result_bind bind].
  destruct (settings_cover puppet_settings defaults neutron_path
              "bond_interfaces" Hbond) as [bi Hbi].
  fold S in Hbi.
  destruct (truthy neutron_path) eqn:Etruthy.
  - destruct (Hbody eq_refl) as [Hwf' Hkeys'].
    destruct (format_ok S neutron_body Hwf' Hkeys') as [m' Hm'].
    rewrite Hm'. cbn [mbind result_bind bind fmap result_fmap].
    rewrite Hbi. cbn [mbind result_bind bind]. by eexists.
  - cbn [mbind result_bind bind]. rewrite Hbi.
    cbn [mbind result_bind bind]. by eexists.
Qed.

End Bodies.

Definition sample_body : string := "$neutron_path = '%(neutron_path)s'".

Lemma manifest_rendered_witness :
  (truthy (PStr "/usr/lib/python2.7/dist-packages/neutron") = true ->
   well_formed sample_body = true /\
   forall k, k ∈ keys sample_body ->
     is_Some (<["neutron_path" :=
                  PStr "/usr/lib/python2.7/dist-packages/neutron"]>
                (∅ ∪ default_settings) !! k)) /\
  exists out,
    get_string sample_body EmptyString
      (node_template ∅ (PStr "/usr/lib/python2.7/dist-packages/neutron") [])
    = Ok out.
Proof.
  assert (H : truthy (PStr "/usr/lib/python2.7/dist-packages/neutron") = true ->
              well_formed sample_body = true /\
              forall k, k ∈ keys sample_body ->
                is_Some (<["neutron_path" :=
                             PStr "/usr/lib/python2.7/dist-packages/neutron"]>
                           (∅ ∪ default_settings) !! k)).
  { intros _. split; [vm_compute; reflexivity|].
    apply Forall_forall. apply (bool_decide_unpack _). vm_compute. exact I. }
  split; [exact H|].
  exact (manifest_rendered sample_body EmptyString ∅
           (PStr "/usr/lib/python2.7/dist-packages/neutron") [] H).
Defined.

End PuppetTemplateFiles.

(** ** openstack/big_patch.py: settings of a node in [ConfigEnvironment] *)

Module ConfigEnvironment.
Import Py Format.

(** *** The string methods the class uses *)

Definition comma : ascii := ","%char.
Definition colon : ascii := ":"%char.

(** [s.split(sep)] for a one-character [sep]: never the empty list. *)
Fixpoint split (sep : ascii) (s : string) : list string :=
  match s with
  | EmptyString => [EmptyString]
  | String a rest =>
      if Ascii.eqb a sep then EmptyString :: split sep rest
      else match split sep rest with
           | piece :: pieces => String a piece :: pieces
           | [] => [String a EmptyString]
           end
  end.

(** [s.count(c)] *)
Fixpoint count (c : ascii) (s : string) : nat :=
  match s with
  | EmptyString => 0
  | String a rest => (if Ascii.eqb a c then 1 else 0) + count c rest
  end.

(** [s.rstrip(...)] and [s.lstrip(...)], given the characters to drop. *)
Fixpoint rstrip_by (drop : ascii -> bool) (s : string) : string :=
  match s with
  | EmptyString => EmptyString
  | String a rest =>
      match rstrip_by drop rest with
      | EmptyString => if drop a then EmptyString else String a EmptyString
      | kept => String a kept
      end
  end.

Fixpoint lstrip_by (drop : ascii -> bool) (s : string) : string :=
  match s with
  | EmptyString => EmptyString
  | String a rest => if drop a then lstrip_by drop rest else s
  end.

(** The characters [isspace] accepts in a [str]: space, and tab to
    carriage return. *)
Definition is_space (a : ascii) : bool :=
  let n := nat_of_ascii a in
  Nat.eqb n 32 || (Nat.leb 9 n && Nat.leb n 13).

(** [s.strip()] and [s.rstrip(',')] *)
Definition strip (s : string) : string :=
  rstrip_by is_space (lstrip_by is_space s).

Definition rstrip (c : ascii) (s : string) : string :=
  rstrip_by (fun a => Ascii.eqb a c) s.

(** [sep.join(pieces)] *)
Definition join (sep : ascii) (pieces : list string) : string :=
  String.concat (String sep EmptyString) pieces.

Definition nonempty (s : string) : bool :=
  match s with EmptyString => false | String _ _ => true end.

Lemma app_String (a : ascii) (s1 s2 : string) :
  String a s1 ++ s2 = String a (s1 ++ s2).
Proof. reflexivity. Qed.

Lemma app_Empty (s : string) : EmptyString ++ s = s.
Proof. reflexivity. Qed.

Lemma split_not_nil (sep : ascii) (s : string) : split sep s <> [].
Proof.
  destruct s as [|a rest]; simpl; [done|].
  destruct (Ascii.eqb a sep); [done|]. by destruct (split sep rest).
Qed.

Lemma length_split (sep : ascii) (s : string) :
  length (split sep s) = S (count sep s).
Proof.
  induction s as [|a rest IH]; simpl; [done|].
  destruct (Ascii.eqb a sep); simpl; [by rewrite IH|].
  destruct (split sep rest); simpl in *; [done|lia].
Qed.

Lemma split_pieces (sep : ascii) (s : string) :
  Forall (fun p => count sep p = 0) (split sep s).
Proof.
  induction s as [|a rest IH]; simpl.
  - by apply Forall_singleton.
  - destruct (Ascii.eqb a sep) eqn:E.
    + by apply Forall_cons.
    + destruct (split sep rest) as [|p ps].
      * apply Forall_singleton. simpl. by rewrite E.
      * apply Forall_cons in IH as [Hp Hps]. apply Forall_cons.
        split; [|done]. simpl. by rewrite E.
Qed.

Lemma split_free (sep : ascii) (p : string) :
  count sep p = 0 -> split sep p = [p].
Proof.
  induction p as [|a rest IH]; simpl; [done|].
  destruct (Ascii.eqb a sep); [done|]. intros H. by rewrite IH.
Qed.

Lemma split_app_sep (sep : ascii) (p rest : string) :
  count sep p = 0 ->
  split sep (p ++ String sep rest) = p :: split sep rest.
Proof.
  induction p as [|a p IH]; intros H.
  - rewrite app_Empty. simpl. by rewrite Ascii.eqb_refl.
  - rewrite app_String. simpl in *.
    destruct (Ascii.eqb a sep); [done|]. by rewrite IH.
Qed.

Lemma split_join (sep : ascii) (pieces : list string) :
  pieces <> [] ->
  Forall (fun p => count sep p = 0) pieces ->
  split sep (join sep pieces) = pieces.
Proof.
  unfold join. induction pieces as [|p ps IH]; [done|].
  intros _ [Hp Hps]%Forall_cons. destruct ps as [|q ps].
  - simpl. by apply split_free.
  - change (String.concat (String sep EmptyString) (p :: q :: ps))
      with (p ++ String sep EmptyString
              ++ String.concat (String sep EmptyString) (q :: ps)).
    rewrite app_String, app_Empty, split_app_sep by done.
    by rewrite IH.
Qed.

(** *** What stripping keeps *)

Lemma count_lstrip_by (drop : ascii -> bool) (c : ascii) (s : string) :
  drop c = false -> count c (lstrip_by drop s) = count c s.
Proof.
  intros Hc. induction s as [|a rest IH]; simpl; [done|].
  destruct (drop a) eqn:Ea; [|done].
  rewrite IH. destruct (Ascii.eqb a c) eqn:E; [|done].
  apply Ascii.eqb_eq in E. congruence.
Qed.

Lemma count_rstrip_by (drop : ascii -> bool) (c : ascii) (s : string) :
  drop c = false -> count c (rstrip_by drop s) = count c s.
Proof.
  intros Hc. induction s as [|a rest IH]; simpl; [done|].
  destruct (rstrip_by drop rest) as [|b kept] eqn:Er.
  - simpl in IH. rewrite <- IH.
    destruct (drop a) eqn:Ea; simpl; [|lia].
    destruct (Ascii.eqb a c) eqn:E; [|done].
    apply Ascii.eqb_eq in E. congruence.
  - simpl in *. by rewrite IH.
Qed.

Lemma count_strip (c : ascii) (s : string) :
  is_space c = false -> count c (strip s) = count c s.
Proof.
  intros Hc. unfold strip.
  by rewrite count_rstrip_by, count_lstrip_by.
Qed.

Lemma rstrip_by_idemp (drop : ascii -> bool) (s : string) :
  rstrip_by drop (rstrip_by drop s) = rstrip_by drop s.
Proof.
  induction s as [|a rest IH]; simpl; [done|].
  destruct (rstrip_by drop rest) as [|b kept] eqn:Er.
  - destruct (drop a) eqn:Ea; simpl; [done|]. by rewrite Ea.
  - change (rstrip_by drop (String a (String b kept)))
      with (match rstrip_by drop (String b kept) with
            | EmptyString => if drop a then EmptyString else String a EmptyString
            | kept' => String a kept'
            end).
    by rewrite IH.
Qed.

Definition head_kept (drop : ascii -> bool) (s : string) : Prop :=
  match s with
  | EmptyString => True
  | String a _ => drop a = false
  end.

Lemma lstrip_by_head (drop : ascii -> bool) (s : string) :
  head_kept drop (lstrip_by drop s).
Proof.
  induction s as [|a rest IH]; simpl; [done|].
  destruct (drop a) eqn:Ea; [done|]. simpl. done.
Qed.

Lemma lstrip_by_kept (drop : ascii -> bool) (s : string) :
  head_kept drop s -> lstrip_by drop s = s.
Proof. destruct s as [|a rest]; simpl; [done|]. by intros ->. Qed.

Lemma rstrip_by_head (drop : ascii -> bool) (s : string) :
  head_kept drop s -> head_kept drop (rstrip_by drop s).
Proof.
  destruct s as [|a rest]; simpl; [done|]. intros Ha.
  destruct (rstrip_by drop rest); simpl; [by rewrite Ha|done].
Qed.

Lemma strip_idemp (s : string) : strip (strip s) = strip s.
Proof.
  unfold strip. rewrite lstrip_by_kept.
  - apply rstrip_by_idemp.
  - apply rstrip_by_head, lstrip_by_head.
Qed.

Lemma rstrip_by_free (drop : ascii -> bool) (s : string) :
  s <> EmptyString ->
  (forall c, drop c = true -> count c s = 0) ->
  rstrip_by drop s = s.
Proof.
  induction s as [|a rest IH]; [done|]. intros _ Hfree. simpl.
  assert (Ha : drop a = false).
  { destruct (drop a) eqn:Ea; [|done].
    specialize (Hfree a Ea). simpl in Hfree.
    rewrite Ascii.eqb_refl in Hfree. lia. }
  destruct rest as [|b rest].
  - simpl. by rewrite Ha.
  - rewrite IH; [done|done|].
    intros c Hc. specialize (Hfree c Hc). simpl in *. lia.
Qed.

(** *** The methods *)

(** A node of [settings['nodes']]: a dictionary of scalars. *)
Definition setting : Type := gmap string pyval.

Definition type_name (v : pyval) : string :=
  match v with
  | PNone => "NoneType"
  | PBool _ => "bool"
  | PInt _ => "int"
  | PStr _ => "str"
  end.

Definition no_attribute (v : pyval) (method : string) : exn :=
  AttributeError
    ("'" ++ type_name v ++ "' object has no attribute '" ++ method ++ "'").

(** [n['hostname']] *)
Definition hostname_of (n : setting) : result pyval :=
  match n !! "hostname" with
  | Some h => Ok h
  | None => Raise (KeyError "hostname")
  end.

(** [[i for i in v.split(',') if i]] *)
Definition bond_interfaces_of (v : pyval) : result (list string) :=
  match v with
  | PStr s => Ok (List.filter nonempty (split comma s))
  | _ => Raise (no_attribute v "split")
  end.

(** [get_node_bond_interfaces(node)]: the interfaces and what is
    printed. The first node of that name answers. *)
Fixpoint get_node_bond_interfaces (nodes : list setting) (node : pyval)
  : result (list string * list string) :=
  match nodes with
  | [] => Ok ([], ["Node " ++ py_str node ++ " has no bond interfaces."])
  | n :: rest =>
      h ← hostname_of n;
      if CloudStack.py_eqb h node
      then interfaces ← bond_interfaces_of
                          (default (PStr EmptyString) (n !! "bond_interfaces"));
           Ok (interfaces, [])
      else get_node_bond_interfaces rest node
  end.

(** The loop of [get_node_bridge_mappings] and [get_node_phy_bridge]:
    it runs to the end, so the last node of that name answers. *)
Fixpoint last_setting (key : string) (nodes : list setting) (node : pyval)
    (found : pyval) : result pyval :=
  match nodes with
  | [] => Ok found
  | n :: rest =>
      h ← hostname_of n;
      last_setting key rest node
        (if CloudStack.py_eqb h node then default PNone (n !! key) else found)
  end.

(** The message of the [raise] in the loop over the pairs has two [%s]
    and is given one string: what is raised is the error of [%]. *)
Definition not_enough_arguments : exn :=
  TypeError "not enough arguments for format string".

Fixpoint clean_pieces (pieces : list string) : result (list string) :=
  match pieces with
  | [] => Ok []
  | m :: rest =>
      if negb (Nat.eqb (length (split colon m)) 2)
      then Raise not_enough_arguments
      else cleaned ← clean_pieces rest; Ok (strip m :: cleaned)
  end.

(** From [cleaned = []] to [return ','.join(cleaned)]. *)
Definition clean_bridge_mappings (br_mappings : pyval) : result string :=
  match br_mappings with
  | PStr s =>
      cleaned ← clean_pieces (split comma (rstrip comma s));
      Ok (join comma cleaned)
  | _ => Raise (no_attribute br_mappings "rstrip")
  end.

Definition get_node_bridge_mappings (nodes : list setting) (node : pyval)
  : result string :=
  br_mappings ← last_setting "bridge_mappings" nodes node PNone;
  if negb (truthy br_mappings)
  then Raise (Exception ("Node " ++ py_str node
                         ++ " is missing bridge_mappings "
                         ++ "which is required for the OVS agent."))
  else clean_bridge_mappings br_mappings.

(** [StandaloneEnvironment]: the setting is the constructor's argument,
    whatever the node. *)
Module StandaloneEnvironment.

Definition get_node_bridge_mappings (bridge_mappings : pyval) (node : pyval)
  : result string :=
  if negb (truthy bridge_mappings)
  then Raise (Exception "Missing bridge_mappings setting")
  else clean_bridge_mappings bridge_mappings.

End StandaloneEnvironment.

Definition get_node_phy_bridge (nodes : list setting) (node : pyval)
  : result pyval :=
  phy_br ← last_setting "physical_interface_bridge" nodes node PNone;
  if negb (truthy phy_br)
  then Raise (Exception ("Node " ++ py_str node
                         ++ " is missing physical_interface_bridge "
                         ++ "which is required for bonding configuration."))
  else Ok phy_br.

(** *** Bond interfaces *)

Lemma filter_nonempty_split (s : string) :
  Forall (fun i => nonempty i = true /\ count comma i = 0)
    (List.filter nonempty (split comma s)).
Proof.
  pose proof (split_pieces comma s) as H.
  induction H as [|p ps Hp _ IH]; simpl; [done|].
  destruct (nonempty p) eqn:E; [|done]. by apply Forall_cons.
Qed.

Lemma filter_nonempty_all (l : list string) :
  Forall (fun i => nonempty i = true /\ count comma i = 0) l ->
  List.filter nonempty l = l.
Proof.
  induction 1 as [|p ps [Hp _] _ IH]; simpl; [done|].
  by rewrite Hp, IH.
Qed.

Lemma interfaces_round_trip (l : list string) :
  Forall (fun i => nonempty i = true /\ count comma i = 0) l ->
  List.filter nonempty (split comma (join comma l)) = l.
Proof.
  intros H. destruct l as [|p ps]; [done|].
  rewrite split_join; [by apply filter_nonempty_all|done|].
  eapply Forall_impl; [exact H|]. by intros i [_ ?].
Qed.

(** X15. The bond interfaces [get_node_bond_interfaces] returns are
    never empty names and hold no comma, and they survive the way
    [deploy_to_node] passes them on: splitting [','.join(interfaces)] at
    the commas and dropping empty pieces gives the same list. *)
Theorem bond_interfaces_round_trip (nodes : list setting) (node : pyval)
    (interfaces printed : list string) :
  get_node_bond_interfaces nodes node = Ok (interfaces, printed) ->
  Forall (fun i => nonempty i = true /\ count comma i = 0) interfaces /\
  bond_interfaces_of (PStr (join comma interfaces)) = Ok interfaces.
Proof.
  intros Hget.
  assert (H : Forall (fun i => nonempty i = true /\ count comma i = 0)
                interfaces).
  { induction nodes as [|n rest IH]; simpl in Hget.
    - by injection Hget as <- _.
    - destruct (hostname_of n) as [h|e]; [|done]. simpl in Hget.
      destruct (CloudStack.py_eqb h node); [|by apply IH].
      destruct (default (PStr EmptyString) (n !! "bond_interfaces"))
        as [|b|z|s]; try done.
      simpl in Hget. injection Hget as <- _.
      apply filter_nonempty_split. }
  split; [done|]. simpl. by rewrite interfaces_round_trip.
Qed.

Definition interfaces_nodes : list setting :=
  [ {[ "hostname" := PStr "10.0.0.1" ]};
    {[ "hostname" := PStr "10.0.0.2";
       "bond_interfaces" := PStr "eth1,,eth2," ]} ].

Lemma bond_interfaces_round_trip_witness :
  get_node_bond_interfaces interfaces_nodes (PStr "10.0.0.2")
  = Ok (["eth1"; "eth2"], []) /\
  Forall (fun i => nonempty i = true /\ count comma i = 0) ["eth1"; "eth2"] /\
  bond_interfaces_of (PStr (join comma ["eth1"; "eth2"]))
  = Ok ["eth1"; "eth2"].
Proof.
  split; [vm_compute; reflexivity|].
  apply (bond_interfaces_round_trip interfaces_nodes (PStr "10.0.0.2")
           ["eth1"; "eth2"] []).
  vm_compute. reflexivity.
Defined.

(** *** Bridge mappings *)

Lemma clean_pieces_ok (pieces cleaned : list string) :
  clean_pieces pieces = Ok cleaned ->
  cleaned = map strip pieces /\
  Forall (fun m => count colon m = 1) pieces.
Proof.
  revert cleaned. induction pieces as [|m rest IH]; intros cleaned; simpl.
  - by intros [= <-].
  - rewrite length_split.
    destruct (Nat.eqb (S (count colon m)) 2) eqn:E; simpl; [|done].
    apply Nat.eqb_eq in E.
    destruct (clean_pieces rest) as [c|e]; [|done]. simpl. intros [= <-].
    destruct (IH c eq_refl) as [-> Hrest].
    split; [done|]. apply Forall_cons. split; [lia|done].
Qed.

Lemma clean_pieces_all (pieces : list string) :
  Forall (fun m => count colon m = 1) pieces ->
  clean_pieces pieces = Ok (map strip pieces).
Proof.
  induction 1 as [|m rest Hm _ IH]; simpl; [done|].
  by rewrite length_split, Hm, IH.
Qed.

Lemma clean_pieces_bad (pieces : list string) :
  Exists (fun m => count colon m <> 1) pieces ->
  clean_pieces pieces = Raise not_enough_arguments.
Proof.
  induction pieces as [|m rest IH]; intros Hbad.
  - by apply Exists_nil in Hbad.
  - simpl. rewrite length_split.
    destruct (Nat.eqb (S (count colon m)) 2) eqn:E; simpl; [|done].
    apply Nat.eqb_eq in E.
    apply Exists_cons in Hbad as [Hm|Hrest]; [lia|].
    by rewrite IH.
Qed.

Lemma app_eq_Empty (s1 s2 : string) :
  s1 ++ s2 = EmptyString -> s2 = EmptyString.
Proof. destruct s1; [done|]. by rewrite app_String. Qed.

Lemma rstrip_by_app_kept (drop : ascii -> bool) (x y : string) :
  rstrip_by drop y = y -> y <> EmptyString ->
  rstrip_by drop (x ++ y) = x ++ y.
Proof.
  intros Hy Hne. induction x as [|a x IH].
  - by rewrite app_Empty.
  - rewrite app_String. simpl. rewrite IH.
    destruct (x ++ y) eqn:E; [|done].
    by apply app_eq_Empty in E.
Qed.

Lemma join_cons_cons (sep : ascii) (p q : string) (ps : list string) :
  join sep (p :: q :: ps) = p ++ String sep (join sep (q :: ps)).
Proof. reflexivity. Qed.

Lemma join_not_Empty (sep : ascii) (p : string) (ps : list string) :
  p <> EmptyString -> join sep (p :: ps) <> EmptyString.
Proof.
  intros Hp. destruct ps as [|q ps]; [done|].
  rewrite join_cons_cons. destruct p; [done|]. by rewrite app_String.
Qed.

Lemma rstrip_join (sep : ascii) (pieces : list string) :
  pieces <> [] ->
  Forall (fun p => p <> EmptyString /\ count sep p = 0) pieces ->
  rstrip sep (join sep pieces) = join sep pieces.
Proof.
  unfold rstrip. induction pieces as [|p ps IH]; [done|].
  intros _ [[Hp Hfree] Hps]%Forall_cons.
  destruct ps as [|q ps].
  - simpl. apply rstrip_by_free; [done|].
    intros c Hc. apply Ascii.eqb_eq in Hc. by subst.
  - rewrite join_cons_cons.
    assert (Hq : q <> EmptyString) by (by apply Forall_cons in Hps as [[? _] _]).
    pose proof (join_not_Empty sep q ps Hq) as Hne.
    apply rstrip_by_app_kept; [|done].
    simpl. rewrite IH by done.
    by destruct (join sep (q :: ps)).
Qed.

Lemma count_one_not_Empty (c : ascii) (p : string) :
  count c p = 1 -> p <> EmptyString.
Proof. by destruct p. Qed.

Lemma is_space_comma : is_space comma = false.
Proof. reflexivity. Qed.

Lemma is_space_colon : is_space colon = false.
Proof. reflexivity. Qed.

Lemma cleaned_pieces (s : string) (cleaned : list string) :
  clean_pieces (split comma (rstrip comma s)) = Ok cleaned ->
  cleaned <> [] /\
  Forall (fun p => count colon p = 1 /\ strip p = p /\ count comma p = 0)
    cleaned.
Proof.
  intros [-> Hcolon]%clean_pieces_ok.
  pose proof (split_pieces comma (rstrip comma s)) as Hcomma.
  pose proof (split_not_nil comma (rstrip comma s)) as Hne.
  split; [by destruct (split comma (rstrip comma s))|].
  apply Forall_fmap. apply Forall_forall. intros m Hm.
  rewrite Forall_forall in Hcolon, Hcomma. simpl.
  rewrite !count_strip, strip_idemp by done.
  split; [by apply Hcolon|]. split; [done|by apply Hcomma].
Qed.

(** X16. When [get_node_bridge_mappings] accepts a setting, what it
    returns is a comma-separated list whose every item has exactly one
    colon and no white space around it; and cleaning is idempotent: the
    returned string, given as a setting, is returned unchanged. *)
Theorem bridge_mappings_cleaned (s r : string) :
  clean_bridge_mappings (PStr s) = Ok r ->
  Forall (fun p => count colon p = 1 /\ strip p = p) (split comma r) /\
  clean_bridge_mappings (PStr r) = Ok r.
Proof.
  unfold clean_bridge_mappings.
  destruct (clean_pieces (split comma (rstrip comma s))) as [cleaned|e] eqn:E;
    [|done].
  simpl. intros [= <-].
  destruct (cleaned_pieces s cleaned E) as [Hne Hall].
  assert (Hsplit : split comma (join comma cleaned) = cleaned).
  { apply split_join; [done|].
    eapply Forall_impl; [exact Hall|]. by intros p (_ & _ & ?). }
  split.
  - rewrite Hsplit. eapply Forall_impl; [exact Hall|]. by intros p (? & ? & _).
  - rewrite rstrip_join, Hsplit.
    + rewrite clean_pieces_all.
      * simpl. f_equal. f_equal. apply list_eq. intros i.
        rewrite list_lookup_fmap.
        destruct (cleaned !! i) as [p|] eqn:Ep; [|done]. simpl. f_equal.
        rewrite Forall_forall in Hall.
        by destruct (Hall p (list_elem_of_lookup_2 _ _ _ Ep)) as (_ & ? & _).
      * eapply Forall_impl; [exact Hall|]. by intros p (? & _).
    + done.
    + eapply Forall_impl; [exact Hall|]. intros p (Hc & _ & ?).
      split; [by eapply count_one_not_Empty|done].
Qed.

Lemma bridge_mappings_cleaned_witness :
  clean_bridge_mappings (PStr "physnet1:br-eth1, physnet2:br-eth2 ,,")
  = Ok "physnet1:br-eth1,physnet2:br-eth2" /\
  Forall (fun p => count colon p = 1 /\ strip p = p)
    (split comma "physnet1:br-eth1,physnet2:br-eth2") /\
  clean_bridge_mappings (PStr "physnet1:br-eth1,physnet2:br-eth2")
  = Ok "physnet1:br-eth1,physnet2:br-eth2".
Proof.
  split; [vm_compute; reflexivity|].
  apply (bridge_mappings_cleaned "physnet1:br-eth1, physnet2:br-eth2 ,,").
  vm_compute. reflexivity.
Defined.

Lemma clean_bridge_mappings_cases (s : string) :
  let pieces := split comma (rstrip comma s) in
  match clean_bridge_mappings (PStr s) with
  | Ok _ => Forall (fun m => count colon m = 1) pieces
  | Raise e =>
      e = not_enough_arguments /\
      Exists (fun m => count colon m <> 1) pieces
  end.
Proof.
  intros pieces. unfold clean_bridge_mappings. fold pieces.
  destruct (clean_pieces pieces) as [cleaned|e] eqn:E; simpl.
  - by apply clean_pieces_ok in E as [_ ?].
  - assert (Hbad : Exists (fun m => count colon m <> 1) pieces).
    { apply not_Forall_Exists; [intros m; apply _|].
      intros Hall. by rewrite clean_pieces_all in E. }
    split; [|done]. rewrite clean_pieces_bad in E by done. congruence.
Qed.

(** What both methods do with a setting that is a string. *)
Definition string_verdict (missing : exn) (s : string) (r : result string)
  : Prop :=
  let pieces := split comma (rstrip comma s) in
  match r with
  | Ok _ => s <> EmptyString /\ Forall (fun m => count colon m = 1) pieces
  | Raise e =>
      (s = EmptyString /\ e = missing) \/
      (s <> EmptyString /\ e = not_enough_arguments /\
       Exists (fun m => count colon m <> 1) pieces)
  end.

Lemma string_verdict_cases (missing : exn) (s : string) :
  string_verdict missing s
    (if negb (truthy (PStr s)) then Raise missing
     else clean_bridge_mappings (PStr s)).
Proof.
  unfold string_verdict, truthy. rewrite negb_involutive.
  destruct (String.eqb s EmptyString) eqn:E.
  - apply String.eqb_eq in E. by left.
  - apply String.eqb_neq in E.
    pose proof (clean_bridge_mappings_cases s) as H. cbv zeta in H.
    destruct (clean_bridge_mappings (PStr s)) as [r|e]; [by split|].
    right. by destruct H.
Qed.

(** X17. When the [bridge_mappings] of the node is a string,
    [get_node_bridge_mappings] accepts it exactly when it is not empty and,
    once its trailing commas are dropped, every comma-separated item has
    exactly one colon. The empty string is refused with the message of the
    missing setting ("Node ... is missing bridge_mappings ..." for a
    configuration file, "Missing bridge_mappings setting" for the
    stand-alone environment). For an item without exactly one colon what is
    raised is not the message written in the source but [TypeError: not
    enough arguments for format string], the message having two [%s] for
    one argument. *)
Theorem bridge_mappings_invalid (nodes : list setting) (node : pyval)
    (s : string) :
  last_setting "bridge_mappings" nodes node PNone = Ok (PStr s) ->
  string_verdict
    (Exception ("Node " ++ py_str node ++ " is missing bridge_mappings "
                ++ "which is required for the OVS agent."))
    s (get_node_bridge_mappings nodes node) /\
  string_verdict (Exception "Missing bridge_mappings setting")
    s (StandaloneEnvironment.get_node_bridge_mappings (PStr s) node).
Proof.
  intros Hlast. split.
  - unfold get_node_bridge_mappings. rewrite Hlast. simpl bind.
    change (mbind ?f (Ok ?x)) with (f x).
    apply string_verdict_cases.
  - apply string_verdict_cases.
Qed.

Definition mappings_nodes (s : string) : list setting :=
  [ {[ "hostname" := PStr "10.0.0.2"; "bridge_mappings" := PStr s ]} ].

Lemma bridge_mappings_invalid_witness :
  (last_setting "bridge_mappings" (mappings_nodes "physnet1") (PStr "10.0.0.2")
     PNone = Ok (PStr "physnet1") /\
   get_node_bridge_mappings (mappings_nodes "physnet1") (PStr "10.0.0.2")
   = Raise not_enough_arguments) /\
  string_verdict
    (Exception ("Node " ++ py_str (PStr "10.0.0.2")
                ++ " is missing bridge_mappings "
                ++ "which is required for the OVS agent."))
    "physnet1"
    (get_node_bridge_mappings (mappings_nodes "physnet1") (PStr "10.0.0.2")) /\
  string_verdict (Exception "Missing bridge_mappings setting") "physnet1"
    (StandaloneEnvironment.get_node_bridge_mappings (PStr "physnet1")
       (PStr "10.0.0.2")).
Proof.
  assert (Hlast : last_setting "bridge_mappings" (mappings_nodes "physnet1")
                    (PStr "10.0.0.2") PNone = Ok (PStr "physnet1"))
    by (vm_compute; reflexivity).
  split; [split; [exact Hlast|vm_compute; reflexivity]|].
  exact (bridge_mappings_invalid (mappings_nodes "physnet1") (PStr "10.0.0.2")
           "physnet1" Hlast).
Defined.

(** The empty setting is reported as missing by both methods. *)
Lemma bridge_mappings_empty :
  get_node_bridge_mappings (mappings_nodes EmptyString) (PStr "10.0.0.2")
  = Raise (Exception ("Node 10.0.0.2 is missing bridge_mappings "
                      ++ "which is required for the OVS agent.")) /\
  StandaloneEnvironment.get_node_bridge_mappings (PStr EmptyString)
    (PStr "localhost")
  = Raise (Exception "Missing bridge_mappings setting").
Proof. split; vm_compute; reflexivity. Qed.

(** *** Two nodes of one name *)

Lemma last_setting_snoc (key : string) (pre : list setting) (n : setting)
    (node h found : pyval) :
  Forall (fun n => is_Some (n !! "hostname")) pre ->
  n !! "hostname" = Some h -> CloudStack.py_eqb h node = true ->
  last_setting key (pre ++ [n]) node found = Ok (default PNone (n !! key)).
Proof.
  intros Hpre Hn Hh. revert found.
  induction Hpre as [|m pre [hm Hm] _ IH]; intros found; simpl.
  - unfold hostname_of. rewrite Hn. simpl. by rewrite Hh.
  - unfold hostname_of at 1. rewrite Hm. simpl. apply IH.
Qed.

(** X18. When two nodes of the configuration have the same host name,
    the bond interfaces of that name are those of the first of them,
    while its bridge mappings and its physical bridge are those of the
    last: the first loop returns at the first match, the two others run
    to the end. *)
Theorem duplicate_hostname_first_and_last (first last_ : setting)
    (mid : list setting) (node h1 h2 : pyval) :
  first !! "hostname" = Some h1 -> CloudStack.py_eqb h1 node = true ->
  last_ !! "hostname" = Some h2 -> CloudStack.py_eqb h2 node = true ->
  Forall (fun n => is_Some (n !! "hostname")) mid ->
  let nodes := first :: mid ++ [last_] in
  get_node_bond_interfaces nodes node
  = get_node_bond_interfaces [first] node /\
  get_node_bridge_mappings nodes node
  = get_node_bridge_mappings [last_] node /\
  get_node_phy_bridge nodes node = get_node_phy_bridge [last_] node.
Proof.
  intros H1 Heq1 H2 Heq2 Hmid nodes.
  assert (Hlast : forall key found,
             last_setting key nodes node found
             = last_setting key [last_] node PNone).
  { intros key found. unfold nodes.
    pose proof (last_setting_snoc key [] last_ node h2 PNone
                  (Forall_nil_2 _) H2 Heq2) as Hone.
    change (last_setting key [last_] node PNone
            = Ok (default PNone (last_ !! key))) in Hone.
    rewrite Hone.
    apply (last_setting_snoc key (first :: mid) last_ node h2); [|done|done].
    apply Forall_cons. split; [by eexists|done]. }
  split; [|split].
  - unfold nodes. simpl. unfold hostname_of. rewrite H1. simpl.
    by rewrite Heq1.
  - unfold get_node_bridge_mappings. by rewrite Hlast.
  - unfold get_node_phy_bridge. by rewrite Hlast.
Qed.

Definition twice_first : setting :=
  {[ "hostname" := PStr "10.0.0.2"; "bond_interfaces" := PStr "eth1,eth2";
     "physical_interface_bridge" := PStr "br-a" ]}.

Definition twice_last : setting :=
  {[ "hostname" := PStr "10.0.0.2"; "bond_interfaces" := PStr "eth3,eth4";
     "physical_interface_bridge" := PStr "br-b" ]}.

Lemma duplicate_hostname_first_and_last_witness :
  twice_first !! "hostname" = Some (PStr "10.0.0.2") /\
  twice_last !! "hostname" = Some (PStr "10.0.0.2") /\
  CloudStack.py_eqb (PStr "10.0.0.2") (PStr "10.0.0.2") = true /\
  Forall (fun n : setting => is_Some (n !! "hostname")) [] /\
  get_node_bond_interfaces (twice_first :: [] ++ [twice_last])
    (PStr "10.0.0.2")
  = get_node_bond_interfaces [twice_first] (PStr "10.0.0.2") /\
  get_node_bridge_mappings (twice_first :: [] ++ [twice_last])
    (PStr "10.0.0.2")
  = get_node_bridge_mappings [twice_last] (PStr "10.0.0.2") /\
  get_node_phy_bridge (twice_first :: [] ++ [twice_last]) (PStr "10.0.0.2")
  = get_node_phy_bridge [twice_last] (PStr "10.0.0.2").
Proof.
  split; [reflexivity|]. split; [reflexivity|]. split; [reflexivity|].
  split; [constructor|].
  apply (duplicate_hostname_first_and_last twice_first twice_last []
           (PStr "10.0.0.2") (PStr "10.0.0.2") (PStr "10.0.0.2"));
    try reflexivity.
  constructor.
Defined.

(** *** The nodes to deploy to *)

(** [v in l] *)
Definition py_in (v : pyval) (l : list pyval) : bool :=
  existsb (fun e => CloudStack.py_eqb e v) l.






Section Init.

(** [str()] of [self.settings['nodes']], a list of dictionaries. *)
Variable repr_nodes : list setting -> string.



End Init.

End ConfigEnvironment.

(** ** cloudstack/big_patch.py: nodes are taken in the order of the
    configuration *)

Module CloudStackOrder.
Import Py Format InterfaceConfig CloudStack.

Local Close Scope string_scope.

Lemma fifo_step (init : queue -> list Node) (s s' : state) :
  (forall q, begun q (log s) ++ items (queues s q) = init q) ->
  step s s' ->
  forall q, begun q (log s') ++ items (queues s' q) = init q.
Proof.
  intros Hfifo Hstep q0. specialize (Hfifo q0). unfold begun in *.
  destruct Hstep as
    [ rest s Hp | q rest s Hp | q rest s Hp Hzero | rest s Hp Hfin
    | rest s Hp | rest s Hp Hfin | msg rest s Hp | secs rest s Hp
    | q n rest before after s Hws Hitems
    | q n k before after s Hws Hcount
    | q n before after s Hws Hcount
    | s Hrun | s Hrun
    | q n before after s Hws | q n before after s Hws ];
    simpl; rewrite ?omap_snoc; simpl; rewrite ?app_nil_r; try done.
  - unfold got. destruct (decide (q = q0)) as [->|Hne].
    + rewrite update_same. simpl. rewrite Hitems in Hfifo.
      by rewrite <- app_assoc.
    + rewrite update_other by done. by rewrite app_nil_r.
  - unfold acknowledged. destruct (decide (q0 = q)) as [->|Hne].
    + by rewrite update_same.
    + by rewrite update_other.
Qed.

(** X20. Each queue is served first in, first out: in every state the
    threads can reach, the nodes of a queue that have been begun, in the
    order they were begun, followed by the nodes still waiting on it, are
    the nodes the loop put on it, in the order of the configuration. *)
Theorem nodes_begun_in_order
    (generate_command_for_node : world -> Node -> result (gmap string string))
    (isfile : string -> bool) (compute_os mgmt_os : string)
    (nodes : list Node) (s0 s : state) (q : queue) :
  deploy_to_all generate_command_for_node isfile compute_os mgmt_os nodes
  = Ok s0 ->
  rtc step s0 s ->
  begun q (log s) ++ items (queues s q) = enqueued s0 q.
Proof.
  intros Hdeploy Hreach.
  pose proof (deploy_to_all_starting _ _ _ _ _ _ Hdeploy) as Hstart.
  revert q. revert s Hreach.
  apply (rtc_ind_r (fun s => forall q,
                      begun q (log s) ++ items (queues s q) = enqueued s0 q)).
  - intros q. by rewrite (start_log _ Hstart).
  - intros s s' _ Hstep IH. by apply (fifo_step (enqueued s0) s s').
Qed.

Definition pool_start : state :=
  started (deploy_to_all keep_files all_present "xenserver" "ubuntu"
             CloudStackQueues.pool_nodes).

Lemma nodes_begun_in_order_witness :
  deploy_to_all keep_files all_present "xenserver" "ubuntu"
    CloudStackQueues.pool_nodes
  = Ok pool_start /\
  rtc step pool_start (run 40 pool_start) /\
  begun node_q (log (run 40 pool_start))
  ++ items (queues (run 40 pool_start) node_q)
  = enqueued pool_start node_q.
Proof.
  split; [vm_compute; reflexivity|]. split; [apply run_reachable|].
  apply (nodes_begun_in_order keep_files all_present "xenserver" "ubuntu"
           CloudStackQueues.pool_nodes).
  - vm_compute. reflexivity.
  - apply run_reachable.
Defined.

End CloudStackOrder.

(** ** openstack/big_patch.py: the errors of [puppet apply] *)

Module ApplyErrors.
Import Py.

Definition nl : string := String (Ascii.ascii_of_nat 10) EmptyString.

(** The three tests of the loop over the lines (lines 763-770). *)
Definition ignored (e : string) : bool :=
  (str_contains "Device" e && str_contains "does not exist." e)
  || str_contains "Unable to add resolve nil for fact" e
  || str_contains "ls: cannot access /dev/s" e.

Definition actual_errors (errors : list string) : list string :=
  List.filter (fun e => negb (ignored e)) errors.

Definition nonempty (s : string) : bool :=
  match s with EmptyString => false | String _ _ => true end.

(** From [actual_errors = []] to the [raise], given the lines of
    [errors] (lines 761-775). *)
Definition check_apply (node : string) (errors : list string)
  : result unit :=
  let errors := String.concat nl (actual_errors errors) in
  if nonempty errors
  then Raise (Exception ("error applying puppet configuration to " ++ node
                         ++ ":" ++ nl ++ errors))
  else Ok tt.

Lemma concat_nl_Empty (l : list string) :
  String.concat nl l = EmptyString <-> l = [] \/ l = [EmptyString].
Proof.
  split.
  - destruct l as [|x [|y l]]; simpl; [by left|by right; subst|].
    intros H. exfalso. destruct x; discriminate H.
  - by intros [-> | ->].
Qed.

Lemma actual_errors_none (errors : list string) :
  Forall (fun e => ignored e = true) errors -> actual_errors errors = [].
Proof.
  induction 1 as [|e l He _ IH]; simpl; [done|]. by rewrite He.
Qed.

Lemma actual_errors_keeps (errors : list string) (e : string) :
  In e errors -> ignored e = false -> In e (actual_errors errors).
Proof.
  intros Hin He. apply filter_In. split; [done|]. by rewrite He.
Qed.

(** X21. The errors of [puppet apply] fail the node exactly when, the
    lines of the three ignored kinds dropped, a line that is not empty or
    more than one line are left. Output made of ignored lines only never
    fails the node, and any other non-empty line does. *)
Theorem apply_errors_filtered (node : string) (errors : list string) :
  (check_apply node errors = Ok tt <->
   actual_errors errors = [] \/ actual_errors errors = [EmptyString]) /\
  (Forall (fun e => ignored e = true) errors ->
   check_apply node errors = Ok tt) /\
  (forall e, In e errors -> ignored e = false -> e <> EmptyString ->
     check_apply node errors
     = Raise (Exception ("error applying puppet configuration to " ++ node
                         ++ ":" ++ nl
                         ++ String.concat nl (actual_errors errors)))).
Proof.
  assert (Hiff : check_apply node errors = Ok tt <->
                 actual_errors errors = []
                 \/ actual_errors errors = [EmptyString]).
  { rewrite <- concat_nl_Empty. unfold check_apply.
    destruct (String.concat nl (actual_errors errors)); simpl; split; done. }
  split; [done|]. split.
  - intros Hall. apply Hiff. left. by apply actual_errors_none.
  - intros e Hin He Hne.
    pose proof (actual_errors_keeps errors e Hin He) as Hkept.
    unfold check_apply.
    destruct (String.concat nl (actual_errors errors)) eqn:E; [|done].
    apply concat_nl_Empty in E as [E|E]; rewrite E in Hkept.
    + done.
    + destruct Hkept as [<-|[]]. done.
Qed.

End ApplyErrors.

(** ** cloudstack/big_patch.py: the management node at the return *)

Module CloudStackManagement.
Import Py Format InterfaceConfig CloudStack.

Local Close Scope string_scope.

(** Each of the two management threads is still to be started by the
    main thread, or was started. *)
Definition pending_or_started (s : state) : Prop :=
  (IStartManagement ∈ prog s \/ management s <> NotStarted) /\
  (IStartReboot ∈ prog s \/ reboot s <> NotStarted).

Definition never_started (s : state) : Prop :=
  (IStartManagement ∉ prog s) /\ management s = NotStarted /\
  (IStartReboot ∉ prog s) /\ reboot s = NotStarted.

Lemma pending_or_started_step (s s' : state) :
  pending_or_started s -> step s s' -> pending_or_started s'.
Proof.
  unfold pending_or_started. intros [Hm Hr] Hstep.
  destruct Hstep as
    [ rest s Hp | q rest s Hp | q rest s Hp Hzero | rest s Hp Hfin
    | rest s Hp | rest s Hp Hfin | msg rest s Hp | secs rest s Hp
    | q n rest before after s Hws Hitems
    | q n k before after s Hws Hcount
    | q n before after s Hws Hcount
    | s Hrun | s Hrun
    | q n before after s Hws | q n before after s Hws ]; simpl; rewrite ?Hp in *;
    try rewrite Hrun in *; try rewrite Hfin in *;
    rewrite ?elem_of_cons in *; intuition congruence.
Qed.

Lemma never_started_step (s s' : state) :
  never_started s -> step s s' -> never_started s'.
Proof.
  unfold never_started. intros (Hm & Hm' & Hr & Hr') Hstep.
  destruct Hstep as
    [ rest s Hp | q rest s Hp | q rest s Hp Hzero | rest s Hp Hfin
    | rest s Hp | rest s Hp Hfin | msg rest s Hp | secs rest s Hp
    | q n rest before after s Hws Hitems
    | q n k before after s Hws Hcount
    | q n before after s Hws Hcount
    | s Hrun | s Hrun
    | q n before after s Hws | q n before after s Hws ]; simpl; rewrite ?Hp in *;
    rewrite ?not_elem_of_cons in *; intuition congruence.
Qed.

Lemma main_program_management (compute_os : string) :
  (IStartManagement ∈ main_program compute_os true /\
   IStartReboot ∈ main_program compute_os true) /\
  ((IStartManagement ∉ main_program compute_os false) /\
   (IStartReboot ∉ main_program compute_os false)).
Proof.
  unfold main_program.
  destruct (String.eqb compute_os "ubuntu" || String.eqb compute_os "centos");
    (split; split; apply (bool_decide_unpack _); vm_compute; exact I).
Qed.

Lemma managed_reachable (s0 s : state) (compute_os : string) :
  starting s0 -> rtc step s0 s ->
  (prog s0 = main_program compute_os true -> pending_or_started s) /\
  (prog s0 = main_program compute_os false -> never_started s).
Proof.
  intros Hstart.
  destruct (main_program_management compute_os) as [[Hm Hr] [Hm' Hr']].
  revert s.
  apply (rtc_ind_r (fun s =>
           (prog s0 = main_program compute_os true -> pending_or_started s) /\
           (prog s0 = main_program compute_os false -> never_started s))).
  - split; intros Hp.
    + split; left; by rewrite Hp.
    + unfold never_started. rewrite Hp.
      by rewrite (start_management _ Hstart), (start_reboot _ Hstart).
  - intros s s' _ Hstep [IH1 IH2]. split; intros Hp.
    + by eapply pending_or_started_step; [apply IH1|].
    + by eapply never_started_step; [apply IH2|].
Qed.

(** X22. When [deploy_to_all] has passed its guards and its main thread
    returns: with a management node, the setup of the management node
    has finished and its reboot command has returned; without one, no
    management thread was ever started. *)
Theorem management_node_at_return
    (generate_command_for_node : world -> Node -> result (gmap string string))
    (isfile : string -> bool) (compute_os mgmt_os : string)
    (nodes : list Node) (st : setup) (s0 s : state) :
  enqueue_all generate_command_for_node (fresh compute_os mgmt_os) nodes
  = Ok st ->
  deploy_to_all generate_command_for_node isfile compute_os mgmt_os nodes
  = Ok s0 ->
  prog s0 <> [] ->
  rtc step s0 s ->
  prog s = [] ->
  match MANAGEMENT_NODE (globals st) with
  | Some _ => management s = Finished /\ reboot s = Finished
  | None => management s = NotStarted /\ reboot s = NotStarted
  end.
Proof.
  intros Hst Hdeploy Hne Hreach Hp.
  pose proof (deploy_to_all_starting _ _ _ _ _ _ Hdeploy) as Hstart.
  assert (Hprog : prog s0 = main_program (COMPUTE_OS (globals st))
                             (has_management (globals st))).
  { unfold deploy_to_all in Hdeploy. rewrite Hst in Hdeploy.
    simpl in Hdeploy.
    destruct (preflight isfile st); injection Hdeploy as <-; [done|done]. }
  destruct (managed_reachable s0 s (COMPUTE_OS (globals st)) Hstart Hreach)
    as [Hyes Hno].
  destruct (CloudStackReturn.returned_settled s0 s Hstart) as (_ & Hm & Hr & _);
    [by apply invariant_reachable
    |by apply (CloudStackReturn.waits_reachable s0)|done|].
  unfold has_management in Hprog.
  destruct (MANAGEMENT_NODE (globals st)).
  - destruct (Hyes Hprog) as [[Hin|Hm'] [Hin'|Hr']];
      try (rewrite Hp in *; by apply elem_of_nil in Hin);
      try (rewrite Hp in *; by apply elem_of_nil in Hin').
    split; [by destruct (management s)|by destruct (reboot s)].
  - by destruct (Hno Hprog) as (_ & ? & _ & ?).
Qed.

Lemma management_node_at_return_witness :
  enqueue_all keep_files (fresh "ubuntu" "ubuntu") ubuntu_nodes
  = Ok ubuntu_setup /\
  deploy_to_all keep_files all_present "ubuntu" "ubuntu" ubuntu_nodes
  = Ok ubuntu_start /\
  prog ubuntu_start <> [] /\
  rtc step ubuntu_start (run 200 ubuntu_start) /\
  prog (run 200 ubuntu_start) = [] /\
  match MANAGEMENT_NODE (globals ubuntu_setup) with
  | Some _ =>
      management (run 200 ubuntu_start) = Finished /\
      reboot (run 200 ubuntu_start) = Finished
  | None =>
      management (run 200 ubuntu_start) = NotStarted /\
      reboot (run 200 ubuntu_start) = NotStarted
  end.
Proof.
  assert (Hne : prog ubuntu_start <> []) by (vm_compute; discriminate).
  assert (Hp : prog (run 200 ubuntu_start) = []) by (vm_compute; reflexivity).
  split; [vm_compute; reflexivity|]. split; [vm_compute; reflexivity|].
  split; [exact Hne|]. split; [apply run_reachable|]. split; [exact Hp|].
  apply (management_node_at_return keep_files all_present "ubuntu" "ubuntu"
           ubuntu_nodes ubuntu_setup ubuntu_start (run 200 ubuntu_start)).
  - vm_compute. reflexivity.
  - vm_compute. reflexivity.
  - exact Hne.
  - apply run_reachable.
  - exact Hp.
Defined.

End CloudStackManagement.

